(** * openapi-backend: router, request validator, status matcher, dispatcher

    A shallow embedding of the request lifecycle engine of openapi-backend
    ([router.js], [validation.js], and the parts of [utils] and [backend]
    that the routing and validation code relies on), together with the
    properties of the design document that concern them.

    Conventions.
    - JavaScript strings are [string]; a character is one code unit, and the
      development covers the Latin-1 range of code units (0..255).
    - JavaScript values are [jsval]; numbers are integers, objects are
      association lists in property-enumeration order.  The numbers tested
      by the formats are doubles, of type [number].  The object graphs given
      to the cycle breaker live in a heap of their own.
    - A call that may throw returns a [completion].
    - The router builds regular expressions from text of the document.  The
      development covers the sources made of ordinary characters, [.], [$]
      and [[^/]+]; a function that would build another source returns
      [None], and the properties of the router are stated for documents
      whose sources are covered.
    - The libraries called ([JSON.parse], [qs], [cookie], [bath], the
      schema engine) are parameters of the functions that call them.

    The definitions come first, in the order of the sources; the properties
    follow. *)

From Stdlib Require Import ZArith Ascii String List Lia Bool Sorted.
From stdpp Require Import base strings gmap list pretty.

Open Scope string_scope.
Set Warnings "-register-all,-clear-no-such-hyp".

(** ** JavaScript values *)

Inductive jsval : Type :=
| VUndefined
| VNull
| VBool (b : bool)
| VNum (n : Z)
| VStr (s : string)
| VArr (elems : list jsval)
| VObj (props : list (string * jsval)).

(** The outcome of a call: a value, or a thrown [Error] with its message. *)
Inductive completion (A : Type) : Type :=
| Normal (a : A)
| Throw (message : string).
Arguments Normal {A} a.
Arguments Throw {A} message.

(** [typeof v === 'object'] *)
Definition typeof_object (v : jsval) : bool :=
  match v with
  | VNull | VArr _ | VObj _ => true
  | _ => false
  end.

(** [v === undefined] *)
Definition is_undefined (v : jsval) : bool :=
  match v with VUndefined => true | _ => false end.

(** [v === s] for a string [s] *)
Definition strict_eq_string (v : jsval) (s : string) : bool :=
  match v with VStr t => String.eqb t s | _ => false end.

(** [Boolean(v)] *)
Definition truthy (v : jsval) : bool :=
  match v with
  | VUndefined | VNull => false
  | VBool b => b
  | VNum n => negb (n =? 0)%Z
  | VStr s => negb (String.eqb s "")
  | VArr _ | VObj _ => true
  end.

(** Property lookup [o[k]] on an object given as its list of entries. *)
Fixpoint assoc {A : Type} (k : string) (l : list (string * A)) : option A :=
  match l with
  | [] => None
  | (k', v) :: r => if String.eqb k k' then Some v else assoc k r
  end.

(** Assignment [o[k] = v]: an existing key keeps its position, a new key is
    appended. *)
Fixpoint assign {A : Type} (k : string) (v : A) (l : list (string * A))
  : list (string * A) :=
  match l with
  | [] => [(k, v)]
  | (k', v') :: r =>
      if String.eqb k k' then (k', v) :: r else (k', v') :: assign k v r
  end.

(** ** String primitives used by the router *)

Module JsString.

Definition code (c : ascii) : nat := nat_of_ascii c.

(** White space and line terminators removed by [String.prototype.trim]:
    TAB, LF, VT, FF, CR, SP and NBSP. *)
Definition is_ws (c : ascii) : bool :=
  let n := code c in
  (((9 <=? n) && (n <=? 13)) || (n =? 32) || (n =? 160))%nat.

(** Line terminators, which [.] does not match in a regular expression. *)
Definition is_line_terminator (c : ascii) : bool :=
  let n := code c in ((n =? 10) || (n =? 13))%nat.

Definition is_slash (c : ascii) : bool := Ascii.eqb c "/".

Definition lower_char (c : ascii) : ascii :=
  let n := code c in
  if (((65 <=? n) && (n <=? 90))
      || ((192 <=? n) && (n <=? 222) && negb (n =? 215)))%nat
  then ascii_of_nat (n + 32) else c.

(** [s.toLowerCase()] *)
Fixpoint toLowerCase (s : string) : string :=
  match s with
  | "" => ""
  | String c r => String (lower_char c) (toLowerCase r)
  end.

(** Removal of the longest prefix of characters satisfying [p]. *)
Fixpoint strip_leading (p : ascii -> bool) (s : string) : string :=
  match s with
  | "" => ""
  | String c r => if p c then strip_leading p r else s
  end.

(** Removal of the longest suffix of characters satisfying [p]. *)
Fixpoint strip_trailing (p : ascii -> bool) (s : string) : string :=
  match s with
  | "" => ""
  | String c r =>
      match strip_trailing p r with
      | "" => if p c then "" else String c ""
      | r' => String c r'
      end
  end.

(** [s.trim()] *)
Definition trim (s : string) : string :=
  strip_trailing is_ws (strip_leading is_ws s).

(** [s.split(c)[0]]: the text before the first [c]. *)
Fixpoint before (c : ascii) (s : string) : string :=
  match s with
  | "" => ""
  | String d r => if Ascii.eqb d c then "" else String d (before c r)
  end.

(** The text after the first [c], when there is one. *)
Fixpoint after (c : ascii) (s : string) : option string :=
  match s with
  | "" => None
  | String d r => if Ascii.eqb d c then Some r else after c r
  end.

(** [s.split(c)[1]]: [undefined] when [s] has no [c]. *)
Definition split_second (c : ascii) (s : string) : option string :=
  before c <$> after c s.

(** [s.startsWith(p)] *)
Definition startsWith (s p : string) : bool := String.prefix p s.

(** Does the last character of [s] satisfy [p]? *)
Fixpoint ends_with (p : ascii -> bool) (s : string) : bool :=
  match s with
  | "" => false
  | String c "" => p c
  | String _ r => ends_with p r
  end.

(** Does [s] contain the character [c]? *)
Fixpoint contains (c : ascii) (s : string) : bool :=
  match s with
  | "" => false
  | String d r => Ascii.eqb d c || contains c r
  end.

(** [s.replace(/c/g, t)] for a single-character pattern. *)
Fixpoint replace_char (c : ascii) (t : string) (s : string) : string :=
  match s with
  | "" => ""
  | String d r =>
      if Ascii.eqb d c then t ++ replace_char c t r
      else String d (replace_char c t r)
  end.

(** [s.replace(/abc/g, t)] for a three-character literal pattern. *)
Fixpoint replace3 (a b c : ascii) (t : string) (s : string) : string :=
  match s with
  | String x ((String y (String z r)) as r1) =>
      if Ascii.eqb x a && Ascii.eqb y b && Ascii.eqb z c
      then t ++ replace3 a b c t r
      else String x (replace3 a b c t r1)
  | String x r => String x (replace3 a b c t r)
  | "" => ""
  end.

End JsString.

Import JsString.

(** ** Requests *)

(** [req.query]: absent, a string, or an object. *)
Inductive Query : Type :=
| QUndefined
| QString (s : string)
| QObject (props : list (string * jsval)).

(** [Request]: [headers] lists the header entries; [body] is any value. *)
Record Request : Type := mkRequest {
  req_method : string;
  req_path : string;
  req_headers : list (string * jsval);
  req_query : Query;
  req_body : jsval
}.

(** The request [req] with another body. *)
Definition with_body (req : Request) (body : jsval) : Request :=
  {| req_method := req_method req; req_path := req_path req;
     req_headers := req_headers req; req_query := req_query req;
     req_body := body |}.

(** The path part of [normalizeRequest]:
    [(path || '').trim().split('?')[0].replace(/\/+$/, '').replace(/^\/*/, '/')] *)
Definition normalize_path_string (p : string) : string :=
  String "/"
    (strip_leading is_slash (strip_trailing is_slash (before "?" (trim p)))).

(** [normalizeRequest(req)]: every field is copied, [path] and [method] are
    replaced. *)
Definition normalizeRequest (req : Request) : Request :=
  {| req_method := toLowerCase (trim (req_method req));
     req_path := normalize_path_string (req_path req);
     req_headers := req_headers req;
     req_query := req_query req;
     req_body := req_body req |}.

(** ** The OpenAPI document *)

Record ParameterObject : Type := mkParameter {
  param_name : string;
  param_in : string;
  param_required : bool;
  param_style : option string;
  param_explode : option bool;
  (** [content]: media type to media-type object *)
  param_content : option (list (string * jsval));
  param_schema : option jsval
}.

(** A security requirement object maps scheme names to scopes. *)
Definition SecurityRequirementObject : Type := list (string * list string).

Record RequestBodyObject : Type := mkRequestBody {
  (** [content]: media type to media-type object *)
  rb_content : list (string * jsval)
}.

Record OperationObject : Type := mkOperationObject {
  oo_operationId : option string;
  oo_parameters : option (list ParameterObject);
  oo_security : option (list SecurityRequirementObject);
  oo_requestBody : option RequestBodyObject
}.

Record PathItemObject : Type := mkPathItem {
  pi_get : option OperationObject;
  pi_put : option OperationObject;
  pi_post : option OperationObject;
  pi_delete : option OperationObject;
  pi_options : option OperationObject;
  pi_head : option OperationObject;
  pi_patch : option OperationObject;
  pi_trace : option OperationObject;
  pi_parameters : option (list ParameterObject)
}.

(** [paths] lists the path items in the enumeration order of the object. *)
Record Document : Type := mkDocument {
  doc_paths : option (list (string * PathItemObject));
  doc_security : option (list SecurityRequirementObject)
}.

(** The flattened [Operation] built by [getOperations]: the operation object
    extended with [path], [method], merged [parameters] and effective
    [security]. *)
Record Operation : Type := mkOperation {
  op_operationId : option string;
  op_requestBody : option RequestBodyObject;
  op_path : string;
  op_method : string;
  op_parameters : list ParameterObject;
  op_security : list SecurityRequirementObject
}.

Record OpenAPIRouter : Type := mkRouter {
  definition : Document;
  apiRoot : string
}.

(** The constructor: [apiRoot = opts.apiRoot || '/']. *)
Definition newRouter (def : Document) (root : option string) : OpenAPIRouter :=
  {| definition := def;
     apiRoot := match root with
                | Some s => if String.eqb s "" then "/" else s
                | None => "/"
                end |}.

(** [_.entries(_.pick(pathBaseObject, ['get', 'put', 'post', 'delete',
    'options', 'head', 'patch', 'trace']))]: the picked object lists the
    methods in the order of the pick list. *)
Definition picked_methods (item : PathItemObject)
  : list (string * OperationObject) :=
  omap (fun '(m, o) => pair m <$> o)
    [("get", pi_get item); ("put", pi_put item); ("post", pi_post item);
     ("delete", pi_delete item); ("options", pi_options item);
     ("head", pi_head item); ("patch", pi_patch item);
     ("trace", pi_trace item)].

(** [a || []] *)
Definition or_empty {A : Type} (o : option (list A)) : list A :=
  default [] o.

Definition flatten_operation (def : Document) (path : string)
  (item : PathItemObject) (method : string) (op : OperationObject)
  : Operation :=
  {| op_operationId := oo_operationId op;
     op_requestBody := oo_requestBody op;
     op_path := path;
     op_method := method;
     op_parameters := or_empty (oo_parameters op) ++ or_empty (pi_parameters item);
     op_security :=
       match oo_security op with
       | Some s => s
       | None => or_empty (doc_security def)
       end |}.

Definition getOperations (r : OpenAPIRouter) : list Operation :=
  let def := definition r in
  flat_map
    (fun '(path, item) =>
       map (fun '(method, op) => flatten_operation def path item method op)
         (picked_methods item))
    (or_empty (doc_paths def)).

(** [_.find(l, P)]: the first element satisfying [P]. *)
Definition find_first {A : Type} (P : A -> Prop) `{!forall x, Decision (P x)}
  (l : list A) : option A :=
  snd <$> list_find P l.

(** [_.find(this.getOperations(), { operationId })] *)
Definition getOperation (r : OpenAPIRouter) (operationId : string)
  : option Operation :=
  find_first (fun op => op_operationId op = Some operationId) (getOperations r).

(** [_.find(parameters, { name, in: location })] *)
Definition find_parameter (name location : string)
  (params : list ParameterObject) : option ParameterObject :=
  find_first (fun p => param_name p = name /\ param_in p = location) params.

(** A parameter is identified by its name and location. *)
Definition param_key (p : ParameterObject) : string * string :=
  (param_name p, param_in p).

(** ** Path templates and the regular expressions built from them *)

(** [path.replace(/\{.*?\}/g, x)] cuts a template into the characters it
    keeps and the placeholders it replaces.  A placeholder starts at a ["{"]
    and ends at the first ["}"] after it, provided no line terminator lies
    in between ([.] does not match one). *)
Inductive token : Type :=
| TChar (c : ascii)
| TPlaceholder.

(** The number of characters of [s] up to and including its first ["}"],
    when no line terminator comes before it. *)
Fixpoint placeholder_length (s : string) : option nat :=
  match s with
  | "" => None
  | String c r =>
      if Ascii.eqb c "}" then Some 1
      else if is_line_terminator c then None
      else S <$> placeholder_length r
  end.

(** [skip] counts the characters of the current placeholder still to pass. *)
Fixpoint tokens_from (skip : nat) (s : string) : list token :=
  match s with
  | "" => []
  | String c r =>
      match skip with
      | S k => tokens_from k r
      | O =>
          if Ascii.eqb c "{" then
            match placeholder_length r with
            | Some n => TPlaceholder :: tokens_from n r
            | None => TChar c :: tokens_from 0 r
            end
          else TChar c :: tokens_from 0 r
      end
  end.

Definition tokens (template : string) : list token := tokens_from 0 template.

(** [template.replace(/\{.*?\}/g, x)] *)
Definition replace_placeholders (x : string) (template : string) : string :=
  fold_right
    (fun t acc => match t with TChar c => String c acc | TPlaceholder => x ++ acc end)
    "" (tokens template).

(** The fragment of regular-expression syntax covered: a source made of
    ordinary characters, [.], the assertion [$] and the
    class-with-repetition [[^/]+]. *)
Inductive atom : Type :=
| ALit (c : ascii)
| ADot
| AEnd
| ANonSlashes.

(** Characters with a syntactic role in a regular expression. *)
Definition regex_special (c : ascii) : bool :=
  contains c "\^$.*+?()[]{}|".

(** [new RegExp(src)]: [None] when [src] lies outside the fragment, where
    the constructor returns another expression or throws a [SyntaxError].
    The properties of the router below are stated for sources inside the
    fragment. *)
Fixpoint RegExp_atoms (src : string) : option (list atom) :=
  match src with
  | "" => Some []
  | String c r =>
      if Ascii.eqb c "[" then
        match r with
        | String c1 (String c2 (String c3 (String c4 r'))) =>
            if Ascii.eqb c1 "^" && Ascii.eqb c2 "/" && Ascii.eqb c3 "]"
               && Ascii.eqb c4 "+"
            then cons ANonSlashes <$> RegExp_atoms r'
            else None
        | _ => None
        end
      else if Ascii.eqb c "." then cons ADot <$> RegExp_atoms r
      else if Ascii.eqb c "$" then cons AEnd <$> RegExp_atoms r
      else if regex_special c then None
      else cons (ALit c) <$> RegExp_atoms r
  end.

(** One or more characters other than ["/"], then a rest accepted by [k]. *)
Fixpoint nonslash_run (k : string -> bool) (s : string) : bool :=
  match s with
  | String d s' => negb (is_slash d) && (k s' || nonslash_run k s')
  | "" => false
  end.

(** Does the whole of [s] match the sequence [atoms]?  This is the test
    [Boolean(s.match(new RegExp('^' + src + '$', 'g')))]. *)
Fixpoint match_atoms (atoms : list atom) (s : string) : bool :=
  match atoms with
  | [] => String.eqb s ""
  | ALit c :: rest =>
      match s with
      | String d s' => Ascii.eqb d c && match_atoms rest s'
      | "" => false
      end
  | ADot :: rest =>
      match s with
      | String d s' => negb (is_line_terminator d) && match_atoms rest s'
      | "" => false
      end
  | AEnd :: rest =>
      (* without the flag [m], [$] holds at the end of the text only *)
      match s with
      | "" => match_atoms rest ""
      | String _ _ => false
      end
  | ANonSlashes :: rest => nonslash_run (match_atoms rest) s
  end.

(** [Boolean(s.match(new RegExp(`^${src}$`, 'g')))] *)
Definition RegExp_matches (src s : string) : option bool :=
  (fun atoms => match_atoms atoms s) <$> RegExp_atoms src.

(** The anchored prefix match of a sequence of atoms without repetition:
    the rest of [s] after the prefix, when the prefix matches. *)
Fixpoint strip_atoms (atoms : list atom) (s : string) : option (option string) :=
  match atoms with
  | [] => Some (Some s)
  | ANonSlashes :: _ => None
  | AEnd :: rest =>
      match s with
      | "" => strip_atoms rest ""
      | String _ _ => (fun _ => None) <$> strip_atoms rest s
      end
  | a :: rest =>
      match s with
      | "" => (fun _ => None) <$> strip_atoms rest ""
      | String d s' =>
          if match a with
             | ALit c => Ascii.eqb d c
             | _ => negb (is_line_terminator d)
             end
          then strip_atoms rest s'
          else (fun _ => None) <$> strip_atoms rest s'
      end
  end.

(** [normalizePath(path)]: [path.replace(new RegExp(`^${this.apiRoot}/?`), '/')].
    [None] when the source built from [apiRoot] lies outside the fragment. *)
Definition normalizePath (r : OpenAPIRouter) (path : string) : option string :=
  atoms ← RegExp_atoms (apiRoot r);
  m ← strip_atoms atoms path;
  Some match m with
       | Some rest =>
           String "/" match rest with
                      | String "/" rest' => rest'
                      | _ => rest
                      end
       | None => path
       end.

(** ** Matching a request to an operation *)

(** [_.orderBy(l, key, 'desc')]: a stable sort, larger keys first. *)
Fixpoint insert_desc {A : Type} (key : A -> nat) (x : A) (l : list A) : list A :=
  match l with
  | [] => [x]
  | y :: r => if (key x <? key y)%nat then y :: insert_desc key x r else x :: l
  end.

Definition orderBy_desc {A : Type} (key : A -> nat) (l : list A) : list A :=
  fold_right (insert_desc key) [] l.

(** Larger keys first. *)
Definition sorted_desc {A : Type} (key : A -> nat) (l : list A) : Prop :=
  StronglySorted (fun a b => (key b <= key a)%nat) l.

(** [op.path.replace(RegExp(/\{.*?\}/g), '').length] *)
Definition specificity (op : Operation) : nat :=
  String.length (replace_placeholders "" (op_path op)).

(** The template test of one operation:
    [Boolean(normalizedPath.match(new RegExp(`^${path.replace(/\{.*?\}/g, '[^/]+')}$`, 'g')))] *)
Definition template_test (normalizedPath : string) (op : Operation) : option bool :=
  RegExp_matches (replace_placeholders "[^/]+" (op_path op)) normalizedPath.

(** [_.filter] with a test that can lie outside the fragment. *)
Fixpoint filter_opt {A : Type} (test : A -> option bool) (l : list A)
  : option (list A) :=
  match l with
  | [] => Some []
  | x :: r =>
      b ← test x;
      r' ← filter_opt test r;
      Some (if b : bool then x :: r' else r')
  end.

(** The elements kept by [filter_opt]. *)
Definition passes {A : Type} (test : A -> option bool) (x : A) : bool :=
  match test x with Some true => true | _ => false end.

Definition err404 : string := "404-notFound: no route matches request".
Definition err405 : string :=
  "405-methodNotAllowed: this method is not registered for the route".

(** [_.find(ops, ({ method }) => method === m)] *)
Definition find_method (m : string) (ops : list Operation) : option Operation :=
  find_first (fun op => op_method op = m) ops.

(** The part of [matchOperation] after the exact-path lookup has failed. *)
Definition matchTemplates (r : OpenAPIRouter) (normalizedPath method : string)
  (strict : bool) : option (completion (option Operation)) :=
  templatePathMatches ← filter_opt (template_test normalizedPath) (getOperations r);
  match templatePathMatches with
  | [] => Some (if strict then Throw err404 else Normal None)
  | _ =>
      match find_method method (orderBy_desc specificity templatePathMatches) with
      | Some op => Some (Normal (Some op))
      | None => Some (if strict then Throw err405 else Normal None)
      end
  end.

(** [matchOperation(req, strict)].  The result is [None] when a regular
    expression built on the way lies outside the fragment. *)
Definition matchOperation (r : OpenAPIRouter) (req : Request) (strict : bool)
  : option (completion (option Operation)) :=
  let req := normalizeRequest req in
  if negb (startsWith (req_path req) (apiRoot r)) then
    Some (if strict then Throw err404 else Normal None)
  else
    normalizedPath ← normalizePath r (req_path req);
    let exactPathMatches :=
      filter (fun op => op_path op = normalizedPath) (getOperations r) in
    match find_method (req_method req) exactPathMatches with
    | Some exactMatch => Some (Normal (Some exactMatch))
    | None => matchTemplates r normalizedPath (req_method req) strict
    end.

(** *** The path-template reading of a match

    A path matches a template when it is the template with every
    placeholder replaced by one non-empty run of characters other than
    ["/"]. *)
Inductive template_match : list token -> string -> Prop :=
| tm_nil : template_match [] ""
| tm_char c ts s :
    template_match ts s -> template_match (TChar c :: ts) (String c s)
| tm_placeholder seg ts s :
    seg <> "" -> contains "/" seg = false ->
    template_match ts s -> template_match (TPlaceholder :: ts) (seg ++ s).

Definition template_matches (template path : string) : Prop :=
  template_match (tokens template) path.

(** The atom a token stands for when its character is taken literally. *)
Definition atom_of_token (t : token) : atom :=
  match t with
  | TChar c => ALit c
  | TPlaceholder => ANonSlashes
  end.

(** A decision procedure for [template_matches]. *)
Definition template_matchb (template path : string) : bool :=
  match_atoms (map atom_of_token (tokens template)) path.

(** A template is plain when no character outside its placeholders has a
    role in regular-expression syntax. *)
Definition plain_token (t : token) : bool :=
  match t with
  | TChar c => negb (regex_special c)
  | TPlaceholder => true
  end.

Definition plain_template (template : string) : bool :=
  forallb plain_token (tokens template).

Fixpoint plain_string (s : string) : bool :=
  match s with
  | "" => true
  | String c r => negb (regex_special c) && plain_string r
  end.

Definition plain_router (r : OpenAPIRouter) : Prop :=
  plain_string (apiRoot r) = true /\
  forall op, In op (getOperations r) -> plain_template (op_path op) = true.

(** *** The selection rule in words

    [first_at P l i x]: [x] is the first element of [l] satisfying [P], at
    index [i]. *)
Definition first_at {A : Type} (P : A -> Prop) (l : list A) (i : nat) (x : A)
  : Prop :=
  l !! i = Some x /\ P x /\ forall j y, l !! j = Some y -> P y -> (i <= j)%nat.

(** [best_at key P l i x]: among the elements of [l] satisfying [P], [x] at
    index [i] has the largest key, and the smallest index among those with
    that key. *)
Definition best_at {A : Type} (key : A -> nat) (P : A -> Prop) (l : list A)
  (i : nat) (x : A) : Prop :=
  l !! i = Some x /\ P x /\
  forall j y, l !! j = Some y -> P y -> j <> i ->
    (key y < key x)%nat \/ (key y = key x /\ (i < j)%nat).

(** The operation selected for the normalized path [p] and method [m]:
    an operation declared at exactly [p] with method [m]; failing that, the
    operation with method [m] whose template matches [p] that comes first when
    the matches are ordered by decreasing specificity, ties in index order. *)
Definition selected (ops : list Operation) (p m : string) (op : Operation)
  : Prop :=
  (exists i, first_at (fun o => op_path o = p /\ op_method o = m) ops i op)
  \/ ((forall o, In o ops -> ~ (op_path o = p /\ op_method o = m))
      /\ exists i,
           best_at specificity
             (fun o => template_matches (op_path o) p /\ op_method o = m)
             ops i op).

(** *** Sample documents *)

Definition operation (id : string) : OperationObject :=
  {| oo_operationId := Some id; oo_parameters := None;
     oo_security := None; oo_requestBody := None |}.

Definition pathId : ParameterObject :=
  {| param_name := "id"; param_in := "path"; param_required := true;
     param_style := None; param_explode := None; param_content := None;
     param_schema := Some (VObj [("type", VStr "integer")]) |}.

(** The document of the dispatcher's test suite, with a [post] operation
    added under [/pets/{id}]. *)
Definition petstore : Document :=
  {| doc_paths := Some
       [("/pets",
          {| pi_get := Some (operation "getPets"); pi_put := None;
             pi_post := Some (operation "createPet"); pi_delete := None;
             pi_options := None; pi_head := None; pi_patch := None;
             pi_trace := None; pi_parameters := None |});
        ("/pets/{id}",
          {| pi_get := Some (operation "getPetById");
             pi_put := Some (operation "replacePetById");
             pi_post := Some (operation "touchPetById");
             pi_delete := Some (operation "deletePetById");
             pi_options := None; pi_head := None;
             pi_patch := Some (operation "updatePetById");
             pi_trace := None; pi_parameters := Some [pathId] |});
        ("/pets/{id}/owner",
          {| pi_get := Some (operation "getOwnerByPetId"); pi_put := None;
             pi_post := None; pi_delete := None; pi_options := None;
             pi_head := None; pi_patch := None; pi_trace := None;
             pi_parameters := Some [pathId] |});
        ("/pets/meta",
          {| pi_get := Some (operation "getPetsMeta"); pi_put := None;
             pi_post := None; pi_delete := None; pi_options := None;
             pi_head := None; pi_patch := None; pi_trace := None;
             pi_parameters := None |})];
     doc_security := Some [[("basicAuth", [])]] |}.

(** A document with a version number in its path. *)
Definition versioned : Document :=
  {| doc_paths := Some
       [("/v1.0/pets",
          {| pi_get := Some (operation "listPets"); pi_put := None;
             pi_post := None; pi_delete := None; pi_options := None;
             pi_head := None; pi_patch := None; pi_trace := None;
             pi_parameters := None |})];
     doc_security := None |}.

(** A document with segments that begin with ["$"], as the system query
    segments of OData have it. *)
Definition graph : Document :=
  let item get put delete :=
    {| pi_get := get; pi_put := put; pi_post := None; pi_delete := delete;
       pi_options := None; pi_head := None; pi_patch := None;
       pi_trace := None; pi_parameters := None |} in
  {| doc_paths := Some
       [("/users/me/$value", item (Some (operation "getMyValue")) None None);
        ("/users/{id}/$value", item None (Some (operation "putValue")) None);
        ("/users/{id}/{part}", item None None (Some (operation "deletePart")))];
     doc_security := None |}.

(** A path parameter declared as a string, for use at operation level. *)
Definition pathIdString : ParameterObject :=
  {| param_name := "id"; param_in := "path"; param_required := true;
     param_style := None; param_explode := None; param_content := None;
     param_schema := Some (VObj [("type", VStr "string")]) |}.

(** A document whose operation redeclares the path-level parameter. *)
Definition shadowed_get : OperationObject :=
  {| oo_operationId := Some "getPetById";
     oo_parameters := Some [pathIdString];
     oo_security := None;
     oo_requestBody := None |}.

Definition shadowed_item : PathItemObject :=
  {| pi_get := Some shadowed_get;
     pi_put := None; pi_post := None; pi_delete := None;
     pi_options := None; pi_head := None; pi_patch := None;
     pi_trace := None; pi_parameters := Some [pathId] |}.

Definition shadowed : Document :=
  {| doc_paths := Some [("/pets/{id}", shadowed_item)];
     doc_security := None |}.

Definition request (method path : string) : Request :=
  {| req_method := method; req_path := path; req_headers := [];
     req_query := QUndefined; req_body := VUndefined |}.

(** ** Parsing a request *)

(** [String(v)], as used by [v.toString()] and template literals. *)
Fixpoint to_string (v : jsval) : string :=
  match v with
  | VUndefined => "undefined"
  | VNull => "null"
  | VBool true => "true"
  | VBool false => "false"
  | VNum n => pretty n
  | VStr s => s
  | VArr l =>
      (fix join (l : list jsval) : string :=
         match l with
         | [] => ""
         | [x] => match x with VUndefined | VNull => "" | _ => to_string x end
         | x :: r =>
             match x with VUndefined | VNull => "" | _ => to_string x end
             ++ "," ++ join r
         end) l
  | VObj _ => "[object Object]"
  end.

Record ParsedRequest : Type := mkParsedRequest {
  pr_method : string;
  pr_path : string;
  pr_body : jsval;
  pr_params : list (string * jsval);
  pr_headers : list (string * jsval);
  pr_query : list (string * jsval);
  pr_cookies : list (string * jsval);
  pr_requestBody : jsval
}.

(** [_.mapKeys(o, (val, key) => f(key))] *)
Definition mapKeys {A : Type} (f : string -> string) (o : list (string * A))
  : list (string * A) :=
  fold_left (fun acc '(k, v) => assign (f k) v acc) o [].

(** [_.flatten([h]).join('; ')] for a header value [h]. *)
Definition cookie_text (h : option jsval) : string :=
  match h with
  | None | Some VUndefined | Some VNull => ""
  | Some (VArr l) =>
      (fix join (l : list jsval) : string :=
         match l with
         | [] => ""
         | [x] => match x with VUndefined | VNull => "" | _ => to_string x end
         | x :: r =>
             match x with VUndefined | VNull => "" | _ => to_string x end
             ++ "; " ++ join r
         end) l
  | Some v => to_string v
  end.

(** The query string rewritten for comma parsing, by parameter style. *)
Definition comma_query_string (style : option string) (queryString : string)
  : string :=
  let s1 :=
    if decide (style = Some "spaceDelimited")
    then replace3 "%" "2" "0" "," (replace_char " " "," queryString)
    else queryString in
  if decide (style = Some "pipeDelimited")
  then replace3 "%" "7" "C" "," (replace_char "|" "," s1)
  else s1.

(** [parameter.content && parameter.content['application/json']] *)
Definition has_json_content (p : ParameterObject) : bool :=
  match param_content p with
  | Some c => match assoc "application/json" c with
              | Some m => truthy m
              | None => false
              end
  | None => false
  end.

(** [o[k]] read as a value: [undefined] for a missing key. *)
Definition get (k : string) (o : list (string * jsval)) : jsval :=
  default VUndefined (assoc k o).

(** Monadic map over a list of computations that may throw. *)
Fixpoint mapM_completion {A B : Type} (f : A -> completion B) (l : list A)
  : completion (list B) :=
  match l with
  | [] => Normal []
  | x :: r =>
      match f x with
      | Throw e => Throw e
      | Normal y =>
          match mapM_completion f r with
          | Throw e => Throw e
          | Normal r' => Normal (y :: r')
          end
      end
  end.

Section Collaborators.

(** The libraries the router and the validator call.  [JSON_parse] returns
    the parsed value or the message of the [SyntaxError]; [qs_parse comma s]
    is [qs.parse(s, { comma })]; [cookie_parse] is [cookie.parse];
    [bath_params template path] is [bath(template).params(path)], [None] for
    [null]. *)
Variable JSON_parse : string -> jsval + string.
Variable qs_parse : bool -> option string -> list (string * jsval).
Variable cookie_parse : string -> list (string * jsval).
Variable bath_params : string -> string -> option (list (string * jsval)).

(** The body of the loop [for (const queryParam in query)]: the new value of
    the entry [queryParam].  An object has distinct keys, so an iteration
    reads and writes its own entry only. *)
Definition style_query_entry (operation : Operation)
  (queryString : option string) (entry : string * jsval)
  : completion (string * jsval) :=
  let '(queryParam, value) := entry in
  if truthy value then
    match find_parameter queryParam "query" (op_parameters operation) with
    | Some parameter =>
        if has_json_content parameter then
          match JSON_parse (to_string value) with
          | inl v => Normal (queryParam, v)
          | inr msg => Throw msg
          end
        else
          match queryString with
          | Some qs =>
              if bool_decide (param_explode parameter = Some false)
                 && negb (String.eqb qs "")
              then
                let commaParsed :=
                  qs_parse true
                    (Some (comma_query_string (param_style parameter) qs)) in
                Normal (queryParam, get queryParam commaParsed)
              else Normal entry
          | None => Normal entry
          end
    | None => Normal entry
    end
  else Normal entry.

(** The query before the style loop:
    [typeof req.query === 'object' ? _.cloneDeep(req.query) : parse(queryString)] *)
Definition initial_query (req : Request) : list (string * jsval) :=
  match req_query req with
  | QObject props => props
  | _ => qs_parse false (split_second "?" (req_path req))
  end.

(** The request body as parsed by [parseRequest]. *)
Definition parse_body (body : jsval) : jsval :=
  if truthy body && negb (typeof_object body) then
    match JSON_parse (to_string body) with
    | inl v => v
    | inr _ => body
    end
  else body.

(** [parseRequest(req, operation)].  [None] when [normalizePath] lies
    outside the fragment. *)
Definition parseRequest (r : OpenAPIRouter) (req : Request)
  (operation : option Operation) : option (completion ParsedRequest) :=
  let requestBody := parse_body (req_body req) in
  let headers := mapKeys toLowerCase (req_headers req) in
  let cookies := cookie_parse (cookie_text (assoc "cookie" headers)) in
  let queryString := split_second "?" (req_path req) in
  let query := initial_query req in
  let nreq := normalizeRequest req in
  let finish params query :=
    {| pr_method := req_method nreq; pr_path := req_path nreq;
       pr_body := req_body nreq; pr_params := params; pr_headers := headers;
       pr_query := query; pr_cookies := cookies;
       pr_requestBody := requestBody |} in
  match operation with
  | Some op =>
      normalizedPath ← normalizePath r (req_path nreq);
      let params := default [] (bath_params (op_path op) normalizedPath) in
      Some match mapM_completion (style_query_entry op queryString) query with
           | Normal query' => Normal (finish params query')
           | Throw e => Throw e
           end
  | None => Some (Normal (finish [] query))
  end.

End Collaborators.

(** ** Validating a request *)

(** An error object of the schema engine. *)
Record ValidationError : Type := mkValidationError {
  ve_keyword : string;
  ve_dataPath : string;
  ve_schemaPath : string;
  ve_params : jsval;
  ve_message : string
}.

Record ValidationResult : Type := mkValidationResult {
  valid : bool;
  (** [null] when there is no error *)
  errors : option (list ValidationError)
}.

(** The [operation] argument of [validateRequest]: absent, an
    [operationId], or an operation. *)
Inductive OperationRef : Type :=
| ByMatching
| ById (operationId : string)
| Given (operation : Operation).

(** The synthetic error pushed when the body is not well-formed JSON. *)
Definition parse_error (message : string) : ValidationError :=
  {| ve_keyword := "parse"; ve_dataPath := ""; ve_schemaPath := "#/requestBody";
     ve_params := VArr []; ve_message := message |}.

(** [schema && schema.type === 'array'] *)
Definition is_array_schema (p : ParameterObject) : bool :=
  match param_schema p with
  | Some (VObj props) =>
      match assoc "type" props with
      | Some (VStr t) => String.eqb t "array"
      | _ => false
      end
  | _ => false
  end.

(** The loop that wraps a singular query value in an array when the
    parameter is declared as an array. *)
Definition wrap_array_entry (operation : Operation) (entry : string * jsval)
  : string * jsval :=
  let '(name, value) := entry in
  match value with
  | VStr _ =>
      match find_parameter name "query" (op_parameters operation) with
      | Some p => if is_array_schema p then (name, VArr [value]) else entry
      | None => entry
      end
  | _ => entry
  end.

(** [_.keys(_.get(operation, 'requestBody.content', {}))] *)
Definition payloadFormats (operation : Operation) : list string :=
  match op_requestBody operation with
  | Some rb => fst <$> rb_content rb
  | None => []
  end.

Section Validator.

Variable JSON_parse : string -> jsval + string.
Variable qs_parse : bool -> option string -> list (string * jsval).
Variable cookie_parse : string -> list (string * jsval).
Variable bath_params : string -> string -> option (list (string * jsval)).

(** The validator: its router, and the compiled request validators by
    [operationId].  A compiled validator maps the object under validation to
    its list of errors. *)
Variable router : OpenAPIRouter.
Variable requestValidators : string -> option (list (jsval -> list ValidationError)).

(** The operation [validateRequest] works on; [Throw] for
    [Unknown operation]. *)
Definition resolve_operation (req : Request) (operation : OperationRef)
  : option (completion Operation) :=
  let matched :=
    res ← matchOperation router req false;
    Some match res with Normal o => o | Throw _ => None end in
  found ← match operation with
          | ByMatching => matched
          | ById id =>
              (* [!operation] holds of the empty string too *)
              if String.eqb id "" then matched
              else Some (getOperation router id)
          | Given op => Some (Some op)
          end;
  Some match found with
       | Some op =>
           match op_operationId op with
           | Some id => if String.eqb id "" then Throw "Unknown operation"
                        else Normal op
           | None => Throw "Unknown operation"
           end
       | None => Throw "Unknown operation"
       end.

(** The errors pushed before the compiled validators run. *)
Definition body_errors (req : Request) (operation : Operation)
  : list ValidationError :=
  let body := req_body req in
  if negb (typeof_object body)
     && negb (is_undefined body)
     && bool_decide (payloadFormats operation = ["application/json"])
  then
    match JSON_parse (to_string body) with
    | inl _ => []
    | inr message => [parse_error message]
    end
  else [].

(** The object handed to the compiled validators. *)
Definition validated_parameters (parsed : ParsedRequest) (operation : Operation)
  : jsval :=
  let query := wrap_array_entry operation <$> pr_query parsed in
  VObj ([("path", VObj (pr_params parsed)); ("query", VObj query);
         ("header", VObj (pr_headers parsed));
         ("cookie", VObj (pr_cookies parsed))]
        ++ if typeof_object (pr_requestBody parsed)
              || strict_eq_string (get "content-type" (pr_headers parsed))
                   "application/json"
           then [("requestBody", pr_requestBody parsed)]
           else [])%list.

(** [validateRequest(req, operation)] *)
Definition validateRequest (req : Request) (operation : OperationRef)
  : option (completion ValidationResult) :=
  resolved ← resolve_operation req operation;
  match resolved with
  | Throw e => Some (Throw e)
  | Normal op =>
      let operationId := default "" (op_operationId op) in
      let validators := requestValidators operationId in
      parsed ← parseRequest JSON_parse qs_parse cookie_parse bath_params
                 router req (Some op);
      Some match parsed with
           | Throw e => Throw e
           | Normal parsed =>
               let parameters := validated_parameters parsed op in
               match validators with
               | None => Throw "TypeError: validators is not iterable"
               | Some validators =>
                   let errs :=
                     (body_errors req op
                      ++ concat ((fun validate => validate parameters)
                                 <$> validators))%list in
                   Normal match errs with
                          | [] => {| valid := true; errors := None |}
                          | _ => {| valid := false; errors := Some errs |}
                          end
               end
           end
  end.

End Validator.

(** *** Stand-ins for the collaborators, for running the model *)

(** [s.split(c)] *)
Fixpoint split_on (c : ascii) (s : string) : list string :=
  match s with
  | "" => [""]
  | String d r =>
      if Ascii.eqb d c then "" :: split_on c r
      else match split_on c r with
           | [] => [String d ""]
           | x :: xs => String d x :: xs
           end
  end.

(** A parser for the JSON literals [true], [false] and [null]. *)
Definition json_literals (s : string) : jsval + string :=
  if String.eqb s "true" then inl (VBool true)
  else if String.eqb s "false" then inl (VBool false)
  else if String.eqb s "null" then inl VNull
  else inr "Unexpected token in JSON".

(** A query-string parser for flat [key=value] pairs separated by [&],
    without percent-decoding; with [comma], a value holding commas is
    split into an array. *)
Definition qs_flat (comma : bool) (s : option string) : list (string * jsval) :=
  match s with
  | None | Some "" => []
  | Some s =>
      fold_left
        (fun acc pair =>
           let value := default "" (after "=" pair) in
           assign (before "=" pair)
             (if comma && contains "," value
              then VArr (VStr <$> split_on "," value)
              else VStr value)
             acc)
        (split_on "&" s) []
  end.

Definition no_cookies (s : string) : list (string * jsval) := [].

Definition no_path_params (template path : string)
  : option (list (string * jsval)) := None.

(** A compiled validator that accepts everything. *)
Definition accept_all (parameters : jsval) : list ValidationError := [].

(** *** Sample operations *)

Definition array_parameter (style : option string) : ParameterObject :=
  {| param_name := "a"; param_in := "query"; param_required := false;
     param_style := style; param_explode := Some false;
     param_content := None;
     param_schema := Some (VObj [("type", VStr "array")]) |}.

Definition json_parameter : ParameterObject :=
  {| param_name := "a"; param_in := "query"; param_required := false;
     param_style := Some "form"; param_explode := Some false;
     param_content := Some [("application/json", VObj [])];
     param_schema := None |}.

Definition listing (param : ParameterObject) : Operation :=
  {| op_operationId := Some "getPets"; op_requestBody := None;
     op_path := "/pets"; op_method := "get"; op_parameters := [param];
     op_security := [] |}.

(** An operation whose only body format is JSON. *)
Definition creation : Operation :=
  {| op_operationId := Some "createPet";
     op_requestBody := Some {| rb_content := [("application/json", VObj [])] |};
     op_path := "/pets"; op_method := "post"; op_parameters := [];
     op_security := [] |}.

(** ** The status matcher *)

(** [String(code)] *)
Definition status_key (code : Z) : string := pretty code.

(** [Math.floor(code / 100) + "XX"] *)
Definition pattern_key (code : Z) : string := pretty (code / 100)%Z ++ "XX".

(** Modelled from the spec: [utils.findStatusCodeMatch], whose source file
    is missing (its test suite is present).  The design document, section 4.1:
    return the value under [map[String(code)]] if the key is present, also
    when the value is [null] or [undefined]; else the value under
    [map[floor(code/100) + "XX"]] if present; else [map["default"]]; else
    [undefined].  A code outside 100..599 skips the exact and the pattern
    lookup and falls through to [default]. *)
Definition findStatusCodeMatch (code : Z) (map : gmap string jsval) : jsval :=
  if ((100 <=? code) && (code <=? 599))%Z then
    match map !! status_key code with
    | Some v => v
    | None =>
        match map !! pattern_key code with
        | Some v => v
        | None => default VUndefined (map !! "default")
        end
    end
  else default VUndefined (map !! "default").

(** The map of scenario 3 of the design document. *)
Definition status_sample : gmap string jsval :=
  list_to_map [("200", VStr "OK"); ("401", VStr "U"); ("4XX", VStr "E");
               ("400", VStr "B"); ("default", VStr "D")].

(** ** The dispatcher: security handlers *)

(** [context.security]: the [authorized] flag and the handler results by
    scheme name. *)
Record SecurityContext : Type := mkSecurityContext {
  authorized : bool;
  results : gmap string jsval
}.

Section Security.

(** The context handed to the handlers. *)
Variable Context : Type.

(** The registry of security handlers, by scheme name. *)
Variable securityHandlers : gmap string (Context -> jsval).

(** What the handler of [name] returns; [undefined] without a handler. *)
Definition handler_result (context : Context) (name : string) : jsval :=
  match securityHandlers !! name with
  | Some handler => handler context
  | None => VUndefined
  end.

(** Every scheme of the requirement object has a truthy stored result. *)
Definition requirement_met (stored : gmap string jsval)
  (requirement : SecurityRequirementObject) : bool :=
  forallb (fun name => truthy (default VUndefined (stored !! name)))
    (fst <$> requirement).

(** Modelled from the spec: step 4 of [handleRequest], whose source file
    [backend.js] is missing (its test suite and declarations are present).
    The design document, section 4.7 and invariant I7: for each scheme name
    in every requirement object the registered handler is invoked with the
    context and its return value stored under the name, [undefined] when no
    handler is registered; [authorized] is set by the OR-of-ANDs rule, and
    an empty [security] gives [authorized = true]. *)
Definition runSecurity (context : Context)
  (security : list SecurityRequirementObject) : SecurityContext :=
  let names := flat_map (fun requirement => fst <$> requirement) security in
  let stored :=
    fold_left (fun acc name => <[name := handler_result context name]> acc)
      names ∅ in
  {| authorized :=
       match security with
       | [] => true
       | _ => existsb (requirement_met stored) security
       end;
     results := stored |}.

End Security.

(** ** The cycle breaker *)

(** The object graph handed to [decycle]: values are primitives or
    references into a heap of objects; a reference names an object's
    identity.  Cycles and shared substructures are references to one
    location. *)
Inductive prim : Type :=
| PUndefined
| PNull
| PBool (b : bool)
| PNum (n : Z)
| PStr (s : string).

Inductive hvalue : Type :=
| HPrim (p : prim)
| HRef (l : positive).

(** The builtin objects [decycle] leaves alone. *)
Inductive builtin : Type :=
| BBoolean
| BDate
| BNumber
| BRegExp
| BString.

Inductive hobject : Type :=
| HArray (elems : list hvalue)
| HObject (props : list (string * hvalue))
| HBuiltin (kind : builtin).

(** The result of [decycle]: every array and object in it is created by
    the call, so the result is a tree; its leaves are the values passed
    through. *)
Inductive clone : Type :=
| CValue (v : hvalue)
| CArray (elems : list clone)
| CObject (props : list (string * clone)).

(** [{ $ref: oldPath }] *)
Definition ref_to (oldPath : string) : clone :=
  CObject [("$ref", CValue (HPrim (PStr oldPath)))].

(** The elements of an array with their indices as they print in a path. *)
Definition indexed (elems : list hvalue) : list (string * hvalue) :=
  imap (fun i e => (pretty i, e)) elems.

(** The loops [value.forEach((element, i) => nu[i] = derez(element, path + '/' + i))]
    and [Object.keys(value).forEach((name) => nu[name] = derez(value[name], path + '/' + name))],
    with [rec] for [derez]. *)
Fixpoint derez_members
  (rec : gmap positive string -> hvalue -> string
         -> option (clone * gmap positive string))
  (path : string) (members : list (string * hvalue))
  (objects : gmap positive string)
  : option (list (string * clone) * gmap positive string) :=
  match members with
  | [] => Some ([], objects)
  | (name, element) :: rest =>
      '(c, objects) ← rec objects element (path ++ "/" ++ name);
      '(cs, objects) ← derez_members rec path rest objects;
      Some ((name, c) :: cs, objects)
  end.

(** [derez(value, path)] with the map [objects] passed along.  [fuel] bounds
    the depth of the recursion. *)
Fixpoint derez (fuel : nat) (h : gmap positive hobject)
  (objects : gmap positive string) (value : hvalue) (path : string)
  : option (clone * gmap positive string) :=
  match fuel with
  | O => None
  | S fuel =>
      match value with
      | HPrim _ => Some (CValue value, objects)
      | HRef l =>
          match h !! l with
          | Some (HArray elems) =>
              match objects !! l with
              | Some oldPath => Some (ref_to oldPath, objects)
              | None =>
                  '(nu, objects) ←
                    derez_members (derez fuel h) path (indexed elems)
                      (<[l := path]> objects);
                  Some (CArray (snd <$> nu), objects)
              end
          | Some (HObject props) =>
              match objects !! l with
              | Some oldPath => Some (ref_to oldPath, objects)
              | None =>
                  '(nu, objects) ←
                    derez_members (derez fuel h) path props
                      (<[l := path]> objects);
                  Some (CObject nu, objects)
              end
          | _ => Some (CValue value, objects)
          end
      end
  end.

(** [decycle(object)]: the recursion is never deeper than the number of
    objects of the heap, plus one. *)
Definition decycle (h : gmap positive hobject) (object : hvalue)
  : option clone :=
  fst <$> derez (S (size h)) h ∅ object "#".

(** The objects of the heap not recorded in [objects]: their number bounds
    the depth of the recursion. *)
Definition unseen (h : gmap positive hobject) (objects : gmap positive string)
  : gset positive :=
  dom h ∖ dom objects.

(** [rec] returns on every value, from any map extending [objects], and
    only extends the map. *)
Definition returns
  (rec : gmap positive string -> hvalue -> string
         -> option (clone * gmap positive string))
  (objects : gmap positive string) : Prop :=
  forall o1 v p, objects ⊆ o1 ->
    exists c o2, rec o1 v p = Some (c, o2) /\ o1 ⊆ o2.

(** *** The traversal as a relation

    [Decycled h seen v path c seen']: [derez] called on [v] and [path] with
    the map [seen] returns [c] and leaves the map [seen'].  The relation
    serves the proofs; the properties of the cycle breaker are stated on
    positions, below. *)
Inductive Decycled (h : gmap positive hobject)
  : gmap positive string -> hvalue -> string -> clone
    -> gmap positive string -> Prop :=
| Decycled_prim seen p path :
    Decycled h seen (HPrim p) path (CValue (HPrim p)) seen
| Decycled_builtin seen l kind path :
    h !! l = Some (HBuiltin kind) ->
    Decycled h seen (HRef l) path (CValue (HRef l)) seen
| Decycled_unknown seen l path :
    h !! l = None ->
    Decycled h seen (HRef l) path (CValue (HRef l)) seen
| Decycled_again seen l first path :
    (exists elems, h !! l = Some (HArray elems))
    \/ (exists props, h !! l = Some (HObject props)) ->
    seen !! l = Some first ->
    Decycled h seen (HRef l) path (ref_to first) seen
| Decycled_array seen l elems path nu seen' :
    h !! l = Some (HArray elems) ->
    seen !! l = None ->
    DecycledMembers h (<[l := path]> seen) path (indexed elems) nu seen' ->
    Decycled h seen (HRef l) path (CArray (snd <$> nu)) seen'
| Decycled_object seen l props path nu seen' :
    h !! l = Some (HObject props) ->
    seen !! l = None ->
    DecycledMembers h (<[l := path]> seen) path props nu seen' ->
    Decycled h seen (HRef l) path (CObject nu) seen'
with DecycledMembers (h : gmap positive hobject)
  : gmap positive string -> string -> list (string * hvalue)
    -> list (string * clone) -> gmap positive string -> Prop :=
| DecycledMembers_nil seen path :
    DecycledMembers h seen path [] [] seen
| DecycledMembers_cons seen path name element rest c cs seen1 seen2 :
    Decycled h seen element (path ++ "/" ++ name) c seen1 ->
    DecycledMembers h seen1 path rest cs seen2 ->
    DecycledMembers h seen path ((name, element) :: rest) ((name, c) :: cs) seen2.

(** The values [decycle] passes through: primitives, and references to
    anything but an array or a plain object. *)
Definition passed_through (h : gmap positive hobject) (v : hvalue) : Prop :=
  match v with
  | HPrim _ => True
  | HRef l =>
      match h !! l with
      | Some (HArray _) | Some (HObject _) => False
      | _ => True
      end
  end.

(** *** The cycle breaker in terms of positions

    A position is the list of the member indices taken from the root: the
    index of an element in its array, the rank of a property among the
    properties of its object. *)

(** The arrays and plain objects of the heap: the values [derez] copies. *)
Definition container (h : gmap positive hobject) (l : positive) : Prop :=
  match h !! l with
  | Some (HArray _) | Some (HObject _) => True
  | _ => False
  end.

(** The member of rank [i] with its name: an element under the decimal
    numeral of its index, a property under its key. *)
Definition nth_member (o : hobject) (i : nat) : option (string * hvalue) :=
  match o with
  | HArray elems => (fun e => (pretty i, e)) <$> elems !! i
  | HObject props => props !! i
  | HBuiltin _ => None
  end.

(** The value found at a position from [v], with the names of the members
    on the way. *)
Fixpoint walk (h : gmap positive hobject) (v : hvalue) (position : list nat)
  : option (list string * hvalue) :=
  match position with
  | [] => Some ([], v)
  | i :: rest =>
      match v with
      | HRef l =>
          o ← h !! l;
          '(name, w) ← nth_member o i;
          '(names, t) ← walk h w rest;
          Some (name :: names, t)
      | HPrim _ => None
      end
  end.

(** The same for a clone. *)
Definition clone_nth (c : clone) (i : nat) : option (string * clone) :=
  match c with
  | CArray elems => (fun e => (pretty i, e)) <$> elems !! i
  | CObject props => props !! i
  | CValue _ => None
  end.

Fixpoint clone_walk (c : clone) (position : list nat)
  : option (list string * clone) :=
  match position with
  | [] => Some ([], c)
  | i :: rest =>
      '(name, c1) ← clone_nth c i;
      '(names, t) ← clone_walk c1 rest;
      Some (name :: names, t)
  end.

(** [c] is the copy made of the array or object [o]: an array of the same
    length, or an object with the same property names in the same order. *)
Definition copy_of (o : hobject) (c : clone) : Prop :=
  match o, c with
  | HArray elems, CArray cs => length cs = length elems
  | HObject props, CObject nu => fst <$> nu = fst <$> props
  | _, _ => False
  end.

(** The order of the traversal: [p] comes before [q] when [p] lies on the
    way to [q], or branches off it towards a member of lower rank. *)
Fixpoint precedes (p q : list nat) : bool :=
  match p, q with
  | [], [] => false
  | [], _ :: _ => true
  | _ :: _, [] => false
  | i :: p', j :: q' => (i <? j)%nat || ((i =? j)%nat && precedes p' q')
  end.

(** The path of the member reached by [names] from the root:
    ["#" + "/" + name1 + "/" + name2 ...]. *)
Definition pointer (names : list string) : string :=
  fold_left (fun path name => path ++ "/" ++ name) names "#".

(** [Cloned h root first position v c]: [c] is what stands in the clone for
    the value [v] found at [position], where [first] gives, for each array
    and object, the position at which it is copied.  A value that is no
    array and no plain object stands for itself.  An array or object is, at
    its position in [first], an array of the clones of its elements or an
    object of the clones of its properties under the same names, and at any
    other position the object [{ $ref: path }], the position in [first]
    coming before and [path] spelling the names that lead to it from the
    root. *)
Inductive Cloned (h : gmap positive hobject) (root : hvalue)
  (first : gmap positive (list nat)) : list nat -> hvalue -> clone -> Prop :=
| Cloned_value position v :
    passed_through h v ->
    Cloned h root first position v (CValue v)
| Cloned_array position l elems cs :
    h !! l = Some (HArray elems) ->
    first !! l = Some position ->
    length cs = length elems ->
    (forall i e c, elems !! i = Some e -> cs !! i = Some c ->
       Cloned h root first (position ++ [i]) e c) ->
    Cloned h root first position (HRef l) (CArray cs)
| Cloned_object position l props nu :
    h !! l = Some (HObject props) ->
    first !! l = Some position ->
    fst <$> nu = fst <$> props ->
    (forall i name e name' c,
       props !! i = Some (name, e) -> nu !! i = Some (name', c) ->
       Cloned h root first (position ++ [i]) e c) ->
    Cloned h root first position (HRef l) (CObject nu)
| Cloned_ref position l earlier names :
    container h l ->
    first !! l = Some earlier ->
    precedes earlier position = true ->
    walk h root earlier = Some (names, HRef l) ->
    Cloned h root first position (HRef l)
      (CObject [("$ref", CValue (HPrim (PStr (pointer names))))]).

(** The path recorded for a position. *)
Definition path_at (h : gmap positive hobject) (root : hvalue)
  (position : list nat) : string :=
  match walk h root position with
  | Some (names, _) => pointer names
  | None => ""
  end.

(** *** JSON pointers

    The pointer of a list of names, in the form that begins with ["#"]: each
    name follows a ["/"], with ["~"] written ["~0"] and ["/"] written
    ["~1"].  (Characters that a URI fragment cannot hold as they are would
    be percent-encoded as well; the names considered below have none.) *)
Fixpoint escape (name : string) : string :=
  match name with
  | "" => ""
  | String c r =>
      (if Ascii.eqb c "~" then "~0"
       else if Ascii.eqb c "/" then "~1"
       else String c "") ++ escape r
  end.

Definition json_pointer (names : list string) : string :=
  fold_left (fun path name => path ++ "/" ++ escape name) names "#".

(** The characters a URI fragment holds as they are and a pointer does not
    escape: letters, digits and [-._!$&'()*+,;=:@?]. *)
Definition plain_name_char (c : ascii) : bool :=
  let n := code c in
  (((65 <=? n) && (n <=? 90)) || ((97 <=? n) && (n <=? 122))
   || ((48 <=? n) && (n <=? 57)))%nat
  || contains c "-._!$&'()*+,;=:@?".

Fixpoint plain_name (name : string) : bool :=
  match name with
  | "" => true
  | String c r => plain_name_char c && plain_name r
  end.

(** Every property name of the heap is plain. *)
Definition plain_names (h : gmap positive hobject) : Prop :=
  forall l props name v,
    h !! l = Some (HObject props) -> In (name, v) props ->
    plain_name name = true.

(** The property names of an object are distinct. *)
Definition distinct_names (h : gmap positive hobject) : Prop :=
  forall l props, h !! l = Some (HObject props) -> NoDup (fst <$> props).

(** Reading a pointer: the names between the slashes, unescaped. *)
Fixpoint unescape (token : string) : string :=
  match token with
  | "" => ""
  | String c r =>
      match r with
      | String d r' =>
          if Ascii.eqb c "~" && Ascii.eqb d "1" then String "/" (unescape r')
          else if Ascii.eqb c "~" && Ascii.eqb d "0" then String "~" (unescape r')
          else String c (unescape r)
      | "" => String c ""
      end
  end.

Definition reference_tokens (path : string) : option (list string) :=
  match path with
  | String "#" "" => Some []
  | String "#" (String "/" rest) => Some (unescape <$> split_on "/" rest)
  | _ => None
  end.

(** The member of a clone under a name. *)
Definition clone_member (c : clone) (name : string) : option clone :=
  match c with
  | CArray elems => assoc name (imap (fun i e => (pretty i, e)) elems)
  | CObject props => assoc name props
  | CValue _ => None
  end.

Fixpoint follow (c : clone) (names : list string) : option clone :=
  match names with
  | [] => Some c
  | name :: rest => c1 ← clone_member c name; follow c1 rest
  end.

(** What a pointer without percent-encoding designates in a clone. *)
Definition resolve_pointer (path : string) (c : clone) : option clone :=
  names ← reference_tokens path; follow c names.

(** Every leaf of the clone is a value passed through: the clone shares no
    array and no plain object with the input. *)
Fixpoint leaves_passed (h : gmap positive hobject) (c : clone) : Prop :=
  match c with
  | CValue v => passed_through h v
  | CArray elems =>
      (fix all (l : list clone) : Prop :=
         match l with
         | [] => True
         | c :: r => leaves_passed h c /\ all r
         end) elems
  | CObject props =>
      (fix all (l : list (string * clone)) : Prop :=
         match l with
         | [] => True
         | (_, c) :: r => leaves_passed h c /\ all r
         end) props
  end.

(** *** Sample graphs *)

(** [a = { self: a }] *)
Definition self_loop : gmap positive hobject :=
  {[ 1%positive := HObject [("self", HRef 1)] ]}.

(** [[x, x]] with [x = { n: 1 }] *)
Definition shared_pair : gmap positive hobject :=
  {[ 1%positive := HArray [HRef 2; HRef 2];
     2%positive := HObject [("n", HPrim (PNum 1))] ]}.

(** [{ "a/b": x, a: { b: [] }, again: x }] with [x = { n: 1 }] *)
Definition slashed : gmap positive hobject :=
  {[ 1%positive := HObject [("a/b", HRef 2); ("a", HRef 3); ("again", HRef 2)];
     2%positive := HObject [("n", HPrim (PNum 1))];
     3%positive := HObject [("b", HRef 4)];
     4%positive := HArray [] ]}.

(** A schema [Node] with [properties.children.items] pointing back at it,
    and a [Date] among its examples. *)
Definition node_schema : gmap positive hobject :=
  {[ 1%positive := HObject [("type", HPrim (PStr "object"));
                            ("properties", HRef 2);
                            ("examples", HRef 4)];
     2%positive := HObject [("children", HRef 3)];
     3%positive := HObject [("type", HPrim (PStr "array")); ("items", HRef 1)];
     4%positive := HArray [HRef 5; HRef 1];
     5%positive := HBuiltin BDate ]}.

(** ** Counting, for the properties of the router *)

(** The number of occurrences of the character [c] in [s]. *)
Fixpoint count_char (c : ascii) (s : string) : nat :=
  match s with
  | "" => 0
  | String d r => (if Ascii.eqb d c then 1 else 0) + count_char c r
  end.

(** The keys picked by [getOperations]: the HTTP methods of OpenAPI 3. *)
Definition http_methods : list string :=
  ["get"; "put"; "post"; "delete"; "options"; "head"; "patch"; "trace"].

(** ** Reading renamed objects and delimiters in query strings *)

(** The object [{ [f(k)]: v }] for each entry of [o], in order: what
    [_.mapKeys] assigns, one key after the other. *)
Definition renamed {A : Type} (f : string -> string) (o : list (string * A))
  : list (string * A) :=
  (fun '(k, v) => (f k, v)) <$> o.

(** Does [s] start with the character [c]? *)
Definition starts1 (c : ascii) (s : string) : bool :=
  match s with
  | String x _ => Ascii.eqb x c
  | "" => false
  end.

(** Does [s] start with the text [abc]? *)
Definition starts3 (a b c : ascii) (s : string) : bool :=
  match s with
  | String x (String y r) => Ascii.eqb x a && Ascii.eqb y b && starts1 c r
  | _ => false
  end.

(** Does the text [abc] occur in [s]? *)
Fixpoint occurs3 (a b c : ascii) (s : string) : bool :=
  match s with
  | "" => false
  | String _ r => starts3 a b c s || occurs3 a b c r
  end.

(** ** Validating a response *)

(** The tail shared by the three validation methods: [errors] is set to
    [null] when no error was pushed, and [valid] to [false] otherwise. *)
Definition validation_result (errs : list ValidationError) : ValidationResult :=
  match errs with
  | [] => {| valid := true; errors := None |}
  | _ => {| valid := false; errors := Some errs |}
  end.

(** The values of the enumeration [SetMatchType] of the dispatcher. *)
Definition SetMatchType_Any : string := "any".
Definition SetMatchType_values : list string :=
  ["any"; "superset"; "subset"; "exact"].

(** [if (statusCode)]: a status code that is given and is not [0]. *)
Definition given_status (statusCode : option Z) : option Z :=
  match statusCode with
  | Some code => if (code =? 0)%Z then None else Some code
  | None => None
  end.

Section ResponseValidator.

(** The validator: its router and the compiled response validators by
    [operationId].  The two status matchers of [utils] are parameters:
    [utils_findStatusCodeMatch code map] is the entry of [map] found for
    [code], and [utils_findDefaultStatusCodeMatch map] the field [res] of the
    default match; [None] stands for a falsy result. *)
Variable router : OpenAPIRouter.
Variable responseValidators : string -> option (jsval -> list ValidationError).
Variable statusBasedResponseValidators :
  string -> option (gmap string (jsval -> list ValidationError)).
Variable responseHeadersValidators :
  string -> option (gmap string (gmap string (jsval -> list ValidationError))).
Variable utils_findStatusCodeMatch : forall X : Type, Z -> gmap string X -> option X.
Variable utils_findDefaultStatusCodeMatch : forall X : Type, gmap string X -> option X.

(** [typeof operation === 'string' ? this.router.getOperation(operation) : operation],
    followed by the test [!op || !op.operationId]. *)
Definition response_operation (operation : OperationRef) : completion Operation :=
  let op :=
    match operation with
    | ByMatching => None
    | ById id => getOperation router id
    | Given op => Some op
    end in
  match op with
  | Some op =>
      match op_operationId op with
      | Some id => if String.eqb id "" then Throw "Unknown operation"
                   else Normal op
      | None => Throw "Unknown operation"
      end
  | None => Throw "Unknown operation"
  end.

(** [validateResponse(res, operation, statusCode)] *)
Definition validateResponse (res : jsval) (operation : OperationRef)
  (statusCode : option Z) : completion ValidationResult :=
  match response_operation operation with
  | Throw e => Throw e
  | Normal op =>
      let operationId := default "" (op_operationId op) in
      let validate :=
        match given_status statusCode with
        | Some code =>
            validateMap ← statusBasedResponseValidators operationId;
            utils_findStatusCodeMatch _ code validateMap
        | None => responseValidators operationId
        end in
      Normal (validation_result
                match validate with
                | Some validate => validate res
                | None => []
                end)
  end.

(** The set-match type in force: [Any] when none is given, an error when
    the one given is not a value of the enumeration. *)
Definition chosen_setMatchType (setMatchType : option string) : completion string :=
  match setMatchType with
  | None => Normal SetMatchType_Any
  | Some s =>
      if String.eqb s "" then Normal SetMatchType_Any
      else if bool_decide (s ∈ SetMatchType_values) then Normal s
      else Throw ("Unknown setMatchType " ++ s)
  end.

(** [validateResponseHeaders(headers, operation, opts)], with the two
    fields of [opts]. *)
Definition validateResponseHeaders (headers : list (string * jsval))
  (operation : OperationRef) (setMatchType : option string)
  (statusCode : option Z) : completion ValidationResult :=
  match response_operation operation with
  | Throw e => Throw e
  | Normal op =>
      match chosen_setMatchType setMatchType with
      | Throw e => Throw e
      | Normal setMatchType =>
          let operationId := default "" (op_operationId op) in
          let errs :=
            match responseHeadersValidators operationId with
            | Some validateMap =>
                let validateForStatus :=
                  match given_status statusCode with
                  | Some code => utils_findStatusCodeMatch _ code validateMap
                  | None => utils_findDefaultStatusCodeMatch _ validateMap
                  end in
                match validateForStatus with
                | Some validateForStatus =>
                    match validateForStatus !! setMatchType with
                    | Some validate =>
                        validate
                          (VObj [("headers",
                                  VObj (mapKeys toLowerCase headers))])
                    | None => []
                    end
                | None => []
                end
            | None => []
            end in
          Normal (validation_result errs)
      end
  end.

End ResponseValidator.

(** Stand-ins for the two status matchers: the exact key only, and the
    entry of [200] as the default. *)
Definition exact_status (X : Type) (code : Z) (map : gmap string X) : option X :=
  map !! pretty code.

Definition ok_status (X : Type) (map : gmap string X) : option X :=
  map !! "200".

(** A compiled validator that rejects everything. *)
Definition reject_all (parameters : jsval) : list ValidationError :=
  [{| ve_keyword := "false schema"; ve_dataPath := ""; ve_schemaPath := "#";
      ve_params := VObj []; ve_message := "boolean schema is false" |}].

(** ** Building the request validators *)

(** The contexts a schema engine is obtained for. *)
Module ValidationContext.
Inductive t : Type :=
| RequestBody
| Params
| Response
| ResponseHeaders.
End ValidationContext.

(** [v[k]] for a truthy value [v]: a value that is not an object has no
    such property. *)
Definition member (k : string) (v : jsval) : jsval :=
  match v with
  | VObj props => get k props
  | _ => VUndefined
  end.

(** [_.uniq(l)]: the first occurrence of each element, in order. *)
Definition uniq (l : list string) : list string :=
  fold_left
    (fun seen x => if bool_decide (x ∈ seen) then seen else seen ++ [x])%list
    l [].

(** One of the four objects under [paramsSchema.properties]: its
    [properties] and its [required]. *)
Record ParamsTarget : Type := mkParamsTarget {
  pt_properties : list (string * jsval);
  pt_required : list string
}.

(** The part of [paramsSchema] that the loop over the parameters changes:
    the objects for [path], [query], [header] and [cookie], and the
    [required] of the schema. *)
Record ParamsSchema : Type := mkParamsSchema {
  ps_path : ParamsTarget;
  ps_query : ParamsTarget;
  ps_header : ParamsTarget;
  ps_cookie : ParamsTarget;
  ps_required : list string
}.

Definition empty_target : ParamsTarget :=
  {| pt_properties := []; pt_required := [] |}.

(** [paramsSchema] before the loop. *)
Definition initial_paramsSchema : ParamsSchema :=
  {| ps_path := empty_target; ps_query := empty_target;
     ps_header := empty_target; ps_cookie := empty_target;
     ps_required := [] |}.

(** [paramsSchema.properties[location]]: [None] for a location that is not
    one of the four. *)
Definition target (s : ParamsSchema) (location : string) : option ParamsTarget :=
  if String.eqb location "path" then Some (ps_path s)
  else if String.eqb location "query" then Some (ps_query s)
  else if String.eqb location "header" then Some (ps_header s)
  else if String.eqb location "cookie" then Some (ps_cookie s)
  else None.

(** The schema with the object of [location] replaced. *)
Definition set_target (s : ParamsSchema) (location : string) (t : ParamsTarget)
  : ParamsSchema :=
  {| ps_path := if String.eqb location "path" then t else ps_path s;
     ps_query := if String.eqb location "query" then t else ps_query s;
     ps_header := if String.eqb location "header" then t else ps_header s;
     ps_cookie := if String.eqb location "cookie" then t else ps_cookie s;
     ps_required := ps_required s |}.

(** [param.in === 'header' ? param.name.toLowerCase() : param.name] *)
Definition normalizedParamName (param : ParameterObject) : string :=
  if String.eqb (param_in param) "header" then toLowerCase (param_name param)
  else param_name param.

(** The schema stored for a parameter: that of its [application/json]
    content when it has one, its [schema] otherwise. *)
Definition parameter_schema (param : ParameterObject) : jsval :=
  if has_json_content param then
    member "schema" (get "application/json" (default [] (param_content param)))
  else default VUndefined (param_schema param).

(** The body of the loop [parameters.map((parameter) => ...)].  [None]
    stands for a parameter whose [in] is not one of the four locations of
    OpenAPI 3, where [target] is not an object of the schema. *)
Definition add_parameter (s : ParamsSchema) (param : ParameterObject)
  : option ParamsSchema :=
  t ← target s (param_in param);
  let name := normalizedParamName param in
  let required :=
    if param_required param then uniq (pt_required t ++ [name])
    else pt_required t in
  let top :=
    if param_required param then uniq (ps_required s ++ [param_in param])
    else ps_required s in
  let t' :=
    {| pt_properties := assign name (parameter_schema param) (pt_properties t);
       pt_required := required |} in
  Some (set_target
          {| ps_path := ps_path s; ps_query := ps_query s;
             ps_header := ps_header s; ps_cookie := ps_cookie s;
             ps_required := top |}
          (param_in param) t').

Fixpoint add_parameters (s : ParamsSchema) (parameters : list ParameterObject)
  : option ParamsSchema :=
  match parameters with
  | [] => Some s
  | param :: rest => s' ← add_parameter s param; add_parameters s' rest
  end.

(** [paramsSchema] after the loop over the parameters of an operation. *)
Definition paramsSchema (parameters : list ParameterObject) : option ParamsSchema :=
  add_parameters initial_paramsSchema parameters.

(** The parameters that feed the object of a location under a name. *)
Definition feeds (location name : string) (p : ParameterObject) : Prop :=
  param_in p = location /\ normalizedParamName p = name.

(** The object literal of one location, with its keys in the order of the
    source. *)
Definition target_json (location : string) (t : ParamsTarget) : jsval :=
  let properties := ("properties", VObj (pt_properties t)) in
  let required := ("required", VArr (VStr <$> pt_required t)) in
  if String.eqb location "path" then
    VObj [("type", VStr "object"); ("additionalProperties", VBool false);
          properties; required]
  else if String.eqb location "query" then
    VObj [("type", VStr "object"); properties;
          ("additionalProperties", VBool false); required]
  else
    VObj [("type", VStr "object"); ("additionalProperties", VBool true);
          properties; required].

(** [paramsSchema] as the value given to the schema engine. *)
Definition paramsSchema_json (s : ParamsSchema) : jsval :=
  VObj [("title", VStr "Request"); ("type", VStr "object");
        ("additionalProperties", VBool true);
        ("properties",
          VObj [("path", target_json "path" (ps_path s));
                ("query", target_json "query" (ps_query s));
                ("header", target_json "header" (ps_header s));
                ("cookie", target_json "cookie" (ps_cookie s))]);
        ("required", VArr (VStr <$> ps_required s))].

(** [requestBodySchema], with the schema of the JSON body; [only_json]
    tells whether [application/json] is the only format of the body. *)
Definition requestBodySchema (schema : jsval) (only_json : bool) : jsval :=
  VObj [("title", VStr "Request"); ("type", VStr "object");
        ("additionalProperties", VBool true);
        ("properties", VObj [("requestBody", schema)]);
        ("required", VArr (if only_json then [VStr "requestBody"] else []))].

Section Builder.

(** [compileSchema context coerceTypes schema]: the validator compiled
    from [schema] by the engine that [getAjv] returns for [context], with
    the option [coerceTypes] when it is set. *)
Variable compileSchema :
  ValidationContext.t -> bool -> jsval -> jsval -> list ValidationError.

(** The validator of the request body, when the operation declares a JSON
    body with a schema. *)
Definition requestBodyValidators (operation : Operation)
  : list (jsval -> list ValidationError) :=
  match op_requestBody operation with
  | Some requestBody =>
      let jsonbody := get "application/json" (rb_content requestBody) in
      if truthy jsonbody && truthy (member "schema" jsonbody) then
        [compileSchema ValidationContext.RequestBody false
           (requestBodySchema (member "schema" jsonbody)
              (length (rb_content requestBody) =? 1)%nat)]
      else []
  | None => []
  end.

(** The validators of an operation: the one of the body, if any, then the
    one of the parameters. *)
Definition requestValidatorsFor (operation : Operation)
  : option (list (jsval -> list ValidationError)) :=
  s ← paramsSchema (op_parameters operation);
  Some (requestBodyValidators operation
        ++ [compileSchema ValidationContext.Params true (paramsSchema_json s)])%list.

(** [buildRequestValidatorsForOperation(operation)], on the registry
    [this.requestValidators]. *)
Definition buildRequestValidatorsForOperation (operation : Operation)
  (requestValidators : gmap string (list (jsval -> list ValidationError)))
  : option (gmap string (list (jsval -> list ValidationError))) :=
  match op_operationId operation with
  | None => Some requestValidators
  | Some operationId =>
      if String.eqb operationId "" then Some requestValidators
      else
        validators ← requestValidatorsFor operation;
        Some (<[operationId := validators]> requestValidators)
  end.

(** [operations.map(this.buildRequestValidatorsForOperation.bind(this))] *)
Fixpoint buildRequestValidators (operations : list Operation)
  (requestValidators : gmap string (list (jsval -> list ValidationError)))
  : option (gmap string (list (jsval -> list ValidationError))) :=
  match operations with
  | [] => Some requestValidators
  | operation :: rest =>
      registry ← buildRequestValidatorsForOperation operation requestValidators;
      buildRequestValidators rest registry
  end.

(** The registry of request validators set up by the constructor of the
    validator for the operations of its router. *)
Definition newRequestValidators (router : OpenAPIRouter)
  : option (gmap string (list (jsval -> list ValidationError))) :=
  buildRequestValidators (getOperations router) ∅.

End Builder.

(** A stand-in for the schema engine: every compiled validator accepts. *)
Definition compile_accepting (context : ValidationContext.t) (coerceTypes : bool)
  (schema : jsval) : jsval -> list ValidationError :=
  accept_all.

(** A header parameter, required. *)
Definition apiKey : ParameterObject :=
  {| param_name := "X-Api-Key"; param_in := "header"; param_required := true;
     param_style := None; param_explode := None; param_content := None;
     param_schema := Some (VObj [("type", VStr "string")]) |}.


(** ** The formats of the schema engine *)

(** A number as the formats receive it: a double.  [Finite m e] is the
    number [m * 2^e]; it is a double when [double m e] holds.  The two
    zeros compare alike and are not told apart. *)
Inductive number : Type :=
| NaN
| Infinity (negative : bool)
| Finite (m e : Z).

(** The pairs of a significand of at most 53 bits and an exponent in the
    range of the doubles. *)
Definition double (m e : Z) : bool :=
  ((Z.abs m <? 2 ^ 53) && (-1074 <=? e) && (e <=? 971))%Z.

(** [-x] *)
Definition negate (x : number) : number :=
  match x with
  | NaN => NaN
  | Infinity negative => Infinity (negb negative)
  | Finite m e => Finite (- m) e
  end.

(** [x < y] and [x <= y]: false when an operand is [NaN]; two finite
    numbers are compared as they are, brought to their lower exponent. *)
Definition number_lt (x y : number) : bool :=
  match x, y with
  | NaN, _ | _, NaN => false
  | Infinity true, Infinity true => false
  | Infinity true, _ => true
  | Infinity false, _ => false
  | Finite _ _, Infinity negative => negb negative
  | Finite m1 e1, Finite m2 e2 =>
      let e := Z.min e1 e2 in
      (m1 * 2 ^ (e1 - e) <? m2 * 2 ^ (e2 - e))%Z
  end.

Definition number_le (x y : number) : bool :=
  match x, y with
  | NaN, _ | _, NaN => false
  | Infinity true, _ => true
  | Infinity false, Infinity false => true
  | Infinity false, _ => false
  | Finite _ _, Infinity negative => negb negative
  | Finite m1 e1, Finite m2 e2 =>
      let e := Z.min e1 e2 in
      (m1 * 2 ^ (e1 - e) <=? m2 * 2 ^ (e2 - e))%Z
  end.

(** [Math.pow(2, e)] for an integer [e]: the power where it is a double,
    [Infinity] above the doubles, and [0] under [2^-1074], the least double
    above [0]. *)
Definition pow2 (e : Z) : number :=
  if (1023 <? e)%Z then Infinity false
  else if (e <? -1074)%Z then Finite 0 0
  else Finite 1 e.

(** [getBitRangeValidator(bits)], for an integer number of bits:
    [value >= -max && value < max] with [max = Math.pow(2, bits - 1)]. *)
Definition getBitRangeValidator (bits : Z) (value : number) : bool :=
  let max := pow2 (bits - 1) in
  number_le (negate max) value && number_lt value max.

(** A regular expression given as a literal of the source: its syntax
    tree.  [PClass] is a character class or a single character. *)
Inductive pattern : Type :=
| PNone
| PEmpty
| PClass (p : ascii -> bool)
| PSeq (r1 r2 : pattern)
| PAlt (r1 r2 : pattern)
| PStar (r : pattern).

(** [r{n}] *)
Fixpoint PRep (n : nat) (r : pattern) : pattern :=
  match n with
  | O => PEmpty
  | S n => PSeq r (PRep n r)
  end.

(** [r?] *)
Definition POpt (r : pattern) : pattern := PAlt r PEmpty.

(** A single character. *)
Definition PChar (c : ascii) : pattern := PClass (Ascii.eqb c).

(** Does [r] match the empty text? *)
Fixpoint nullable (r : pattern) : bool :=
  match r with
  | PNone => false
  | PEmpty => true
  | PClass _ => false
  | PSeq r1 r2 => nullable r1 && nullable r2
  | PAlt r1 r2 => nullable r1 || nullable r2
  | PStar _ => true
  end.

(** What is left of [r] once the character [c] is read. *)
Fixpoint derivative (c : ascii) (r : pattern) : pattern :=
  match r with
  | PNone => PNone
  | PEmpty => PNone
  | PClass p => if p c then PEmpty else PNone
  | PSeq r1 r2 =>
      if nullable r1
      then PAlt (PSeq (derivative c r1) r2) (derivative c r2)
      else PSeq (derivative c r1) r2
  | PAlt r1 r2 => PAlt (derivative c r1) (derivative c r2)
  | PStar r => PSeq (derivative c r) (PStar r)
  end.

Fixpoint accepts (r : pattern) (s : list ascii) : bool :=
  match s with
  | [] => nullable r
  | c :: s => accepts (derivative c r) s
  end.

(** [/^r$/.test(s)]: the whole of [s] matches [r]. *)
Definition pattern_test (r : pattern) (s : string) : bool :=
  accepts r (list_ascii_of_string s).

(** [[A-Za-z0-9+/]] *)
Definition base64_char (c : ascii) : bool :=
  let n := code c in
  (((65 <=? n) && (n <=? 90)) || ((97 <=? n) && (n <=? 122))
   || ((48 <=? n) && (n <=? 57)) || (n =? 43) || (n =? 47))%nat.

(** The expression of the format [byte]:
    [/^(?:[A-Za-z0-9+/]{4})*(?:[A-Za-z0-9+/]{2}==|[A-Za-z0-9+/]{3}=)?$/] *)
Definition byte_pattern : pattern :=
  PSeq (PStar (PRep 4 (PClass base64_char)))
    (POpt (PAlt (PSeq (PRep 2 (PClass base64_char))
                   (PSeq (PChar "=") (PChar "=")))
              (PSeq (PRep 3 (PClass base64_char)) (PChar "=")))).

(** A format of the schema engine: the type of the values it applies to,
    and its test. *)
Inductive Format : Type :=
| NumberFormat (validate : number -> bool)
| StringFormat (validate : string -> bool).

(** [defaultFormats]: the formats defined by OpenAPI. *)
Definition defaultFormats : list (string * Format) :=
  [("int32", NumberFormat (getBitRangeValidator 32));
   ("int64", NumberFormat (getBitRangeValidator 64));
   ("float", NumberFormat (fun _ => true));
   ("double", NumberFormat (fun _ => true));
   ("byte", StringFormat (pattern_test byte_pattern));
   ("binary", StringFormat (fun _ => true));
   ("password", StringFormat (fun _ => true))].

(** The texts a pattern denotes. *)
Inductive Matches : pattern -> list ascii -> Prop :=
| MEmpty : Matches PEmpty []
| MClass p c : p c = true -> Matches (PClass p) [c]
| MSeq r1 r2 s1 s2 :
    Matches r1 s1 -> Matches r2 s2 -> Matches (PSeq r1 r2) (s1 ++ s2)
| MAltL r1 r2 s : Matches r1 s -> Matches (PAlt r1 r2) s
| MAltR r1 r2 s : Matches r2 s -> Matches (PAlt r1 r2) s
| MStarNil r : Matches (PStar r) []
| MStarApp r s1 s2 :
    Matches r s1 -> Matches (PStar r) s2 -> Matches (PStar r) (s1 ++ s2).

(** ** Building the response validators *)

(** A header object of a response: its [schema]. *)
Record HeaderObject : Type := mkHeader {
  header_schema : option jsval
}.

(** A response object: its [content] by media type and its [headers]. *)
Record ResponseObject : Type := mkResponse {
  resp_content : option (list (string * jsval));
  resp_headers : option (list (string * HeaderObject))
}.

(** [operation.responses], which the record [Operation] above does not
    carry: the responses by status, in the enumeration order of the
    object. *)
Definition Responses : Type := list (string * ResponseObject).

(** The schema of the JSON content of a response, when the chain
    [response.content && response.content['application/json'] &&
    response.content['application/json'].schema] is truthy. *)
Definition response_schema (response : ResponseObject) : option jsval :=
  match resp_content response with
  | Some content =>
      let media := get "application/json" content in
      if truthy media && truthy (member "schema" media)
      then Some (member "schema" media) else None
  | None => None
  end.

(** [operation.operationId] when it is truthy. *)
Definition truthy_operationId (operation : Operation) : option string :=
  match op_operationId operation with
  | Some id => if String.eqb id "" then None else Some id
  | None => None
  end.

(** The loop over the headers of a response: the names in lower case of
    the headers that have a schema, with their schemas, and the same names
    in the order met. *)
Definition header_properties (headers : list (string * HeaderObject))
  : list (string * jsval) * list string :=
  fold_left
    (fun '(properties, required) '(headerName, header) =>
       match header_schema header with
       | Some schema =>
           if truthy schema then
             (assign (toLowerCase headerName) schema properties,
              required ++ [toLowerCase headerName])%list
           else (properties, required)
       | None => (properties, required)
       end)
    headers ([], []).

(** The schema compiled for the headers of a response. *)
Definition headersSchema (additionalProperties : bool)
  (properties : list (string * jsval)) (required : list string) : jsval :=
  VObj [("type", VStr "object");
        ("properties",
          VObj [("headers",
                 VObj [("type", VStr "object");
                       ("additionalProperties", VBool additionalProperties);
                       ("properties", VObj properties);
                       ("required", VArr (VStr <$> required))])])].

Section ResponseBuilder.

Variable compileSchema :
  ValidationContext.t -> bool -> jsval -> jsval -> list ValidationError.

(** [buildResponseValidatorForOperation(operation)], on the registry
    [this.responseValidators]. *)
Definition buildResponseValidatorForOperation (operation : Operation)
  (responses : option Responses)
  (responseValidators : gmap string (jsval -> list ValidationError))
  : gmap string (jsval -> list ValidationError) :=
  match truthy_operationId operation, responses with
  | Some operationId, Some responses =>
      match omap (fun '(status, response) => response_schema response) responses with
      | [] => responseValidators
      | responseSchemas =>
          <[operationId :=
              compileSchema ValidationContext.Response false
                (VObj [("oneOf", VArr responseSchemas)])]> responseValidators
      end
  | _, _ => responseValidators
  end.

(** The loop of [buildStatusBasedResponseValidatorForOperation] over the
    responses: a validator under each status whose response has a JSON
    schema. *)
Definition statusValidators (responses : Responses)
  (validators : gmap string (jsval -> list ValidationError))
  : gmap string (jsval -> list ValidationError) :=
  fold_left
    (fun validators '(status, response) =>
       match response_schema response with
       | Some schema =>
           <[status := compileSchema ValidationContext.Response false schema]>
             validators
       | None => validators
       end)
    responses validators.

(** [buildStatusBasedResponseValidatorForOperation(operation)], on the
    registry [this.statusBasedResponseValidators]. *)
Definition buildStatusBasedResponseValidatorForOperation (operation : Operation)
  (responses : option Responses)
  (statusBasedResponseValidators :
     gmap string (gmap string (jsval -> list ValidationError)))
  : gmap string (gmap string (jsval -> list ValidationError)) :=
  match truthy_operationId operation, responses with
  | Some operationId, Some responses =>
      <[operationId := statusValidators responses ∅]>
        statusBasedResponseValidators
  | _, _ => statusBasedResponseValidators
  end.

End ResponseBuilder.

Section ResponseHeadersBuilder.

(** The schema of the headers is put together by the builder, and the
    engine checks a schema before it compiles it: here [compileSchema]
    returns the validator or throws. *)
Variable compileSchema :
  ValidationContext.t -> bool -> jsval
  -> completion (jsval -> list ValidationError).

(** The four validators of the headers of one response, by set-match
    type, compiled in the order [any], [superset], [subset], [exact]. *)
Definition headerValidatorsFor (response : ResponseObject)
  : completion (gmap string (jsval -> list ValidationError)) :=
  let '(properties, required) := header_properties (or_empty (resp_headers response)) in
  let compile additionalProperties required :=
    compileSchema ValidationContext.ResponseHeaders true
      (headersSchema additionalProperties properties required) in
  match compile true [] with
  | Throw e => Throw e
  | Normal any =>
      match compile true required with
      | Throw e => Throw e
      | Normal superset =>
          match compile false [] with
          | Throw e => Throw e
          | Normal subset =>
              match compile false required with
              | Throw e => Throw e
              | Normal exact =>
                  Normal (<["exact" := exact]>
                            (<["subset" := subset]>
                               (<["superset" := superset]>
                                  (<["any" := any]> ∅))))
              end
          end
      end
  end.

(** The loop of [buildResponseHeadersValidatorForOperation] over the
    responses. *)
Fixpoint headerValidators (responses : Responses)
  (validators : gmap string (gmap string (jsval -> list ValidationError)))
  : completion (gmap string (gmap string (jsval -> list ValidationError))) :=
  match responses with
  | [] => Normal validators
  | (status, response) :: rest =>
      match headerValidatorsFor response with
      | Throw e => Throw e
      | Normal validateFns =>
          headerValidators rest (<[status := validateFns]> validators)
      end
  end.

(** [buildResponseHeadersValidatorForOperation(operation)], on the
    registry [this.responseHeadersValidators]. *)
Definition buildResponseHeadersValidatorForOperation (operation : Operation)
  (responses : option Responses)
  (responseHeadersValidators :
     gmap string (gmap string (gmap string (jsval -> list ValidationError))))
  : completion
      (gmap string (gmap string (gmap string (jsval -> list ValidationError)))) :=
  match truthy_operationId operation, responses with
  | Some operationId, Some responses =>
      match headerValidators responses ∅ with
      | Throw e => Throw e
      | Normal validators =>
          Normal (<[operationId := validators]> responseHeadersValidators)
      end
  | _, _ => Normal responseHeadersValidators
  end.

End ResponseHeadersBuilder.


(** A response with a JSON schema and two headers. *)
Definition pet_response : ResponseObject :=
  {| resp_content :=
       Some [("application/json",
              VObj [("schema", VObj [("type", VStr "object")])])];
     resp_headers :=
       Some [("X-Rate-Limit",
              {| header_schema := Some (VObj [("type", VStr "integer")]) |});
             ("X-Note", {| header_schema := None |})] |}.

(** A response without content. *)
Definition empty_response : ResponseObject :=
  {| resp_content := None; resp_headers := None |}.

(** The headers of a response that have a schema. *)
Definition with_schema (header : string * HeaderObject) : bool :=
  match header_schema (snd header) with
  | Some schema => truthy schema
  | None => false
  end.

(** A stand-in for the schema engine on the schemas of headers: it refuses
    a list [required] that names a header twice, and the validator it
    compiles reports each required header that the value lacks. *)
Definition compile_required (context : ValidationContext.t) (coerceTypes : bool)
  (schema : jsval) : completion (jsval -> list ValidationError) :=
  match member "required" (member "headers" (member "properties" schema)) with
  | VArr names =>
      if bool_decide
           (NoDup (omap (fun name => match name with
                                     | VStr s => Some s
                                     | _ => None
                                     end) names)) then
        Normal (fun value =>
          flat_map
            (fun name =>
               match name with
               | VStr name =>
                   match member name (member "headers" value) with
                   | VUndefined => [parse_error name]
                   | _ => []
                   end
               | _ => []
               end)
            names)
      else Throw "schema is invalid: required should NOT have duplicate items"
  | _ => Normal accept_all
  end.

(** A response whose headers name one header twice, up to letter case. *)
Definition twice_response : ResponseObject :=
  {| resp_content := None;
     resp_headers :=
       Some [("X-Rate-Limit",
              {| header_schema := Some (VObj [("type", VStr "integer")]) |});
             ("x-rate-limit",
              {| header_schema := Some (VObj [("type", VStr "integer")]) |})] |}.

(** ** References between schemas

    The methods that key the [$ref]s of a schema for the schema engine.
    The store [$refs] of the parser is a parameter: [refs_get path] is
    [this.$refs.get(path)], the schema found under the path, named by its
    identity; [refs_keys] lists the keys of [this.$refs.values()].  A schema
    is taken to be a tree: no object of it occurs twice. *)

(** [s.substring(n)] *)
Fixpoint substring_from (n : nat) (s : string) : string :=
  match n, s with
  | O, _ => s
  | S n, String _ r => substring_from n r
  | S _, "" => ""
  end.

(** [getRefUri(ref)]: [ref.substring(0, ref.indexOf('#'))], which is empty
    when [ref] has no ["#"]. *)
Definition getRefUri (ref : string) : string :=
  if contains "#" ref then before "#" ref else "".

Section RefSchemas.

Variable refs_get : string -> completion positive.
Variable refs_keys : list string.

(** The loop [for (let key in this.$refs.values())] of [getRefSchemaKey]. *)
Fixpoint find_schema_key (schema : positive) (keys : list string)
  : completion (option string) :=
  match keys with
  | [] => Normal None
  | key :: rest =>
      match refs_get key with
      | Throw e => Throw e
      | Normal found =>
          if Pos.eqb schema found then Normal (Some key)
          else find_schema_key schema rest
      end
  end.

(** [getRefSchemaKey(ref, parentUri)] *)
Definition getRefSchemaKey (ref parentUri : string) : completion string :=
  let uri := getRefUri ref in
  let uri := if String.eqb uri "" then parentUri else uri in
  match refs_get uri with
  | Throw e => Throw e
  | Normal schema =>
      match find_schema_key schema refs_keys with
      | Throw e => Throw e
      | Normal (Some key) => Normal key
      | Normal None =>
          Throw ("$ref path not found for: " ++ ref ++ " (parentUri: '"
                 ++ parentUri ++ "')")
      end
  end.

(** The new value of a property [$ref] in [replaceUris].  A value that is
    not a string makes [ref.substring(0, ref.indexOf('#'))] a [TypeError]:
    [null] and [undefined] have no property; an array has [indexOf] and no
    [substring]; any other value has no [indexOf], which is called first. *)
Definition rekey_ref (value : jsval) (parentUri : string) : completion jsval :=
  match value with
  | VStr ref =>
      match getRefSchemaKey ref parentUri with
      | Throw e => Throw e
      | Normal refSchemaKey =>
          Normal (VStr (refSchemaKey
                        ++ substring_from (String.length (getRefUri ref)) ref))
      end
  | VNull =>
      Throw "TypeError: Cannot read properties of null (reading 'substring')"
  | VUndefined =>
      Throw "TypeError: Cannot read properties of undefined (reading 'substring')"
  | VArr _ => Throw "TypeError: ref.substring is not a function"
  | VBool _ | VNum _ | VObj _ => Throw "TypeError: ref.indexOf is not a function"
  end.

(** [replaceUris(node, parentUri)]: the node after the call. *)
Fixpoint replaceUris (node : jsval) (parentUri : string) {struct node}
  : completion jsval :=
  match node with
  | VObj props =>
      match
        (fix entries (props : list (string * jsval))
           : completion (list (string * jsval)) :=
           match props with
           | [] => Normal []
           | (key, value) :: rest =>
               match (if String.eqb key "$ref" then rekey_ref value parentUri
                      else replaceUris value parentUri) with
               | Throw e => Throw e
               | Normal value' =>
                   match entries rest with
                   | Throw e => Throw e
                   | Normal rest' => Normal ((key, value') :: rest')
                   end
               end
           end) props
      with
      | Throw e => Throw e
      | Normal props' => Normal (VObj props')
      end
  | VArr elems =>
      match
        (fix elements (elems : list jsval) : completion (list jsval) :=
           match elems with
           | [] => Normal []
           | value :: rest =>
               match replaceUris value parentUri with
               | Throw e => Throw e
               | Normal value' =>
                   match elements rest with
                   | Throw e => Throw e
                   | Normal rest' => Normal (value' :: rest')
                   end
               end
           end) elems
      with
      | Throw e => Throw e
      | Normal elems' => Normal (VArr elems')
      end
  | _ => Normal node
  end.

End RefSchemas.

(** A value with the values of its properties [$ref] blanked. *)
Fixpoint skeleton (v : jsval) : jsval :=
  match v with
  | VObj props =>
      VObj ((fix entries (props : list (string * jsval)) :=
               match props with
               | [] => []
               | (key, value) :: rest =>
                   (key, if String.eqb key "$ref" then VNull else skeleton value)
                   :: entries rest
               end) props)
  | VArr elems =>
      VArr ((fix elements (elems : list jsval) :=
               match elems with
               | [] => []
               | value :: rest => skeleton value :: elements rest
               end) elems)
  | _ => v
  end.

(** The values of the properties [$ref] of a value, in the order of the
    traversal. *)
Fixpoint ref_values (v : jsval) : list jsval :=
  match v with
  | VObj props =>
      (fix entries (props : list (string * jsval)) :=
         match props with
         | [] => []
         | (key, value) :: rest =>
             ((if String.eqb key "$ref" then [value] else ref_values value)
              ++ entries rest)%list
         end) props
  | VArr elems =>
      (fix elements (elems : list jsval) :=
         match elems with
         | [] => []
         | value :: rest => (ref_values value ++ elements rest)%list
         end) elems
  | _ => []
  end.

(** What a successful [rekey_ref] writes for the old value of a [$ref]: a
    key of the store that names the schema the reference pointed into,
    followed by the fragment of the reference, its text from the first
    ["#"] on, or by the whole reference when it has no ["#"]. *)
Definition rekeyed (refs_get : string -> completion positive)
  (refs_keys : list string) (parentUri : string) (old new : jsval) : Prop :=
  exists ref key,
    old = VStr ref
    /\ new = VStr (key ++ match after "#" ref with
                          | Some fragment => String "#" fragment
                          | None => ref
                          end)
    /\ In key refs_keys
    /\ refs_get key
       = refs_get (if contains "#" ref && negb (String.eqb (before "#" ref) "")
                   then before "#" ref else parentUri).

(** A store of two schema files. *)
Definition two_files (path : string) : completion positive :=
  if String.eqb path "api.yaml" then Normal 1%positive
  else if String.eqb path "/spec/api.yaml" then Normal 1%positive
  else if String.eqb path "/spec/pet.yaml" then Normal 2%positive
  else if String.eqb path "pet.yaml" then Normal 2%positive
  else Throw "Error resolving $ref pointer".

(** * Properties *)

(** ** String primitives *)

Section strip.
Variable p : ascii -> bool.

Lemma strip_leading_fixed (s : string) :
  match s with "" => True | String c _ => p c = false end ->
  strip_leading p s = s.
Proof. destruct s as [|c r]; simpl; [done|]. by intros ->. Qed.

Lemma strip_leading_head (s : string) :
  match strip_leading p s with "" => True | String c _ => p c = false end.
Proof.
  induction s as [|c r IH]; simpl; [done|].
  destruct (p c) eqn:E; [done|]. by simpl.
Qed.

Lemma strip_leading_idem (s : string) :
  strip_leading p (strip_leading p s) = strip_leading p s.
Proof. apply strip_leading_fixed, strip_leading_head. Qed.

Lemma strip_leading_length (s : string) :
  (String.length (strip_leading p s) <= String.length s)%nat.
Proof. induction s as [|c r IH]; simpl; [lia|]. destruct (p c); simpl; lia. Qed.

Lemma strip_trailing_fixed (s : string) :
  ends_with p s = false -> strip_trailing p s = s.
Proof.
  induction s as [|c r IH]; simpl; [done|].
  destruct r as [|d r'].
  - simpl. by intros ->.
  - intros H. rewrite (IH H). done.
Qed.

Lemma strip_trailing_ends (s : string) :
  ends_with p (strip_trailing p s) = false.
Proof.
  induction s as [|c r IH]; simpl; [done|].
  destruct (strip_trailing p r) as [|d r'] eqn:E.
  - destruct (p c) eqn:Ec; simpl; done.
  - simpl in *. done.
Qed.

Lemma strip_trailing_idem (s : string) :
  strip_trailing p (strip_trailing p s) = strip_trailing p s.
Proof. apply strip_trailing_fixed, strip_trailing_ends. Qed.

Lemma strip_trailing_length (s : string) :
  (String.length (strip_trailing p s) <= String.length s)%nat.
Proof.
  induction s as [|c r IH]; simpl; [lia|].
  destruct (strip_trailing p r); [destruct (p c)|]; simpl in *; lia.
Qed.

Lemma strip_trailing_shorter (s : string) :
  ends_with p s = true ->
  (String.length (strip_trailing p s) < String.length s)%nat.
Proof.
  induction s as [|c r IH]; simpl; [done|].
  destruct r as [|d r'].
  - simpl. intros ->. simpl. lia.
  - intros H. specialize (IH H).
    destruct (strip_trailing p (String d r')); [destruct (p c)|]; simpl in *; lia.
Qed.

(** The first character of a stripped string is the first character of the
    string, unless everything is stripped. *)
Lemma strip_trailing_head (c : ascii) (r : string) :
  p c = false -> exists r', strip_trailing p (String c r) = String c r'.
Proof.
  intros Hc. simpl. destruct (strip_trailing p r); [rewrite Hc|]; eauto.
Qed.

Lemma strip_trailing_cons (c : ascii) (r : string) :
  strip_trailing p (String c r) = ""
  \/ exists r', strip_trailing p (String c r) = String c r'
               /\ (String.length r' <= String.length r)%nat.
Proof.
  simpl. pose proof (strip_trailing_length r) as L.
  destruct (strip_trailing p r) as [|d r'] eqn:E.
  - destruct (p c); [by left|]. right. eexists. split; [done|]. simpl; lia.
  - right. eexists. split; [done|]. done.
Qed.

End strip.

Lemma ends_with_strip_leading (p q : ascii -> bool) (s : string) :
  strip_leading q s = "" \/ ends_with p (strip_leading q s) = ends_with p s.
Proof.
  induction s as [|c r IH]; simpl; [by left|].
  destruct (q c) eqn:E; [|by right].
  destruct r as [|d r']; [by left|].
  destruct IH as [IH|IH]; [by left|]. by right.
Qed.

Lemma before_no_char (c : ascii) (s : string) : contains c (before c s) = false.
Proof.
  induction s as [|d r IH]; simpl; [done|].
  destruct (Ascii.eqb d c) eqn:E; simpl; [done|]. by rewrite E.
Qed.

Lemma before_fixed (c : ascii) (s : string) :
  contains c s = false -> before c s = s.
Proof.
  induction s as [|d r IH]; simpl; [done|].
  destruct (Ascii.eqb d c); simpl; [done|]. intros H. by rewrite IH.
Qed.

Lemma before_length (c : ascii) (s : string) :
  (String.length (before c s) <= String.length s)%nat.
Proof. induction s as [|d r IH]; simpl; [lia|]. destruct (Ascii.eqb d c); simpl; lia. Qed.

Lemma contains_strip_leading (c : ascii) (p : ascii -> bool) (s : string) :
  contains c s = false -> contains c (strip_leading p s) = false.
Proof.
  induction s as [|d r IH]; simpl; [done|].
  intros [H1 H2]%orb_false_elim. destruct (p d); [auto|]. simpl. by rewrite H1, H2.
Qed.

Lemma contains_strip_trailing (c : ascii) (p : ascii -> bool) (s : string) :
  contains c s = false -> contains c (strip_trailing p s) = false.
Proof.
  induction s as [|d r IH]; simpl; [done|].
  intros [H1 H2]%orb_false_elim. specialize (IH H2).
  destruct (strip_trailing p r); [destruct (p d)|]; simpl in *; rewrite ?H1; auto.
Qed.

(** ** [normalizeRequest] *)

Lemma lower_char_ws (c : ascii) : is_ws (lower_char c) = is_ws c.
Proof. destruct c as [[] [] [] [] [] [] [] []]; reflexivity. Qed.

Lemma lower_char_idem (c : ascii) : lower_char (lower_char c) = lower_char c.
Proof. destruct c as [[] [] [] [] [] [] [] []]; reflexivity. Qed.

Lemma toLowerCase_idem (s : string) : toLowerCase (toLowerCase s) = toLowerCase s.
Proof. induction s as [|c r IH]; simpl; [done|]. by rewrite lower_char_idem, IH. Qed.

Lemma toLowerCase_strip_leading (s : string) :
  strip_leading is_ws (toLowerCase s) = toLowerCase (strip_leading is_ws s).
Proof.
  induction s as [|c r IH]; simpl; [done|].
  rewrite lower_char_ws. destruct (is_ws c); [done|]. done.
Qed.

Lemma toLowerCase_strip_trailing (s : string) :
  strip_trailing is_ws (toLowerCase s) = toLowerCase (strip_trailing is_ws s).
Proof.
  induction s as [|c r IH]; simpl; [done|].
  rewrite IH, lower_char_ws.
  destruct (strip_trailing is_ws r); simpl; [destruct (is_ws c)|]; done.
Qed.

Lemma toLowerCase_trim (s : string) : trim (toLowerCase s) = toLowerCase (trim s).
Proof. unfold trim. by rewrite toLowerCase_strip_leading, toLowerCase_strip_trailing. Qed.

Lemma trim_idem (s : string) : trim (trim s) = trim s.
Proof.
  unfold trim.
  rewrite (strip_leading_fixed is_ws (strip_trailing _ _)).
  - apply strip_trailing_idem.
  - pose proof (strip_leading_head is_ws s) as H.
    destruct (strip_leading is_ws s) as [|c r]; [done|].
    destruct (strip_trailing_head is_ws c r H) as [r' ->]. done.
Qed.

(** The method component of [normalizeRequest] is stable. *)
Lemma normalize_method_idem (m : string) :
  toLowerCase (trim (toLowerCase (trim m))) = toLowerCase (trim m).
Proof. by rewrite toLowerCase_trim, trim_idem, toLowerCase_idem. Qed.

Lemma normalize_path_no_query (p : string) :
  contains "?" (normalize_path_string p) = false.
Proof.
  unfold normalize_path_string. simpl.
  apply contains_strip_leading, contains_strip_trailing, before_no_char.
Qed.

(** A normalized path is ["/"], or does not end in a slash. *)
Lemma normalize_path_shape (p : string) :
  normalize_path_string p = "/"
  \/ ends_with is_slash (normalize_path_string p) = false.
Proof.
  unfold normalize_path_string.
  set (y := strip_trailing is_slash _).
  destruct (ends_with_strip_leading is_slash is_slash y) as [->|E]; [by left|].
  destruct (strip_leading is_slash y) as [|c r] eqn:Ey; [by left|].
  right. change (ends_with is_slash (String c r) = false).
  rewrite E. apply strip_trailing_ends.
Qed.

(** Normalizing a normalized path that does not end in white space changes
    nothing. *)
Lemma normalize_path_stable (p : string) :
  ends_with is_ws (normalize_path_string p) = false ->
  normalize_path_string (normalize_path_string p) = normalize_path_string p.
Proof.
  intros Hws.
  pose proof (normalize_path_no_query p) as Hq.
  pose proof (normalize_path_shape p) as Hs.
  remember (normalize_path_string p) as q eqn:Eq.
  assert (exists x, q = String "/" x /\ strip_leading is_slash x = x) as (x & -> & Hx).
  { subst q. unfold normalize_path_string. eexists. split; [done|].
    apply strip_leading_idem. }
  unfold normalize_path_string at 1. unfold trim.
  rewrite (strip_leading_fixed is_ws) by done.
  rewrite (strip_trailing_fixed is_ws) by done.
  rewrite before_fixed by done.
  destruct Hs as [Hs|Hs].
  - injection Hs as ->. reflexivity.
  - rewrite (strip_trailing_fixed is_slash) by done.
    simpl. by rewrite Hx.
Qed.

(** Normalizing a normalized path that ends in white space shortens it. *)
Lemma normalize_path_shrinks (p : string) :
  ends_with is_ws (normalize_path_string p) = true ->
  (String.length (normalize_path_string (normalize_path_string p))
   < String.length (normalize_path_string p))%nat.
Proof.
  intros Hws.
  remember (normalize_path_string p) as q eqn:Eq.
  assert (exists x, q = String "/" x) as (x & ->).
  { subst q. unfold normalize_path_string. eauto. }
  unfold normalize_path_string at 1. unfold trim.
  rewrite (strip_leading_fixed is_ws (String "/" x)) by done.
  pose proof (strip_trailing_shorter is_ws _ Hws) as L1.
  destruct (strip_trailing_head is_ws "/" x eq_refl) as (t & Et).
  rewrite Et in *. simpl before.
  pose proof (before_length "?" t) as L2.
  destruct (strip_trailing_cons is_slash "/" (before "?" t)) as [->|(u & -> & L3)].
  - simpl in *. lia.
  - simpl strip_leading.
    pose proof (strip_leading_length is_slash u) as L4. simpl in *. lia.
Qed.

(** ** Templates and their regular expressions *)

Lemma plain_char_cases (c : ascii) :
  regex_special c = false ->
  Ascii.eqb c "[" = false /\ Ascii.eqb c "." = false /\ Ascii.eqb c "$" = false.
Proof.
  destruct c as [[] [] [] [] [] [] [] []]; vm_compute; intuition congruence.
Qed.

(** The source built from a plain template denotes the template's tokens. *)
Lemma RegExp_atoms_plain_template (template : string) :
  plain_template template = true ->
  RegExp_atoms (replace_placeholders "[^/]+" template)
  = Some (map atom_of_token (tokens template)).
Proof.
  unfold plain_template, replace_placeholders.
  induction (tokens template) as [|t ts IH]; simpl; [done|].
  intros [Ht Hts]%andb_prop. specialize (IH Hts).
  destruct t as [c|]; simpl.
  - apply negb_true_iff in Ht.
    destruct (plain_char_cases c Ht) as (-> & -> & ->). by rewrite Ht, IH.
  - change ("" +:+ ?x) with x. by rewrite IH.
Qed.

Lemma nonslash_run_spec (k : string -> bool) (s : string) :
  nonslash_run k s = true <->
  exists seg s', s = seg ++ s' /\ seg <> "" /\ contains "/" seg = false
                 /\ k s' = true.
Proof.
  induction s as [|d s IH]; simpl.
  - split; [done|]. intros (seg & s' & E & Hne & _). by destruct seg.
  - split.
    + intros [Hd [Hk|Hr]%orb_prop]%andb_prop.
      * exists (String d ""), s. unfold is_slash in Hd.
        apply negb_true_iff in Hd. simpl. by rewrite Hd.
      * apply IH in Hr as (seg & s' & -> & Hne & Hc & Hk).
        exists (String d seg), s'. unfold is_slash in Hd.
        apply negb_true_iff in Hd. simpl. by rewrite Hd.
    + intros (seg & s' & E & Hne & Hc & Hk).
      destruct seg as [|c seg]; [done|]. simpl in E, Hc.
      injection E as -> ->. apply orb_false_elim in Hc as [Hc1 Hc2].
      unfold is_slash. rewrite Hc1. simpl.
      destruct seg as [|c' seg].
      * change (k s' || nonslash_run k s' = true). by rewrite Hk.
      * apply orb_true_intro. right. apply IH.
        exists (String c' seg), s'. done.
Qed.

(** [template_matchb] decides the path-template reading of a match. *)
Lemma match_atoms_template (ts : list token) (s : string) :
  match_atoms (map atom_of_token ts) s = true <-> template_match ts s.
Proof.
  revert s. induction ts as [|t ts IH]; intros s; simpl.
  - split.
    + intros ->%String.eqb_eq. constructor.
    + inversion 1. done.
  - destruct t as [c|]; simpl.
    + destruct s as [|d s].
      * split; [done|inversion 1].
      * split.
        -- intros [->%Ascii.eqb_eq H]%andb_prop. constructor. by apply IH.
        -- inversion 1; subst. rewrite Ascii.eqb_refl. simpl. by apply IH.
    + rewrite nonslash_run_spec. split.
      * intros (seg & s' & -> & Hne & Hc & Hk). constructor; [done..|].
        by apply IH.
      * inversion 1; subst. do 2 eexists. split; [done|].
        split; [done|]. split; [done|]. by apply IH.
Qed.

Lemma template_matchb_spec (template path : string) :
  template_matchb template path = true <-> template_matches template path.
Proof. apply match_atoms_template. Qed.

(** On a plain template the regular-expression test is the template test. *)
Lemma template_test_plain (p : string) (op : Operation) :
  plain_template (op_path op) = true ->
  template_test p op = Some (template_matchb (op_path op) p).
Proof.
  intros H. unfold template_test, RegExp_matches.
  by rewrite RegExp_atoms_plain_template.
Qed.

Lemma RegExp_atoms_plain_string (s : string) :
  plain_string s = true ->
  RegExp_atoms s = Some (map ALit (list_ascii_of_string s)).
Proof.
  induction s as [|c r IH]; simpl; [done|].
  intros [Hc Hr]%andb_prop. apply negb_true_iff in Hc.
  destruct (plain_char_cases c Hc) as (-> & -> & ->). by rewrite Hc, IH.
Qed.

Lemma strip_atoms_literal (cs : list ascii) (s : string) :
  is_Some (strip_atoms (map ALit cs) s).
Proof.
  revert s. induction cs as [|c cs IH]; intros s; simpl; [done|].
  destruct s as [|d s].
  - destruct (IH "") as [m ->]. done.
  - destruct (IH s) as [m ->]. by destruct (Ascii.eqb d c).
Qed.

(** With a plain [apiRoot], [normalizePath] is defined on every path. *)
Lemma normalizePath_plain (r : OpenAPIRouter) (path : string) :
  plain_string (apiRoot r) = true -> is_Some (normalizePath r path).
Proof.
  intros H. unfold normalizePath. rewrite (RegExp_atoms_plain_string _ H).
  simpl. destruct (strip_atoms_literal (list_ascii_of_string (apiRoot r)) path)
    as [m ->]. done.
Qed.

(** ** Filtering, ordering and finding *)

Lemma filter_opt_filter {A : Type} (test : A -> option bool) (l l' : list A) :
  filter_opt test l = Some l' -> l' = List.filter (passes test) l.
Proof.
  revert l'. induction l as [|x l IH]; intros l'; simpl.
  - by intros [= <-].
  - unfold passes at 1. destruct (test x) as [b|]; [|done]. simpl.
    destruct (filter_opt test l) as [r'|]; [|done]. simpl.
    intros [= <-]. rewrite <- (IH r' eq_refl). by destruct b.
Qed.

Lemma filter_opt_total {A : Type} (test : A -> option bool) (l : list A) :
  (forall x, In x l -> is_Some (test x)) -> is_Some (filter_opt test l).
Proof.
  induction l as [|x l IH]; simpl; [done|].
  intros H. destruct (H x (or_introl eq_refl)) as [b ->]. simpl.
  destruct IH as [r' ->]; [intros; apply H; by right|]. done.
Qed.

Section find.
Context {A : Type} (P : A -> Prop) `{Pdec : !forall x, Decision (P x)}.

Lemma find_first_cons (x : A) (l : list A) :
  find_first P (x :: l) = if decide (P x) then Some x else find_first P l.
Proof.
  unfold find_first. simpl. destruct (decide (P x)); [done|].
  destruct (list_find P l) as [[i y]|]; done.
Qed.

Lemma find_first_Some (l : list A) (x : A) :
  find_first P l = Some x <-> exists i, first_at P l i x.
Proof.
  unfold find_first, first_at. split.
  - destruct (list_find P l) as [[i y]|] eqn:E; [|done]. simpl. intros [= ->].
    apply list_find_Some in E as (H1 & H2 & H3). exists i.
    split; [done|]. split; [done|]. intros j y Hj Hy.
    destruct (decide (j < i)%nat) as [Hlt|]; [|lia].
    by destruct (H3 j y Hj Hlt).
  - intros (i & H1 & H2 & H3).
    assert (list_find P l = Some (i, x)) as ->; [|done].
    apply list_find_Some. split; [done|]. split; [done|].
    intros j y Hj Hlt Hy. specialize (H3 j y Hj Hy). lia.
Qed.

Lemma find_first_None (l : list A) :
  find_first P l = None <-> forall x, In x l -> ~ P x.
Proof.
  unfold find_first. destruct (list_find P l) as [[i y]|] eqn:E; simpl.
  - split; [done|]. intros Hall. apply list_find_Some in E as (H1 & H2 & _).
    destruct (Hall y); [|done]. apply list_elem_of_In. by eapply list_elem_of_lookup_2.
  - split; [|done]. intros _ x Hx. apply list_find_None in E.
    rewrite Forall_forall in E. apply E. by apply list_elem_of_In.
Qed.

Lemma find_first_filter (Q : A -> Prop) `{Qdec : !forall x, Decision (Q x)} (l : list A) :
  find_first P (filter Q l) = snd <$> list_find (fun x => Q x /\ P x) l.
Proof.
  induction l as [|x l IH]; [done|].
  rewrite filter_cons. simpl list_find.
  destruct (decide (Q x)) as [q|q].
  - rewrite find_first_cons. destruct (decide (P x)) as [p|p].
    + rewrite decide_True by done. done.
    + rewrite decide_False by tauto. rewrite IH.
      destruct (list_find _ l) as [[i y]|]; done.
  - rewrite decide_False by tauto. rewrite IH.
    destruct (list_find _ l) as [[i y]|]; done.
Qed.

Variable key : A -> nat.

Lemma insert_desc_In (x y : A) (l : list A) :
  In y (insert_desc key x l) <-> y = x \/ In y l.
Proof.
  induction l as [|z l IH]; simpl; [intuition congruence|].
  destruct (key x <? key z)%nat; simpl; [rewrite IH|]; intuition congruence.
Qed.

Lemma insert_desc_sorted (x : A) (l : list A) :
  sorted_desc key l -> sorted_desc key (insert_desc key x l).
Proof.
  unfold sorted_desc. induction 1 as [|z l Hs IH Hz]; simpl.
  - repeat constructor.
  - destruct (key x <? key z)%nat eqn:E.
    + apply Nat.ltb_lt in E. constructor; [done|].
      apply List.Forall_forall. intros y [->|Hy]%insert_desc_In; [lia|].
      rewrite List.Forall_forall in Hz. by apply Hz.
    + apply Nat.ltb_ge in E. constructor; [by constructor|].
      constructor; [done|]. rewrite List.Forall_forall in Hz |- *.
      intros y Hy. specialize (Hz y Hy). lia.
Qed.

Lemma orderBy_desc_sorted (l : list A) : sorted_desc key (orderBy_desc key l).
Proof.
  induction l as [|x l IH]; simpl; [constructor|]. by apply insert_desc_sorted.
Qed.

Lemma orderBy_desc_In (y : A) (l : list A) :
  In y (orderBy_desc key l) <-> In y l.
Proof.
  induction l as [|x l IH]; simpl; [done|].
  rewrite insert_desc_In, IH. intuition congruence.
Qed.

Lemma find_first_In (l : list A) (x : A) : find_first P l = Some x -> In x l /\ P x.
Proof.
  intros (i & H1 & H2 & _)%find_first_Some. split; [|done].
  apply list_elem_of_In. by eapply list_elem_of_lookup_2.
Qed.

(** Finding in a sorted list after one insertion. *)
Lemma find_first_insert_desc (x : A) (l : list A) :
  sorted_desc key l ->
  find_first P (insert_desc key x l) =
  match find_first P l with
  | Some y =>
      if (key x <? key y)%nat then Some y
      else if decide (P x) then Some x else Some y
  | None => if decide (P x) then Some x else None
  end.
Proof.
  unfold sorted_desc. induction 1 as [|z l Hs IH Hz]; simpl.
  - rewrite find_first_cons. unfold find_first. simpl. done.
  - destruct (key x <? key z)%nat eqn:E.
    + rewrite !find_first_cons. destruct (decide (P z)); [by rewrite E|].
      apply IH.
    + rewrite (find_first_cons x). destruct (find_first P (z :: l)) as [y|] eqn:Ey.
      * apply find_first_In in Ey as [Hy _].
        assert (key y <= key z)%nat.
        { destruct Hy as [->|Hy]; [lia|]. rewrite List.Forall_forall in Hz. auto. }
        apply Nat.ltb_ge in E.
        assert ((key x <? key y)%nat = false) as -> by (apply Nat.ltb_ge; lia).
        done.
      * done.
Qed.

(** The first [P] in the stable descending order of the [Q]-elements is the
    best [Q]-and-[P] element of the list. *)
Lemma find_first_orderBy_filter (Q : A -> bool) (l : list A) :
  match find_first P (orderBy_desc key (List.filter Q l)) with
  | Some x => exists i, best_at key (fun z => Q z = true /\ P z) l i x
  | None => forall y, In y l -> ~ (Q y = true /\ P y)
  end.
Proof.
  induction l as [|a l IH]; simpl.
  - unfold find_first. simpl. tauto.
  - destruct (Q a) eqn:Qa; simpl.
    + rewrite find_first_insert_desc by apply orderBy_desc_sorted.
      destruct (find_first P (orderBy_desc key (List.filter Q l))) as [y|].
      * destruct IH as (i & H1 & H2 & H3).
        destruct (key a <? key y)%nat eqn:E.
        { apply Nat.ltb_lt in E. exists (S i). split; [done|]. split; [done|].
          intros [|j] z Hj Hz Hne; simpl in Hj.
          - injection Hj as <-. by left.
          - destruct (H3 j z Hj Hz) as [?|[? ?]]; [lia|by left|]. right. lia. }
        apply Nat.ltb_ge in E. destruct (decide (P a)) as [Pa|Pa].
        { exists 0%nat. split; [done|]. split; [done|].
          intros [|j] z Hj Hz Hne; [done|]. simpl in Hj.
          destruct (decide (j = i)) as [->|Hji].
          - rewrite H1 in Hj. injection Hj as <-. lia.
          - destruct (H3 j z Hj Hz Hji) as [?|[? ?]]; lia. }
        exists (S i). split; [done|]. split; [done|].
        intros [|j] z Hj Hz Hne; simpl in Hj.
        -- injection Hj as <-. tauto.
        -- destruct (H3 j z Hj Hz) as [?|[? ?]]; [lia|by left|]. right. lia.
      * destruct (decide (P a)) as [Pa|Pa].
        { exists 0%nat. split; [done|]. split; [done|].
          intros [|j] z Hj Hz Hne; [done|]. simpl in Hj.
          destruct (IH z); [|done]. apply list_elem_of_In.
          by eapply list_elem_of_lookup_2. }
        intros y [<-|Hy]; [tauto|]. by apply IH.
    + destruct (find_first P (orderBy_desc key (List.filter Q l))) as [y|].
      * destruct IH as (i & H1 & H2 & H3). exists (S i).
        split; [done|]. split; [done|].
        intros [|j] z Hj Hz Hne; simpl in Hj.
        -- injection Hj as <-. destruct Hz. congruence.
        -- destruct (H3 j z Hj Hz) as [?|[? ?]]; [lia|by left|]. right. lia.
      * intros y [<-|Hy]; [intros []; congruence|]. by apply IH.
Qed.

End find.

Lemma best_at_unique {A : Type} (key : A -> nat) (P : A -> Prop) (l : list A)
  (i j : nat) (x y : A) :
  best_at key P l i x -> best_at key P l j y -> i = j /\ x = y.
Proof.
  intros (H1 & H2 & H3) (K1 & K2 & K3).
  destruct (decide (i = j)) as [->|Hne].
  - split; [done|]. congruence.
  - destruct (H3 j y K1 K2) as [?|[? ?]]; [done| |];
      destruct (K3 i x H1 H2) as [?|[? ?]]; try done; lia.
Qed.

Lemma best_at_ext {A : Type} (key : A -> nat) (P Q : A -> Prop) (l : list A)
  (i : nat) (x : A) :
  (forall y, In y l -> P y <-> Q y) -> best_at key P l i x -> best_at key Q l i x.
Proof.
  intros H (H1 & H2 & H3).
  assert (forall j y, l !! j = Some y -> In y l) as Hin.
  { intros j y Hj. apply list_elem_of_In. by eapply list_elem_of_lookup_2. }
  split; [done|]. split; [apply H; eauto|].
  intros j y Hj Hy. apply H3; [done|]. apply H; eauto.
Qed.

Lemma first_at_unique {A : Type} (P : A -> Prop) (l : list A)
  (i j : nat) (x y : A) :
  first_at P l i x -> first_at P l j y -> x = y.
Proof.
  intros (H1 & H2 & H3) (K1 & K2 & K3).
  specialize (H3 j y K1 K2). specialize (K3 i x H1 H2).
  assert (i = j) as -> by lia. congruence.
Qed.

(** ** [normalizeRequest] is stable only up to trailing white space *)

(** C8, as stated, fails: the path ["/a /"] normalizes to ["/a "], whose
    trailing blank the next normalization trims away. *)
Lemma normalizeRequest_not_idempotent :
  req_path (normalizeRequest (request "GET" "/a /")) = "/a "
  /\ req_path (normalizeRequest (normalizeRequest (request "GET" "/a /"))) = "/a"
  /\ normalizeRequest (normalizeRequest (request "GET" "/a /"))
     <> normalizeRequest (request "GET" "/a /").
Proof. split; [reflexivity|]. split; [reflexivity|]. vm_compute. discriminate. Qed.

(** C8, amended: normalizing twice gives the same request as normalizing
    once exactly when the normalized path does not end in a white-space
    character; the method, and every other field, is always stable. *)
Theorem normalizeRequest_idempotent_iff (req : Request) :
  normalizeRequest (normalizeRequest req) = normalizeRequest req
  <-> ends_with is_ws (req_path (normalizeRequest req)) = false.
Proof.
  split.
  - intros E. destruct (ends_with is_ws (req_path (normalizeRequest req))) eqn:W;
      [|done].
    apply (f_equal req_path) in E. simpl in E, W.
    pose proof (normalize_path_shrinks _ W) as L. rewrite E in L. lia.
  - intros W. unfold normalizeRequest at 1 3. simpl in *.
    by rewrite normalize_method_idem, normalize_path_stable.
Qed.

(** ** [matchOperation] *)

Lemma plain_router_check (r : OpenAPIRouter) :
  plain_string (apiRoot r)
  && forallb (fun op => plain_template (op_path op)) (getOperations r) = true ->
  plain_router r.
Proof.
  intros [H1 H2]%andb_prop. split; [done|].
  rewrite forallb_forall in H2. done.
Qed.

(** The template phase, read off the templates that pass the test. *)
Lemma matchTemplates_passes (r : OpenAPIRouter) (p m : string) (strict : bool)
  (res : completion (option Operation)) :
  matchTemplates r p m strict = Some res ->
  let matches := List.filter (passes (template_test p)) (getOperations r) in
  res = match matches with
        | [] => if strict then Throw err404 else Normal None
        | _ => match find_method m (orderBy_desc specificity matches) with
               | Some op => Normal (Some op)
               | None => if strict then Throw err405 else Normal None
               end
        end.
Proof.
  unfold matchTemplates.
  destruct (filter_opt _ _) as [l'|] eqn:E; [|done]. simpl.
  apply filter_opt_filter in E. subst l'.
  destruct (List.filter _ _); [by intros [= <-]|].
  destruct (find_method _ _); by intros [= <-].
Qed.

Lemma passes_plain (p : string) (ops : list Operation) :
  (forall op, In op ops -> plain_template (op_path op) = true) ->
  List.filter (passes (template_test p)) ops
  = List.filter (fun op => template_matchb (op_path op) p) ops.
Proof.
  intros H. apply List.filter_ext_in. intros op Hop. unfold passes.
  rewrite template_test_plain by auto. by destruct (template_matchb _ _).
Qed.

Lemma matchTemplates_plain (r : OpenAPIRouter) (p m : string) (strict : bool) :
  (forall op, In op (getOperations r) -> plain_template (op_path op) = true) ->
  let matches :=
    List.filter (fun op => template_matchb (op_path op) p) (getOperations r) in
  matchTemplates r p m strict =
  Some match matches with
       | [] => if strict then Throw err404 else Normal None
       | _ => match find_method m (orderBy_desc specificity matches) with
              | Some op => Normal (Some op)
              | None => if strict then Throw err405 else Normal None
              end
       end.
Proof.
  intros H.
  assert (is_Some (matchTemplates r p m strict)) as [res Hres].
  { unfold matchTemplates.
    destruct (filter_opt_total (template_test p) (getOperations r)) as [l' ->].
    - intros op Hop. rewrite template_test_plain by auto. done.
    - simpl. destruct l'; [done|]. by destruct (find_method _ _). }
  rewrite Hres. f_equal. apply matchTemplates_passes in Hres.
  by rewrite passes_plain in Hres.
Qed.

(** The two phases of [matchOperation] for a path inside [apiRoot]. *)
Lemma matchOperation_phases (r : OpenAPIRouter) (req : Request) (strict : bool)
  (p : string) :
  startsWith (req_path (normalizeRequest req)) (apiRoot r) = true ->
  normalizePath r (req_path (normalizeRequest req)) = Some p ->
  let m := req_method (normalizeRequest req) in
  matchOperation r req strict =
  match find_first (fun o => op_path o = p /\ op_method o = m) (getOperations r) with
  | Some op => Some (Normal (Some op))
  | None => matchTemplates r p m strict
  end.
Proof.
  intros Hroot Hp. unfold matchOperation. rewrite Hroot, Hp. simpl.
  unfold find_method. by rewrite find_first_filter.
Qed.

Lemma lookup_In {A : Type} (l : list A) (i : nat) (x : A) :
  l !! i = Some x -> In x l.
Proof. intros H. apply list_elem_of_In. by eapply list_elem_of_lookup_2. Qed.

(** C1, as stated, fails in both directions.  With [apiRoot = "/api"] the
    request [GET /pets] is outside the root and is answered [undefined],
    although [GET /pets] is declared.  With the template ["/v1.0/pets"] the
    request [GET /v1x0/pets] is given the operation, although the path is
    not the template: the [.] of the template matches any character. *)
Lemma matchOperation_selection_counterexample :
  (let r := newRouter petstore (Some "/api") in
   let req := request "GET" "/pets" in
   exists op,
     normalizePath r (req_path (normalizeRequest req)) = Some "/pets"
     /\ selected (getOperations r) "/pets" "get" op
     /\ matchOperation r req false = Some (Normal None))
  /\ (let r := newRouter versioned None in
      let req := request "GET" "/v1x0/pets" in
      exists op,
        normalizePath r (req_path (normalizeRequest req)) = Some "/v1x0/pets"
        /\ matchOperation r req false = Some (Normal (Some op))
        /\ ~ selected (getOperations r) "/v1x0/pets" "get" op).
Proof.
  split.
  - eexists. split; [reflexivity|]. split; [|reflexivity].
    left. exists 0%nat. split; [reflexivity|]. split; [done|]. intros; lia.
  - eexists. split; [reflexivity|]. split; [reflexivity|].
    intros [(i & Hi & [Hp _] & _)|(_ & i & Hi & [Ht _] & _)].
    + vm_compute in Hp. discriminate.
    + apply template_matchb_spec in Ht. vm_compute in Ht. discriminate.
Qed.

(** C1, amended: for a router whose [apiRoot] and templates are plain and a
    request whose normalized path starts with [apiRoot], [matchOperation]
    returns an operation exactly when it is the selected one: the operation
    declared at exactly the normalized path with the normalized method, or
    else the first operation with that method among the template matches
    ordered by decreasing specificity, ties in index order. *)
Theorem matchOperation_selects (r : OpenAPIRouter) (req : Request)
  (strict : bool) :
  plain_router r ->
  startsWith (req_path (normalizeRequest req)) (apiRoot r) = true ->
  exists p,
    normalizePath r (req_path (normalizeRequest req)) = Some p
    /\ forall op,
         matchOperation r req strict = Some (Normal (Some op))
         <-> selected (getOperations r) p (req_method (normalizeRequest req)) op.
Proof.
  intros [Hroot Hplain] Hin.
  destruct (normalizePath_plain r (req_path (normalizeRequest req)) Hroot)
    as [p Hp].
  exists p. split; [done|]. intros op.
  rewrite (matchOperation_phases r req strict p Hin Hp).
  set (m := req_method (normalizeRequest req)).
  set (ops := getOperations r) in *.
  destruct (find_first _ ops) as [e|] eqn:Ee.
  - apply find_first_Some in Ee as [i Hi]. split.
    + intros [= <-]. left. eauto.
    + intros [(j & Hj)|(Hno & _)].
      * by rewrite (first_at_unique _ _ _ _ _ _ Hi Hj).
      * destruct Hi as (Hi & He & _). apply lookup_In in Hi.
        by destruct (Hno e Hi).
  - pose proof (proj1 (find_first_None _ _) Ee) as Hno.
    rewrite matchTemplates_plain by done. fold ops.
    pose proof (find_first_orderBy_filter (fun o => op_method o = m) specificity
                  (fun o => template_matchb (op_path o) p) ops) as Hbest.
    unfold find_method.
    assert (forall i x,
      best_at specificity
        (fun z => template_matchb (op_path z) p = true /\ op_method z = m) ops i x
      <-> best_at specificity
            (fun o => template_matches (op_path o) p /\ op_method o = m) ops i x)
      as Hext.
    { intros i x. split; apply best_at_ext; intros y _;
        rewrite template_matchb_spec; done. }
    destruct (find_first _ (orderBy_desc specificity _)) as [x|] eqn:Ex.
    + destruct Hbest as (i & Hi).
      assert (List.filter (fun o => template_matchb (op_path o) p) ops <> [])
        as Hne.
      { intros E0. rewrite E0 in Ex. done. }
      destruct (List.filter _ ops) as [|a l'] eqn:El; [done|].
      split.
      * intros [= <-]. right. split; [done|]. exists i. by apply Hext.
      * intros [(j & Hj & Hex & _)|(_ & j & Hj)].
        -- apply lookup_In in Hj. by destruct (Hno op Hj).
        -- apply Hext in Hj.
           destruct (best_at_unique _ _ _ _ _ _ _ Hi Hj) as [_ ->]. done.
    + split.
      * destruct (List.filter _ ops); [by destruct strict|by destruct strict].
      * intros [(j & Hj & Hex & _)|(_ & j & Hj)].
        -- apply lookup_In in Hj. by destruct (Hno op Hj).
        -- apply Hext in Hj. destruct Hj as (Hj & Hq & _).
           apply lookup_In in Hj. by destruct (Hbest op Hj).
Qed.

Lemma matchOperation_selects_witness :
  plain_router (newRouter petstore None)
  /\ startsWith (req_path (normalizeRequest (request "GET" "/pets/7/owner?by=name")))
       (apiRoot (newRouter petstore None)) = true
  /\ exists p,
       normalizePath (newRouter petstore None)
         (req_path (normalizeRequest (request "GET" "/pets/7/owner?by=name")))
       = Some p
       /\ forall op,
            matchOperation (newRouter petstore None)
              (request "GET" "/pets/7/owner?by=name") true
            = Some (Normal (Some op))
            <-> selected (getOperations (newRouter petstore None)) p
                  (req_method (normalizeRequest (request "GET" "/pets/7/owner?by=name")))
                  op.
Proof.
  split; [apply plain_router_check; vm_compute; reflexivity|].
  split; [reflexivity|].
  apply (matchOperation_selects (newRouter petstore None)
           (request "GET" "/pets/7/owner?by=name") true).
  - apply plain_router_check. vm_compute. reflexivity.
  - reflexivity.
Defined.

Lemma filter_nil_iff {A : Type} (f : A -> bool) (l : list A) :
  List.filter f l = [] <-> forall x, In x l -> f x = false.
Proof.
  induction l as [|a l IH]; simpl; [done|].
  destruct (f a) eqn:E.
  - split; [done|]. intros H. specialize (H a (or_introl eq_refl)). congruence.
  - rewrite IH. split.
    + intros H x [<-|Hx]; auto.
    + intros H x Hx. apply H. by right.
Qed.

(** With plain [apiRoot] and templates, a non-strict call returns. *)
Lemma matchOperation_nonstrict_returns (r : OpenAPIRouter) (req : Request) :
  plain_router r ->
  exists res, matchOperation r req false = Some (Normal res).
Proof.
  intros [Hroot Hplain]. unfold matchOperation.
  destruct (negb _); [eauto|].
  destruct (normalizePath_plain r (req_path (normalizeRequest req)) Hroot)
    as [p ->]. simpl.
  destruct (find_method _ _); [eauto|].
  rewrite matchTemplates_plain by done.
  destruct (List.filter _ _); [eauto|]. destruct (find_method _ _); eauto.
Qed.

(** In non-strict mode [matchOperation] does not throw. *)
Lemma matchOperation_nonstrict_no_throw (r : OpenAPIRouter) (req : Request)
  (msg : string) :
  matchOperation r req false <> Some (Throw msg).
Proof.
  unfold matchOperation, matchTemplates.
  destruct (negb _); [done|].
  destruct (normalizePath _ _) as [p|]; [simpl|done].
  destruct (find_method _ _); [done|].
  destruct (filter_opt _ _) as [l|]; [simpl|done].
  destruct l; [done|]. by destruct (find_method _ _).
Qed.

(** C4, as stated, fails.  With the template ["/v1.0/pets"] the path
    ["/v1x0/pets"] matches no template, yet the strict call returns the
    operation instead of throwing [404-notFound]: the test is a regular
    expression built from the text of the template, whose [.] matches any
    character. *)
Lemma matchOperation_errors_counterexample :
  let r := newRouter versioned None in
  let req := request "GET" "/v1x0/pets" in
  startsWith (req_path (normalizeRequest req)) (apiRoot r) = true
  /\ normalizePath r (req_path (normalizeRequest req)) = Some "/v1x0/pets"
  /\ (forall op, In op (getOperations r) ->
        ~ template_matches (op_path op) "/v1x0/pets")
  /\ exists op, matchOperation r req true = Some (Normal (Some op)).
Proof.
  cbv zeta. split; [reflexivity|]. split; [reflexivity|]. split.
  - intros op [<-|[]] Ht%template_matchb_spec. vm_compute in Ht. discriminate.
  - eexists. reflexivity.
Qed.

(** C4, amended: with plain [apiRoot] and templates.  In strict mode
    [matchOperation] throws a [404-notFound:] error when the normalized
    request path does not start with [apiRoot], or when no operation is
    declared at exactly the normalized path with the request method and no
    template matches; it throws a [405-methodNotAllowed:] error when no
    operation is declared at exactly the normalized path with the request
    method, some template matches, and no matching operation has the
    method.  A non-strict call returns [undefined] in these cases, and never
    throws. *)
Theorem matchOperation_errors (r : OpenAPIRouter) (req : Request) :
  plain_router r ->
  let path := req_path (normalizeRequest req) in
  let m := req_method (normalizeRequest req) in
  let ops := getOperations r in
  let throws prefix :=
    exists msg, matchOperation r req true = Some (Throw msg)
                /\ startsWith msg prefix = true in
  let undefined := matchOperation r req false = Some (Normal None) in
  (startsWith path (apiRoot r) = false -> throws "404-notFound:" /\ undefined)
  /\ (startsWith path (apiRoot r) = true ->
      exists p, normalizePath r path = Some p
      /\ ((forall op, In op ops -> ~ (op_path op = p /\ op_method op = m)) ->
          ((forall op, In op ops -> ~ template_matches (op_path op) p) ->
           throws "404-notFound:" /\ undefined)
          /\ ((exists op, In op ops /\ template_matches (op_path op) p) ->
              (forall op, In op ops -> template_matches (op_path op) p ->
                 op_method op <> m) ->
              throws "405-methodNotAllowed:" /\ undefined)))
  /\ (exists res, matchOperation r req false = Some (Normal res))
  /\ (forall msg, matchOperation r req false <> Some (Throw msg)).
Proof.
  intros Hr. pose proof Hr as [Hroot Hplain]. cbv zeta.
  split; [|split; [|split]].
  - intros Hout. unfold matchOperation. rewrite Hout. simpl.
    split; [|done]. by exists err404.
  - intros Hin.
    destruct (normalizePath_plain r (req_path (normalizeRequest req)) Hroot)
      as [p Hp].
    exists p. split; [done|]. intros Hexact.
    assert (forall strict, matchOperation r req strict
              = matchTemplates r p (req_method (normalizeRequest req)) strict)
      as Hfall.
    { intros strict. rewrite (matchOperation_phases r req strict p Hin Hp).
      by rewrite (proj2 (find_first_None
                (fun o => op_path o = p
                          /\ op_method o = req_method (normalizeRequest req))
                (getOperations r)) Hexact). }
    rewrite !Hfall, !matchTemplates_plain by done.
    split.
    + intros Hnone.
      assert (List.filter (fun op => template_matchb (op_path op) p)
                (getOperations r) = []) as ->.
      { apply filter_nil_iff. intros op Hop.
        destruct (template_matchb (op_path op) p) eqn:E; [|done].
        apply template_matchb_spec in E. by destruct (Hnone op Hop). }
      split; [|done]. by exists err404.
    + intros (op & Hop & Ht) Hmeth.
      destruct (List.filter _ (getOperations r)) as [|a l] eqn:El.
      { pose proof (proj1 (filter_nil_iff _ _) El op Hop) as E.
        apply template_matchb_spec in Ht. simpl in E. congruence. }
      assert (find_method (req_method (normalizeRequest req))
                (orderBy_desc specificity (a :: l)) = None) as ->.
      { apply find_first_None. rewrite <- El.
        intros x [Hx Hxt]%orderBy_desc_In%filter_In.
        apply Hmeth; [done|]. by apply template_matchb_spec. }
      split; [|done]. by exists err405.
  - by apply matchOperation_nonstrict_returns.
  - apply matchOperation_nonstrict_no_throw.
Qed.

(** Case analysis on membership in an explicit list. *)
Ltac each_member H :=
  simpl in H;
  repeat match type of H with
         | _ \/ _ => destruct H as [<-|H]
         | False => destruct H
         end.

Lemma matchOperation_errors_witness :
  plain_router (newRouter petstore None)
  /\ exists msg,
       matchOperation (newRouter petstore None) (request "TRACE" "/pets/meta") true
       = Some (Throw msg)
       /\ startsWith msg "405-methodNotAllowed:" = true.
Proof.
  assert (plain_router (newRouter petstore None)) as Hplain.
  { apply plain_router_check. vm_compute. reflexivity. }
  split; [exact Hplain|].
  destruct (matchOperation_errors (newRouter petstore None)
              (request "TRACE" "/pets/meta") Hplain) as (_ & Hin & _ & _).
  destruct (Hin eq_refl) as (p & Hp & Hcases).
  vm_compute in Hp. injection Hp as <-.
  refine (proj1 (proj2 (Hcases _) _ _)).
  - intros op Hop [_ Hm]. each_member Hop; vm_compute in Hm; discriminate.
  - eexists. split; [right; right; left; reflexivity|].
    apply template_matchb_spec. vm_compute. reflexivity.
  - intros op Hop _ Hm. each_member Hop; vm_compute in Hm; discriminate.
Defined.

(** The outcomes of the template phase, for plain templates: the best
    match with the method, or the reason why there is none. *)
Lemma matchTemplates_outcomes (r : OpenAPIRouter) (p m : string) (strict : bool) :
  (forall op, In op (getOperations r) -> plain_template (op_path op) = true) ->
  let ops := getOperations r in
  let matching o := template_matches (op_path o) p in
  (forall op,
     matchTemplates r p m strict = Some (Normal (Some op))
     <-> exists i, best_at specificity
                     (fun o => matching o /\ op_method o = m) ops i op)
  /\ (matchTemplates r p m strict = Some (Throw err404)
      <-> strict = true /\ forall op, In op ops -> ~ matching op)
  /\ (matchTemplates r p m strict = Some (Throw err405)
      <-> strict = true /\ (exists op, In op ops /\ matching op)
          /\ forall op, In op ops -> matching op -> op_method op <> m)
  /\ (matchTemplates r p m strict = Some (Normal None)
      <-> strict = false
          /\ forall op, In op ops -> matching op -> op_method op <> m).
Proof.
  intros Hplain ops matching. rewrite matchTemplates_plain by done. fold ops.
  pose proof (find_first_orderBy_filter (fun o => op_method o = m) specificity
                (fun o => template_matchb (op_path o) p) ops) as Hbest.
  assert (forall i x,
    best_at specificity
      (fun z => template_matchb (op_path z) p = true /\ op_method z = m) ops i x
    <-> best_at specificity (fun o => matching o /\ op_method o = m) ops i x)
    as Hext.
  { intros i x. split; apply best_at_ext; intros y _; unfold matching;
      rewrite template_matchb_spec; done. }
  assert (forall op, template_matchb (op_path op) p = true <-> matching op)
    as Hm by (intros op; apply template_matchb_spec).
  pose proof (filter_nil_iff (fun o => template_matchb (op_path o) p) ops)
    as Hnil.
  assert (forall a l,
            List.filter (fun o => template_matchb (op_path o) p) ops = a :: l ->
            In a ops /\ matching a) as Hhead.
  { intros a l El.
    assert (In a (List.filter (fun o => template_matchb (op_path o) p) ops))
      as Ha by (rewrite El; by left).
    apply filter_In in Ha as [Ha1 Ha2]. split; [done|]. by apply Hm. }
  unfold find_method.
  destruct (List.filter _ ops) as [|a l] eqn:El.
  - pose proof (proj1 Hnil eq_refl) as Hno.
    assert (forall op, In op ops -> ~ matching op) as Hno'.
    { intros op Hop Hop'%Hm. rewrite (Hno op Hop) in Hop'. done. }
    split; [|split; [|split]].
    + intros op. split; [by destruct strict|].
      intros (i & Hi & [Hq _] & _). apply lookup_In in Hi.
      by destruct (Hno' op Hi).
    + destruct strict; [|split; [done|by intros [? _]]]. by split.
    + split; [by destruct strict|].
      intros (_ & (op & Hop & Hq) & _). by destruct (Hno' op Hop).
    + destruct strict; [split; [done|by intros [? _]]|].
      split; [|done]. intros _. split; [done|].
      intros op Hop Hq. by destruct (Hno' op Hop).
  - destruct (Hhead a l eq_refl) as [Ha Hqa].
    destruct (find_first _ (orderBy_desc specificity (a :: l))) as [x|] eqn:Ex.
    + destruct Hbest as (i & Hi).
      split; [|split; [|split]].
      * intros op. split.
        -- intros [= <-]. exists i. by apply Hext.
        -- intros (j & Hj%Hext).
           by destruct (best_at_unique _ _ _ _ _ _ _ Hi Hj) as [_ ->].
      * split; [done|]. intros [_ Hno]. by destruct (Hno a Ha).
      * split; [done|]. intros (_ & _ & Hno).
        destruct Hi as (Hi & [Hq%Hm Hmx] & _). apply lookup_In in Hi.
        by destruct (Hno x Hi Hq).
      * split; [done|]. intros (_ & Hno).
        destruct Hi as (Hi & [Hq%Hm Hmx] & _). apply lookup_In in Hi.
        by destruct (Hno x Hi Hq).
    + assert (forall op, In op ops -> matching op -> op_method op <> m) as Hno.
      { intros op Hop Hq%Hm Hmo. by destruct (Hbest op Hop). }
      split; [|split; [|split]].
      * intros op. split; [by destruct strict|].
        intros (j & Hj & [Hq Hmo] & _). apply lookup_In in Hj.
        by destruct (Hno op Hj Hq).
      * split; [by destruct strict|]. intros [_ Hnone]. by destruct (Hnone a Ha).
      * destruct strict; [|split; [done|by intros [? _]]].
        split; [|done]. intros _. split; [done|]. split; [by eauto|done].
      * destruct strict; [split; [done|by intros [? _]]|]. by split.
Qed.

(** C10, as stated, fails.  With the paths ["/users/me/$value"] ([get]),
    ["/users/{id}/$value"] ([put]) and ["/users/{id}/{part}"] ([delete]),
    the request [PUT /users/me/$value] names a declared path whose one
    method is another, and the second template matches it with the method
    [put]; yet the strict call throws [405-methodNotAllowed].  The test is a
    regular expression built from the text of the template, whose [$] is
    the end of the text: only the third template passes it. *)
Lemma matchOperation_falls_through_counterexample :
  let r := newRouter graph None in
  let req := request "PUT" "/users/me/$value" in
  let p := "/users/me/$value" in
  startsWith (req_path (normalizeRequest req)) (apiRoot r) = true
  /\ normalizePath r (req_path (normalizeRequest req)) = Some p
  /\ (exists op, In op (getOperations r) /\ op_path op = p)
  /\ (forall op, In op (getOperations r) -> op_path op = p ->
        op_method op <> req_method (normalizeRequest req))
  /\ (exists op, In op (getOperations r)
                 /\ template_matches (op_path op) p
                 /\ op_method op = req_method (normalizeRequest req))
  /\ matchOperation r req true = Some (Throw err405)
  /\ matchOperation r req false = Some (Normal None).
Proof.
  cbv zeta. split; [reflexivity|]. split; [reflexivity|]. split.
  { eexists. split; [left; reflexivity|reflexivity]. }
  split.
  { intros op Hop Hpath. each_member Hop; vm_compute in Hpath |- *; congruence. }
  split.
  { eexists. split; [right; left; reflexivity|]. split; [|reflexivity].
    apply template_matchb_spec. vm_compute. reflexivity. }
  split; reflexivity.
Qed.

(** C10, amended: with plain [apiRoot] and templates.  When no operation is
    declared at exactly the normalized path with the request method -- in
    particular when the path is declared, but with other methods only --
    [matchOperation] goes on to the templates: it returns an operation
    exactly when that operation is, among the operations with the request
    method whose template matches the path, the one of greatest specificity,
    the first of them in case of a tie; such an operation sits at another
    path.  The strict call throws [405-methodNotAllowed] exactly when some
    template matches the path and no operation whose template matches has
    the request method, and [404-notFound] exactly when no template
    matches; the lenient call returns [undefined] exactly when no operation
    whose template matches has the request method. *)
Theorem matchOperation_falls_through (r : OpenAPIRouter) (req : Request) :
  plain_router r ->
  startsWith (req_path (normalizeRequest req)) (apiRoot r) = true ->
  let m := req_method (normalizeRequest req) in
  let ops := getOperations r in
  exists p,
    normalizePath r (req_path (normalizeRequest req)) = Some p
    /\ ((forall op, In op ops -> op_path op = p -> op_method op <> m) ->
        let matching o := template_matches (op_path o) p in
        (forall strict op,
           matchOperation r req strict = Some (Normal (Some op))
           <-> exists i, best_at specificity
                           (fun o => matching o /\ op_method o = m) ops i op)
        /\ (forall strict op,
              matchOperation r req strict = Some (Normal (Some op)) ->
              op_path op <> p)
        /\ (matchOperation r req true = Some (Throw err405)
            <-> (exists op, In op ops /\ matching op)
                /\ forall op, In op ops -> matching op -> op_method op <> m)
        /\ (matchOperation r req true = Some (Throw err404)
            <-> forall op, In op ops -> ~ matching op)
        /\ (matchOperation r req false = Some (Normal None)
            <-> forall op, In op ops -> matching op -> op_method op <> m)).
Proof.
  intros [Hroot Hplain] Hin m ops.
  destruct (normalizePath_plain r (req_path (normalizeRequest req)) Hroot)
    as [p Hp].
  exists p. split; [done|]. intros Hexact matching.
  assert (forall strict,
            matchOperation r req strict = matchTemplates r p m strict) as Hfall.
  { intros strict. rewrite (matchOperation_phases r req strict p Hin Hp).
    rewrite (proj2 (find_first_None
               (fun o => op_path o = p /\ op_method o = m) (getOperations r)));
      [done|].
    intros op Hop [H1 H2]. by apply (Hexact op). }
  assert (forall strict op,
            matchOperation r req strict = Some (Normal (Some op))
            <-> exists i, best_at specificity
                            (fun o => matching o /\ op_method o = m) ops i op)
    as Hbest.
  { intros strict op. rewrite Hfall.
    apply (matchTemplates_outcomes r p m strict Hplain). }
  split; [exact Hbest|]. split.
  { intros strict op (i & Hi & [_ Hm] & _)%Hbest Hpath.
    apply lookup_In in Hi. by apply (Hexact op). }
  rewrite !Hfall.
  destruct (matchTemplates_outcomes r p m true Hplain) as (_ & H404 & H405 & _).
  destruct (matchTemplates_outcomes r p m false Hplain) as (_ & _ & _ & Hnone).
  split; [|split].
  - rewrite H405. fold ops matching. tauto.
  - rewrite H404. fold ops matching. tauto.
  - rewrite Hnone. fold ops matching. tauto.
Qed.

(** [POST /pets/meta] is routed to [POST /pets/{id}], although [/pets/meta]
    is declared, with [get] only. *)
Lemma matchOperation_falls_through_witness :
  let r := newRouter petstore None in
  let req := request "POST" "/pets/meta" in
  plain_router r
  /\ startsWith (req_path (normalizeRequest req)) (apiRoot r) = true
  /\ (exists op, In op (getOperations r)
                 /\ op_path op = "/pets/meta" /\ op_method op = "get")
  /\ (forall op, In op (getOperations r) -> op_path op = "/pets/meta" ->
        op_method op <> req_method (normalizeRequest req))
  /\ exists op,
       matchOperation r req true = Some (Normal (Some op))
       /\ op_path op = "/pets/{id}" /\ op_method op = "post"
       /\ exists i,
            best_at specificity
              (fun o => template_matches (op_path o) "/pets/meta"
                        /\ op_method o = req_method (normalizeRequest req))
              (getOperations r) i op.
Proof.
  cbv zeta.
  assert (plain_router (newRouter petstore None)) as Hplain.
  { apply plain_router_check. vm_compute. reflexivity. }
  assert (forall op, In op (getOperations (newRouter petstore None)) ->
            op_path op = "/pets/meta" ->
            op_method op <> req_method (normalizeRequest (request "POST" "/pets/meta")))
    as Hexact.
  { intros op Hop Hpath. each_member Hop; vm_compute in Hpath |- *; congruence. }
  split; [exact Hplain|]. split; [reflexivity|]. split.
  { eexists. split; [do 8 right; left; reflexivity|]. split; reflexivity. }
  split; [exact Hexact|].
  destruct (matchOperation_falls_through (newRouter petstore None)
              (request "POST" "/pets/meta") Hplain eq_refl) as (p & Hp & H).
  vm_compute in Hp. injection Hp as <-.
  destruct (H Hexact) as (Hbest & _).
  eexists. split; [reflexivity|]. split; [reflexivity|]. split; [reflexivity|].
  apply (Hbest true). reflexivity.
Defined.

(** ** Inherited parameters *)

Lemma find_first_app_l {A : Type} (P : A -> Prop)
  `{Pdec : !forall x, Decision (P x)} (l k : list A) (x : A) :
  find_first P l = Some x -> find_first P (l ++ k)%list = Some x.
Proof.
  induction l as [|a l IH]; [done|]. simpl. rewrite !find_first_cons.
  destruct (decide (P a)); [done|]. apply IH.
Qed.




(** ** [parseRequest]: query parameters with [explode: false] *)

Lemma mapM_completion_assoc (f : string * jsval -> completion (string * jsval))
  (l l' : list (string * jsval)) (k : string) (v w : jsval) :
  (forall k' v' e, f (k', v') = Normal e -> fst e = k') ->
  f (k, v) = Normal (k, w) ->
  mapM_completion f l = Normal l' ->
  assoc k l = Some v -> assoc k l' = Some w.
Proof.
  intros Hkey Hk. revert l'. induction l as [|[k0 v0] l IH]; intros l'; simpl.
  - done.
  - destruct (f (k0, v0)) as [[k1 v1]|] eqn:E0; [|done].
    destruct (mapM_completion f l) as [r'|]; [|done]. intros [= <-].
    pose proof (Hkey _ _ _ E0) as Hk1. simpl in Hk1. subst k1. simpl.
    destruct (String.eqb k k0) eqn:Ek.
    + apply String.eqb_eq in Ek as <-. intros [= <-].
      rewrite Hk in E0. by injection E0 as <-.
    + intros Hv. by apply IH.
Qed.

Lemma mapM_completion_total {A B : Type} (f : A -> completion B) (l : list A) :
  (forall x, In x l -> exists y, f x = Normal y) ->
  exists l', mapM_completion f l = Normal l'.
Proof.
  induction l as [|x l IH]; simpl; [eauto|]. intros H.
  destruct (H x (or_introl eq_refl)) as [y ->].
  destruct IH as [l' ->]; [intros; apply H; by right|]. eauto.
Qed.

Section parse.
Variable JSON_parse : string -> jsval + string.
Variable qs_parse : bool -> option string -> list (string * jsval).
Variable cookie_parse : string -> list (string * jsval).
Variable bath_params : string -> string -> option (list (string * jsval)).

Lemma style_query_entry_key (op : Operation) (qs : option string)
  (k : string) (v : jsval) (e : string * jsval) :
  style_query_entry JSON_parse qs_parse op qs (k, v) = Normal e -> fst e = k.
Proof.
  unfold style_query_entry.
  repeat match goal with
         | |- context [match ?x with _ => _ end] => destruct x
         end; by intros [= <-].
Qed.

(** C6, amended: when the path of the request carries a non-empty query
    string, the parsed entry of the parameter is truthy, and the parameter is
    declared with [explode: false] and without [application/json] content,
    [parseRequest] replaces the entry with what comma parsing of the query
    string gives for its name, after the replacements of its style.  The
    call returns provided the JSON-content query parameters of the request
    parse. *)
Theorem parseRequest_explode_false (r : OpenAPIRouter) (req : Request)
  (op : Operation) (name qs : string) (value : jsval)
  (parameter : ParameterObject) :
  is_Some (normalizePath r (req_path (normalizeRequest req))) ->
  (forall k v p, In (k, v) (initial_query qs_parse req) -> truthy v = true ->
     find_parameter k "query" (op_parameters op) = Some p ->
     has_json_content p = true -> exists j, JSON_parse (to_string v) = inl j) ->
  split_second "?" (req_path req) = Some qs -> qs <> "" ->
  assoc name (initial_query qs_parse req) = Some value -> truthy value = true ->
  find_parameter name "query" (op_parameters op) = Some parameter ->
  param_explode parameter = Some false ->
  has_json_content parameter = false ->
  exists parsed,
    parseRequest JSON_parse qs_parse cookie_parse bath_params r req (Some op)
    = Some (Normal parsed)
    /\ assoc name (pr_query parsed)
       = Some (get name (qs_parse true
                 (Some (comma_query_string (param_style parameter) qs)))).
Proof.
  intros [p Hp] Hjson Hqs Hne Hval Htruthy Hparam Hexplode Hcontent.
  unfold parseRequest. rewrite Hp. simpl.
  destruct (mapM_completion_total
              (style_query_entry JSON_parse qs_parse op
                 (split_second "?" (req_path req)))
              (initial_query qs_parse req)) as [q' Hq'].
  { intros [k v] Hkv. unfold style_query_entry.
    destruct (truthy v) eqn:Tv; [|eauto].
    destruct (find_parameter k "query" _) as [p0|] eqn:Ep; [|eauto].
    destruct (has_json_content p0) eqn:Ec.
    - destruct (Hjson k v p0 Hkv Tv Ep Ec) as [j ->]. eauto.
    - destruct (split_second _ _); [|eauto]. destruct (_ && _); eauto. }
  rewrite Hq'. eexists. split; [done|]. simpl.
  refine (mapM_completion_assoc _ _ _ _ value _ (style_query_entry_key op _)
            _ Hq' Hval).
  unfold style_query_entry.
  rewrite Htruthy, Hparam, Hcontent, Hqs, Hexplode.
  rewrite bool_decide_eq_true_2 by done.
  assert (String.eqb qs "" = false) as -> by by apply String.eqb_neq.
  done.
Qed.

End parse.

(** The three styles of the design document, run on the stand-ins. *)
Example parseRequest_styles :
  let parse path style :=
    parseRequest json_literals qs_flat no_cookies no_path_params
      (newRouter petstore None) (request "GET" path)
      (Some (listing (array_parameter (Some style)))) in
  let query_a res :=
    match res with
    | Some (Normal parsed) => assoc "a" (pr_query parsed)
    | _ => None
    end in
  query_a (parse "/pets?a=1,2,3" "form")
    = Some (VArr [VStr "1"; VStr "2"; VStr "3"])
  /\ query_a (parse "/pets?a=1 2%203" "spaceDelimited")
     = Some (VArr [VStr "1"; VStr "2"; VStr "3"])
  /\ query_a (parse "/pets?a=1|2%7C3" "pipeDelimited")
     = Some (VArr [VStr "1"; VStr "2"; VStr "3"]).
Proof. repeat split; reflexivity. Qed.

Lemma parseRequest_explode_false_witness :
  split_second "?" (req_path (request "GET" "/pets?a=1 2 3")) = Some "a=1 2 3"
  /\ find_parameter "a" "query"
       (op_parameters (listing (array_parameter (Some "spaceDelimited"))))
     = Some (array_parameter (Some "spaceDelimited"))
  /\ exists parsed,
       parseRequest json_literals qs_flat no_cookies no_path_params
         (newRouter petstore None) (request "GET" "/pets?a=1 2 3")
         (Some (listing (array_parameter (Some "spaceDelimited"))))
       = Some (Normal parsed)
       /\ assoc "a" (pr_query parsed)
          = Some (VArr [VStr "1"; VStr "2"; VStr "3"]).
Proof.
  split; [reflexivity|]. split; [reflexivity|].
  apply (parseRequest_explode_false json_literals qs_flat no_cookies
           no_path_params (newRouter petstore None)
           (request "GET" "/pets?a=1 2 3")
           (listing (array_parameter (Some "spaceDelimited")))
           "a" "a=1 2 3" (VStr "1 2 3") (array_parameter (Some "spaceDelimited"))).
  - vm_compute. eauto.
  - intros k v p Hin _ Hp Hc. vm_compute in Hin. destruct Hin as [[= <- <-]|[]].
    vm_compute in Hp. injection Hp as <-. vm_compute in Hc. discriminate.
  - reflexivity.
  - discriminate.
  - reflexivity.
  - reflexivity.
  - reflexivity.
  - reflexivity.
  - reflexivity.
Defined.

(** C6, as stated, fails.  A request that carries its query as an object,
    with no query string in its path, keeps the entry as it is; and a
    parameter with [application/json] content is parsed as JSON whatever
    its [explode]. *)
Lemma parseRequest_explode_false_counterexample :
  (let req :=
     {| req_method := "GET"; req_path := "/pets"; req_headers := [];
        req_query := QObject [("a", VStr "1,2,3")]; req_body := VUndefined |} in
   let parameter := array_parameter (Some "form") in
   param_explode parameter = Some false
   /\ exists parsed,
        parseRequest json_literals qs_flat no_cookies no_path_params
          (newRouter petstore None) req (Some (listing parameter))
        = Some (Normal parsed)
        /\ assoc "a" (pr_query parsed) = Some (VStr "1,2,3"))
  /\ (let req := request "GET" "/pets?a=true" in
      param_explode json_parameter = Some false
      /\ get "a" (qs_flat true (Some "a=true")) = VStr "true"
      /\ exists parsed,
           parseRequest json_literals qs_flat no_cookies no_path_params
             (newRouter petstore None) req (Some (listing json_parameter))
           = Some (Normal parsed)
           /\ assoc "a" (pr_query parsed) = Some (VBool true)).
Proof.
  split.
  - split; [reflexivity|]. eexists. split; reflexivity.
  - split; [reflexivity|]. split; [reflexivity|]. eexists. split; reflexivity.
Qed.

(** ** [validateRequest]: a body that is not well-formed JSON *)

Section validate.
Variable JSON_parse : string -> jsval + string.
Variable qs_parse : bool -> option string -> list (string * jsval).
Variable cookie_parse : string -> list (string * jsval).
Variable bath_params : string -> string -> option (list (string * jsval)).
Variable router : OpenAPIRouter.
Variable requestValidators : string -> option (list (jsval -> list ValidationError)).

Lemma matchOperation_with_body (req : Request) (body : jsval) (strict : bool) :
  matchOperation router (with_body req body) strict
  = matchOperation router req strict.
Proof. reflexivity. Qed.

Lemma resolve_operation_with_body (req : Request) (body : jsval)
  (ref : OperationRef) :
  resolve_operation router (with_body req body) ref
  = resolve_operation router req ref.
Proof. reflexivity. Qed.

(** Whether [parseRequest] throws does not depend on the body. *)
Lemma parseRequest_with_body (req : Request) (body : jsval)
  (op : option Operation) :
  match parseRequest JSON_parse qs_parse cookie_parse bath_params router req op with
  | Some (Throw e) =>
      parseRequest JSON_parse qs_parse cookie_parse bath_params router
        (with_body req body) op = Some (Throw e)
  | Some (Normal _) =>
      exists parsed,
        parseRequest JSON_parse qs_parse cookie_parse bath_params router
          (with_body req body) op = Some (Normal parsed)
  | None =>
      parseRequest JSON_parse qs_parse cookie_parse bath_params router
        (with_body req body) op = None
  end.
Proof.
  unfold parseRequest. destruct op as [op|]; [|simpl; eauto].
  change (req_path (normalizeRequest (with_body req body)))
    with (req_path (normalizeRequest req)).
  destruct (normalizePath router _); [simpl|done].
  change (initial_query qs_parse (with_body req body))
    with (initial_query qs_parse req).
  change (req_path (with_body req body)) with (req_path req).
  destruct (mapM_completion _ _); eauto.
Qed.

(** C5: for a request whose body is present and not an object, validated
    against an operation whose only body format is [application/json], a
    body that [JSON.parse] rejects gives the result [valid = false] with the
    synthetic [parse] error at [#/requestBody] first among the errors.  And an
    exception thrown by the call is thrown whatever the body is: the
    malformed body is not what throws. *)
Theorem validateRequest_malformed_body (req : Request) (ref : OperationRef)
  (op : Operation) (message : string) :
  resolve_operation router req ref = Some (Normal op) ->
  typeof_object (req_body req) = false ->
  is_undefined (req_body req) = false ->
  payloadFormats op = ["application/json"] ->
  JSON_parse (to_string (req_body req)) = inr message ->
  (forall parsed validators,
     parseRequest JSON_parse qs_parse cookie_parse bath_params router req (Some op)
     = Some (Normal parsed) ->
     requestValidators (default "" (op_operationId op)) = Some validators ->
     exists rest,
       validateRequest JSON_parse qs_parse cookie_parse bath_params router
         requestValidators req ref
       = Some (Normal {| valid := false;
                         errors := Some (parse_error message :: rest) |})
       /\ ve_keyword (parse_error message) = "parse"
       /\ ve_schemaPath (parse_error message) = "#/requestBody")
  /\ (forall e body,
        validateRequest JSON_parse qs_parse cookie_parse bath_params router
          requestValidators req ref = Some (Throw e) ->
        validateRequest JSON_parse qs_parse cookie_parse bath_params router
          requestValidators (with_body req body) ref = Some (Throw e)).
Proof.
  intros Hop Hobj Hundef Hfmt Hparse. split.
  - intros parsed validators Hparsed Hvalidators.
    unfold validateRequest. rewrite Hop. cbn [mbind option_bind].
    rewrite Hparsed. cbn [mbind option_bind].
    rewrite Hvalidators. unfold body_errors.
    rewrite Hobj, Hundef, Hfmt, Hparse. simpl. eauto.
  - intros e body. unfold validateRequest.
    rewrite resolve_operation_with_body, Hop. cbn [mbind option_bind].
    pose proof (parseRequest_with_body req body (Some op)) as Hb.
    destruct (parseRequest _ _ _ _ _ req _) as [[parsed|e']|];
      cbn [mbind option_bind].
    + destruct (requestValidators _); [done|]. intros [= <-].
      destruct Hb as [parsed' ->]. done.
    + intros [= <-]. by rewrite Hb.
    + done.
Qed.

End validate.

Lemma validateRequest_malformed_body_witness :
  let req :=
    {| req_method := "POST"; req_path := "/pets"; req_headers := [];
       req_query := QUndefined; req_body := VStr "{oops" |} in
  resolve_operation (newRouter petstore None) req (Given creation)
  = Some (Normal creation)
  /\ json_literals (to_string (req_body req)) = inr "Unexpected token in JSON"
  /\ exists rest,
       validateRequest json_literals qs_flat no_cookies no_path_params
         (newRouter petstore None) (fun _ => Some [accept_all]) req
         (Given creation)
       = Some (Normal {| valid := false;
                         errors := Some (parse_error "Unexpected token in JSON"
                                         :: rest) |}).
Proof.
  cbv zeta. split; [reflexivity|]. split; [reflexivity|].
  destruct (validateRequest_malformed_body json_literals qs_flat no_cookies
              no_path_params (newRouter petstore None)
              (fun _ => Some [accept_all])
              {| req_method := "POST"; req_path := "/pets"; req_headers := [];
                 req_query := QUndefined; req_body := VStr "{oops" |}
              (Given creation) creation "Unexpected token in JSON"
              eq_refl eq_refl eq_refl eq_refl eq_refl) as [Hres _].
  destruct (Hres _ [accept_all] eq_refl eq_refl) as (rest & E & _).
  exists rest. exact E.
Defined.

(** ** The status matcher *)

Example findStatusCodeMatch_scenario :
  findStatusCodeMatch 400 status_sample = VStr "B"
  /\ findStatusCodeMatch 403 status_sample = VStr "E"
  /\ findStatusCodeMatch 402 status_sample = VStr "E"
  /\ findStatusCodeMatch 500 status_sample = VStr "D"
  /\ findStatusCodeMatch 23456
       (list_to_map [("1XX", VStr "100-199 codes"); ("2XX", VStr "200-299 codes");
                     ("3XX", VStr "300-399 codes")]) = VUndefined
  /\ findStatusCodeMatch 500
       (list_to_map [("200", VStr "OK"); ("500", VNull); ("201", VStr "Created")])
     = VNull.
Proof. repeat split; vm_compute; reflexivity. Qed.

(** C3, as stated, fails for a code outside 100..599: its exact key and its
    pattern key are not consulted. *)
Lemma findStatusCodeMatch_out_of_range :
  ({[ "600" := VStr "x" ]} : gmap string jsval) !! status_key 600
    = Some (VStr "x")
  /\ findStatusCodeMatch 600 {[ "600" := VStr "x" ]} = VUndefined
  /\ ({[ "6XX" := VStr "y" ]} : gmap string jsval) !! pattern_key 650
     = Some (VStr "y")
  /\ findStatusCodeMatch 650 {[ "6XX" := VStr "y" ]} = VUndefined.
Proof. repeat split; vm_compute; reflexivity. Qed.

(** C3, amended: for a code from 100 to 599, the value under the exact key
    when that key is present, whatever the value; otherwise the value under
    the pattern key, one of [1XX] .. [5XX], when present; otherwise the value
    under [default] when present; otherwise [undefined].  For any other
    code, the value under [default] when present, otherwise [undefined]. *)
Theorem findStatusCodeMatch_precedence (code : Z) (map : gmap string jsval) :
  let otherwise := default VUndefined (map !! "default") in
  ((100 <= code <= 599)%Z ->
   findStatusCodeMatch code map =
     match map !! status_key code, map !! pattern_key code with
     | Some v, _ => v
     | None, Some v => v
     | None, None => otherwise
     end
   /\ In (pattern_key code) ["1XX"; "2XX"; "3XX"; "4XX"; "5XX"])
  /\ (~ (100 <= code <= 599)%Z -> findStatusCodeMatch code map = otherwise).
Proof.
  cbv zeta. split.
  - intros Hr. split.
    + unfold findStatusCodeMatch.
      assert (((100 <=? code) && (code <=? 599))%Z = true) as ->.
      { apply andb_true_intro. split; apply Z.leb_le; lia. }
      by destruct (map !! status_key code).
    + unfold pattern_key.
      assert (code / 100 = 1 \/ code / 100 = 2 \/ code / 100 = 3
              \/ code / 100 = 4 \/ code / 100 = 5)%Z as Hd.
      { assert (1 <= code / 100 < 6)%Z; [|lia].
        split; [apply Z.div_le_lower_bound|apply Z.div_lt_upper_bound]; lia. }
      destruct Hd as [-> | [-> | [-> | [-> | ->]]]]; simpl; tauto.
  - intros Hr. unfold findStatusCodeMatch.
    assert (((100 <=? code) && (code <=? 599))%Z = false) as ->; [|done].
    apply andb_false_iff. rewrite !Z.leb_gt. lia.
Qed.

Lemma findStatusCodeMatch_precedence_witness :
  (100 <= 403 <= 599)%Z
  /\ findStatusCodeMatch 403 status_sample = VStr "E".
Proof.
  split; [lia|].
  destruct (findStatusCodeMatch_precedence 403 status_sample) as [Hin _].
  destruct (Hin ltac:(lia)) as [E _]. rewrite E. reflexivity.
Defined.

(** ** The dispatcher: security handlers *)

Section security.
Variable Context : Type.
Variable securityHandlers : gmap string (Context -> jsval).
Variable context : Context.

(** After the handlers have run, the result stored under a scheme name is
    what its handler returned. *)
Lemma stored_results (names : list string) (acc : gmap string jsval)
  (name : string) :
  fold_left
    (fun acc name => <[name := handler_result Context securityHandlers context name]> acc)
    names acc !! name
  = if decide (name ∈ names)
    then Some (handler_result Context securityHandlers context name)
    else acc !! name.
Proof.
  revert acc. induction names as [|n names IH]; intros acc; cbn [fold_left].
  - case_decide as Hin; [|done]. by apply not_elem_of_nil in Hin.
  - rewrite IH. destruct (decide (name ∈ names)) as [Hin|Hout].
    + rewrite decide_True; [done|]. by apply list_elem_of_further.
    + destruct (decide (n = name)) as [->|Hne].
      * rewrite decide_True by apply list_elem_of_here. apply lookup_insert_eq.
      * rewrite decide_False; [by apply lookup_insert_ne|].
        intros [?|?]%elem_of_cons; congruence.
Qed.

Lemma runSecurity_results (security : list SecurityRequirementObject)
  (requirement : SecurityRequirementObject) (name : string) :
  In requirement security -> In name (fst <$> requirement) ->
  results (runSecurity Context securityHandlers context security) !! name
  = Some (handler_result Context securityHandlers context name).
Proof.
  intros Hr Hn. unfold runSecurity. simpl. rewrite stored_results.
  rewrite decide_True; [done|]. apply list_elem_of_In, in_flat_map. eauto.
Qed.

(** C2: after the security handlers have run, [authorized] is true exactly
    when [security] is empty, or some requirement object has, for every one
    of its schemes, a registered handler that returns a truthy value on the
    context; and what is stored under a scheme of a requirement object is
    what its handler returns on the context, [undefined] when none is
    registered. *)
Theorem runSecurity_authorized (security : list SecurityRequirementObject) :
  (authorized (runSecurity Context securityHandlers context security) = true
   <-> security = []
       \/ exists requirement,
            In requirement security
            /\ forall name, In name (fst <$> requirement) ->
                 exists handler,
                   securityHandlers !! name = Some handler
                   /\ truthy (handler context) = true)
  /\ forall requirement name,
       In requirement security -> In name (fst <$> requirement) ->
       results (runSecurity Context securityHandlers context security) !! name
       = Some match securityHandlers !! name with
              | Some handler => handler context
              | None => VUndefined
              end.
Proof.
  split; [|intros requirement name Hin Hname; by erewrite runSecurity_results].
  assert (forall name,
            truthy (handler_result Context securityHandlers context name) = true
            <-> exists handler, securityHandlers !! name = Some handler
                                /\ truthy (handler context) = true) as Hh.
  { intros name. unfold handler_result.
    destruct (securityHandlers !! name) as [handler|].
    - split; [by eauto|]. by intros (? & [= <-] & ?).
    - split; [done|]. by intros (? & [=] & _). }
  destruct security as [|first rest] eqn:Es; [by split; [left|]|].
  rewrite <- Es.
  assert (authorized (runSecurity Context securityHandlers context security)
          = existsb
              (requirement_met
                 (results (runSecurity Context securityHandlers context security)))
              security) as ->.
  { unfold runSecurity. simpl. by rewrite Es. }
  rewrite existsb_exists. split.
  - intros (requirement & Hin & Hmet). right. exists requirement. split; [done|].
    intros name Hname. apply Hh. unfold requirement_met in Hmet.
    rewrite forallb_forall in Hmet. specialize (Hmet name Hname).
    by rewrite (runSecurity_results _ _ _ Hin Hname) in Hmet.
  - intros [Hnil|(requirement & Hin & Hall)]; [congruence|].
    exists requirement. split; [done|].
    unfold requirement_met. apply forallb_forall. intros name Hname.
    rewrite (runSecurity_results _ _ _ Hin Hname). simpl.
    by apply Hh, Hall.
Qed.

End security.

(** The security scenario of the design document: the handler of
    [basicAuth] returns [1], or [null]. *)
Example runSecurity_scenario :
  let run handler :=
    runSecurity unit {[ "basicAuth" := handler ]} tt [[("basicAuth", [])]] in
  authorized (run (fun _ => VNum 1)) = true
  /\ results (run (fun _ => VNum 1)) !! "basicAuth" = Some (VNum 1)
  /\ authorized (run (fun _ => VNull)) = false
  /\ authorized (runSecurity unit ∅ tt [[("basicAuth", [])]]) = false
  /\ results (runSecurity unit ∅ tt [[("basicAuth", [])]]) !! "basicAuth"
     = Some VUndefined
  /\ authorized (runSecurity unit ∅ tt []) = true.
Proof. repeat split; vm_compute; reflexivity. Qed.

(** ** The cycle breaker *)

Section decycle.
Variable h : gmap positive hobject.

Lemma unseen_mono (o1 o2 : gmap positive string) :
  o1 ⊆ o2 -> (size (unseen h o2) <= size (unseen h o1))%nat.
Proof.
  intros Hsub. apply subseteq_size. unfold unseen.
  apply subseteq_dom in Hsub. set_solver.
Qed.

Lemma unseen_insert (objects : gmap positive string) (l : positive)
  (path : string) (o : hobject) :
  h !! l = Some o -> objects !! l = None ->
  (size (unseen h (<[l := path]> objects)) < size (unseen h objects))%nat.
Proof.
  intros Hl Hno. apply subset_size. unfold unseen.
  assert (l ∈ dom h) as Hin by (apply elem_of_dom; eauto).
  assert (l ∉ dom objects) as Hout by by apply not_elem_of_dom.
  rewrite dom_insert_L. set_solver.
Qed.

Lemma derez_members_total rec (path : string)
  (members : list (string * hvalue)) (objects : gmap positive string) :
  returns rec objects ->
  exists cs o', derez_members rec path members objects = Some (cs, o')
                /\ objects ⊆ o'.
Proof.
  revert objects. induction members as [|[name element] rest IH];
    intros objects Hrec; simpl.
  - eauto.
  - destruct (Hrec objects element (path ++ "/" ++ name)) as (c & o1 & -> & H1);
      [done|]. simpl.
    destruct (IH o1) as (cs & o2 & -> & H2).
    + intros o v p Ho. apply Hrec. by etrans.
    + simpl. eexists _, _. split; [done|]. by etrans.
Qed.

(** With more fuel than there are unseen objects, [derez] returns. *)
Lemma derez_total (fuel : nat) (objects : gmap positive string) (v : hvalue)
  (path : string) :
  (size (unseen h objects) < fuel)%nat ->
  exists c o', derez fuel h objects v path = Some (c, o') /\ objects ⊆ o'.
Proof.
  revert objects v path.
  induction fuel as [|fuel IH]; intros objects v path Hfuel; [lia|].
  assert (forall l o members,
    h !! l = Some o -> objects !! l = None ->
    exists cs o', derez_members (derez fuel h) path members
                    (<[l := path]> objects) = Some (cs, o')
                  /\ objects ⊆ o') as Hmembers.
  { intros l o members Hl Hno.
    pose proof (unseen_insert objects l path o Hl Hno) as Hlt.
    destruct (derez_members_total (derez fuel h) path members
                (<[l := path]> objects)) as (cs & o' & E & Hsub).
    - intros o1 v1 p1 Ho1. apply IH.
      pose proof (unseen_mono _ _ Ho1). lia.
    - exists cs, o'. split; [done|]. etrans; [|done]. by apply insert_subseteq. }
  simpl. destruct v as [p|l]; [eauto|].
  destruct (h !! l) as [[elems|props|kind]|] eqn:Hl; [| |eauto|eauto].
  - destruct (objects !! l) as [old|] eqn:Ho; [eauto|].
    destruct (Hmembers l _ (indexed elems) Hl Ho) as (cs & o' & -> & Hsub).
    simpl. eauto.
  - destruct (objects !! l) as [old|] eqn:Ho; [eauto|].
    destruct (Hmembers l _ props Hl Ho) as (cs & o' & -> & Hsub).
    simpl. eauto.
Qed.

Lemma derez_members_sound rec (path : string)
  (members : list (string * hvalue)) (objects o' : gmap positive string)
  (cs : list (string * clone)) :
  (forall o v p c o2, rec o v p = Some (c, o2) -> Decycled h o v p c o2) ->
  derez_members rec path members objects = Some (cs, o') ->
  DecycledMembers h objects path members cs o'.
Proof.
  intros Hrec. revert objects cs.
  induction members as [|[name element] rest IH]; intros objects cs; simpl.
  - intros [= <- <-]. constructor.
  - destruct (rec objects element _) as [[c o1]|] eqn:E1; [simpl|done].
    destruct (derez_members rec path rest o1) as [[cs' o2]|] eqn:E2; [simpl|done].
    intros [= <- <-]. econstructor; eauto.
Qed.

(** What [derez] returns is the clone described in words. *)
Lemma derez_sound (fuel : nat) (objects o' : gmap positive string)
  (v : hvalue) (path : string) (c : clone) :
  derez fuel h objects v path = Some (c, o') -> Decycled h objects v path c o'.
Proof.
  revert objects o' v path c.
  induction fuel as [|fuel IH]; intros objects o' v path c; [done|]. simpl.
  destruct v as [p|l]; [intros [= <- <-]; constructor|].
  destruct (h !! l) as [[elems|props|kind]|] eqn:Hl.
  - destruct (objects !! l) as [old|] eqn:Ho.
    + intros [= <- <-]. apply Decycled_again; eauto.
    + destruct (derez_members _ _ _ _) as [[nu o2]|] eqn:E; [simpl|done].
      intros [= <- <-]. eapply Decycled_array; [done..|].
      eapply derez_members_sound; [|done]. intros. by apply IH.
  - destruct (objects !! l) as [old|] eqn:Ho.
    + intros [= <- <-]. apply Decycled_again; eauto.
    + destruct (derez_members _ _ _ _) as [[nu o2]|] eqn:E; [simpl|done].
      intros [= <- <-]. eapply Decycled_object; [done..|].
      eapply derez_members_sound; [|done]. intros. by apply IH.
  - intros [= <- <-]. by eapply Decycled_builtin.
  - intros [= <- <-]. by eapply Decycled_unknown.
Qed.

End decycle.

Scheme Decycled_mutual := Induction for Decycled Sort Prop
  with DecycledMembers_mutual := Induction for DecycledMembers Sort Prop.

(** The description determines the clone. *)
Lemma Decycled_deterministic (h : gmap positive hobject)
  (seen : gmap positive string) (v : hvalue) (path : string) (c : clone)
  (seen' : gmap positive string) :
  Decycled h seen v path c seen' ->
  forall c2 seen2, Decycled h seen v path c2 seen2 -> c2 = c /\ seen2 = seen'.
Proof.
  intros H.
  induction H using Decycled_mutual with
    (P0 := fun seen path members cs seen' _ =>
             forall cs2 seen2, DecycledMembers h seen path members cs2 seen2 ->
                               cs2 = cs /\ seen2 = seen').
  all: inversion 1; simplify_eq; try done; naive_solver.
Qed.

Section decycle_properties.
Variable h : gmap positive hobject.

Lemma leaves_passed_array (cs : list clone) :
  leaves_passed h (CArray cs) <-> Forall (leaves_passed h) cs.
Proof.
  simpl. induction cs as [|c cs IH].
  - split; [constructor|done].
  - rewrite Forall_cons, <- IH. done.
Qed.

Lemma leaves_passed_object (props : list (string * clone)) :
  leaves_passed h (CObject props) <-> Forall (leaves_passed h) (snd <$> props).
Proof.
  simpl. induction props as [|[k c] props IH].
  - split; [constructor|done].
  - rewrite fmap_cons, Forall_cons, <- IH. done.
Qed.

Lemma DecycledMembers_keys (seen seen' : gmap positive string) (path : string)
  (members : list (string * hvalue)) (cs : list (string * clone)) :
  DecycledMembers h seen path members cs seen' -> fst <$> cs = fst <$> members.
Proof.
  induction 1; [done|]. simpl. by f_equal.
Qed.

(** The clone shares no array or object with the input, and a path once
    recorded for an object is kept. *)
Lemma Decycled_leaves (seen : gmap positive string) (v : hvalue)
  (path : string) (c : clone) (seen' : gmap positive string) :
  Decycled h seen v path c seen' -> leaves_passed h c /\ seen ⊆ seen'.
Proof.
  intros H.
  induction H using Decycled_mutual with
    (P0 := fun seen path members cs seen' _ =>
             Forall (leaves_passed h) (snd <$> cs) /\ seen ⊆ seen').
  - done.
  - simpl. by rewrite e.
  - simpl. by rewrite e.
  - done.
  - destruct IHDecycled as [IH1 IH2]. split; [by apply leaves_passed_array|].
    etrans; [|done]. by apply insert_subseteq.
  - destruct IHDecycled as [IH1 IH2]. split; [by apply leaves_passed_object|].
    etrans; [|done]. by apply insert_subseteq.
  - split; [constructor|done].
  - destruct IHDecycled as [IH1 IH2]. destruct IHDecycled0 as [IH3 IH4].
    split; [by constructor|by etrans].
Qed.

Lemma pointer_snoc (names : list string) (name : string) :
  pointer (names ++ [name]) = pointer names ++ "/" ++ name.
Proof. unfold pointer. by rewrite fold_left_app. Qed.

End decycle_properties.

(** ** Positions *)

Lemma precedes_nil_r (p : list nat) : precedes p [] = false.
Proof. by destruct p. Qed.

Lemma precedes_irrefl (p : list nat) : precedes p p = false.
Proof.
  induction p as [|a p IH]; simpl; [done|].
  by rewrite Nat.ltb_irrefl, IH, andb_false_r.
Qed.

Lemma precedes_extend (p : list nat) (i : nat) (r : list nat) :
  precedes p (p ++ i :: r) = true.
Proof.
  induction p as [|a p IH]; simpl; [done|].
  rewrite Nat.eqb_refl, IH. apply orb_true_r.
Qed.

Lemma precedes_app (q p r : list nat) :
  precedes q p = true -> precedes q (p ++ r) = true.
Proof.
  revert q. induction p as [|a p IH]; intros q; [by rewrite precedes_nil_r|].
  destruct q as [|i q]; simpl; [done|].
  intros [H|[H1 H2]%andb_prop]%orb_prop; [by rewrite H|].
  rewrite H1, (IH _ H2). apply orb_true_r.
Qed.

Lemma precedes_next (q p : list nat) (k : nat) :
  precedes q (p ++ [k]) = true -> precedes q (p ++ [S k]) = true.
Proof.
  revert q. induction p as [|a p IH]; intros q; destruct q as [|i q]; simpl;
    try done.
  - rewrite precedes_nil_r, andb_false_r, orb_false_r. intros H%Nat.ltb_lt.
    apply orb_true_intro. left. apply Nat.ltb_lt. lia.
  - intros [H|[H1 H2]%andb_prop]%orb_prop; [by rewrite H|].
    rewrite H1, (IH _ H2). apply orb_true_r.
Qed.

Lemma precedes_sibling (p : list nat) (k : nat) (r : list nat) :
  precedes (p ++ k :: r) (p ++ [S k]) = true.
Proof.
  induction p as [|a p IH]; simpl.
  - apply orb_true_intro. left. apply Nat.ltb_lt. lia.
  - rewrite Nat.eqb_refl, IH. apply orb_true_r.
Qed.

Section positions.
Variable h : gmap positive hobject.

Lemma walk_app (v : hvalue) (p r : list nat) (names rs : list string)
  (w t : hvalue) :
  walk h v p = Some (names, w) -> walk h w r = Some (rs, t) ->
  walk h v (p ++ r) = Some ((names ++ rs)%list, t).
Proof.
  revert v names. induction p as [|i p IH]; intros v names; simpl.
  - by intros [= <- <-].
  - destruct v as [|l]; [done|].
    destruct (h !! l) as [o|]; [simpl|done].
    destruct (nth_member o i) as [[name e]|]; [simpl|done].
    destruct (walk h e p) as [[ns t0]|] eqn:E; [simpl|done].
    intros [= <- <-] Hr. by rewrite (IH _ _ E Hr).
Qed.

Lemma walk_member (l : positive) (o : hobject) (i : nat) (name : string)
  (e : hvalue) :
  h !! l = Some o -> nth_member o i = Some (name, e) ->
  walk h (HRef l) [i] = Some ([name], e).
Proof.
  intros Hl Hm. cbn [walk]. rewrite Hl. cbn [mbind option_bind].
  by rewrite Hm.
Qed.

Lemma walk_cons (l : positive) (o : hobject) (i : nat) (name : string)
  (e : hvalue) (r : list nat) (rs : list string) (t : hvalue) :
  h !! l = Some o -> nth_member o i = Some (name, e) ->
  walk h e r = Some (rs, t) ->
  walk h (HRef l) (i :: r) = Some (name :: rs, t).
Proof.
  intros Hl Hm Hr. cbn [walk]. rewrite Hl. cbn [mbind option_bind].
  rewrite Hm. cbn [mbind option_bind]. by rewrite Hr.
Qed.

Lemma copy_of_container (l : positive) (o : hobject) (t : clone) :
  h !! l = Some o -> copy_of o t -> container h l.
Proof. intros Hl Hc. unfold container. rewrite Hl. by destruct o. Qed.

End positions.

Lemma lookup_indexed (elems : list hvalue) (j : nat) (m : string * hvalue) :
  indexed elems !! j = Some m <-> nth_member (HArray elems) j = Some m.
Proof. unfold indexed. simpl. by rewrite list_lookup_imap. Qed.

Section cloned.
Variable h : gmap positive hobject.
Variable root : hvalue.

(** What the traversal records and returns, in terms of positions: [F]
    gives the positions behind the paths of [seen]. *)
Lemma Decycled_positions (seen : gmap positive string) (v : hvalue)
  (path : string) (c : clone) (seen' : gmap positive string) :
  Decycled h seen v path c seen' ->
  forall (F : gmap positive (list nat)) (position : list nat)
         (names : list string),
    seen = path_at h root <$> F ->
    walk h root position = Some (names, v) ->
    path = pointer names ->
    (forall l q, F !! l = Some q ->
       precedes q position = true
       /\ exists ns, walk h root q = Some (ns, HRef l)) ->
    exists F',
      F ⊆ F'
      /\ seen' = path_at h root <$> F'
      /\ (forall l q, F' !! l = Some q -> F !! l = None ->
            exists r rs o t,
              q = (position ++ r)%list
              /\ walk h v r = Some (rs, HRef l)
              /\ clone_walk c r = Some (rs, t)
              /\ h !! l = Some o /\ copy_of o t)
      /\ forall Ffin, F' ⊆ Ffin -> Cloned h root Ffin position v c.
Proof.
  intros H.
  induction H using Decycled_mutual with
    (P0 := fun seen path ms cs seen' _ =>
       forall (F : gmap positive (list nat)) (position : list nat)
              (names : list string) (l : positive) (o : hobject) (k : nat),
         seen = path_at h root <$> F ->
         walk h root position = Some (names, HRef l) ->
         h !! l = Some o ->
         path = pointer names ->
         (forall j m, ms !! j = Some m -> nth_member o (k + j) = Some m) ->
         (forall l' q, F !! l' = Some q ->
            precedes q (position ++ [k]) = true
            /\ exists ns, walk h root q = Some (ns, HRef l')) ->
         exists F',
           F ⊆ F'
           /\ seen' = path_at h root <$> F'
           /\ (forall l' q, F' !! l' = Some q -> F !! l' = None ->
                 exists j name e c1 r rs o' t,
                   ms !! j = Some (name, e) /\ cs !! j = Some (name, c1)
                   /\ q = (position ++ (k + j) :: r)%list
                   /\ walk h e r = Some (rs, HRef l')
                   /\ clone_walk c1 r = Some (rs, t)
                   /\ h !! l' = Some o' /\ copy_of o' t)
           /\ forall Ffin, F' ⊆ Ffin ->
                forall j name e name' c1,
                  ms !! j = Some (name, e) -> cs !! j = Some (name', c1) ->
                  Cloned h root Ffin (position ++ [k + j]) e c1).
  - (* a primitive *)
    intros F position names -> Hw -> HF. exists F.
    split; [done|]. split; [done|]. split; [intros; congruence|].
    intros Ffin _. by constructor.
  - (* a builtin object *)
    intros F position names -> Hw -> HF. exists F.
    split; [done|]. split; [done|]. split; [intros; congruence|].
    intros Ffin _. constructor. simpl. by rewrite e.
  - (* a reference to nothing *)
    intros F position names -> Hw -> HF. exists F.
    split; [done|]. split; [done|]. split; [intros; congruence|].
    intros Ffin _. constructor. simpl. by rewrite e.
  - (* an array or object met again *)
    intros F position names -> Hw -> HF. exists F.
    split; [done|]. split; [done|]. split; [intros; congruence|].
    intros Ffin Hfin. rewrite lookup_fmap in e.
    destruct (F !! l) as [q|] eqn:Fl; [|done]. injection e as <-.
    destruct (HF l q Fl) as (Hq & ns & Hns).
    unfold path_at, ref_to. rewrite Hns.
    apply Cloned_ref with (earlier := q); [|by eapply lookup_weaken|done..].
    unfold container. by destruct o as [[? ->]|[? ->]].
  - (* an array met for the first time *)
    intros F position names -> Hw -> HF.
    rewrite lookup_fmap in e0.
    destruct (F !! l) as [q0|] eqn:Fl; [done|]. clear e0.
    destruct (IHDecycled (<[l := position]> F) position names l (HArray elems) 0%nat)
      as (F' & Hsub & -> & Hnew & Hcl).
    + rewrite fmap_insert. unfold path_at at 2. by rewrite Hw.
    + done.
    + done.
    + done.
    + intros j m Hj. by apply lookup_indexed.
    + intros l' q [[-> <-]|[Hne Hq]]%lookup_insert_Some.
      * split; [apply precedes_extend|eauto].
      * destruct (HF l' q Hq) as [Hp Hocc]. split; [by apply precedes_app|done].
    + assert (F' !! l = Some position) as Hl.
      { eapply lookup_weaken; [|done]. apply lookup_insert_eq. }
      pose proof (DecycledMembers_keys h _ _ _ _ _ d) as Hkeys.
      assert (length (snd <$> nu) = length elems) as Hlen.
      { apply (f_equal length) in Hkeys. rewrite !length_fmap in Hkeys.
        unfold indexed in Hkeys. rewrite length_imap in Hkeys.
        by rewrite length_fmap. }
      exists F'. split; [etrans; [|done]; by apply insert_subseteq|].
      split; [done|]. split.
      * intros l' q Hq Hno. destruct (decide (l' = l)) as [->|Hne].
        -- rewrite Hl in Hq. injection Hq as <-.
           exists [], [], (HArray elems), (CArray (snd <$> nu)).
           rewrite app_nil_r. done.
        -- destruct (Hnew l' q Hq) as (j & name & e1 & c1 & r & rs & o' & t
                                       & Hj & Hcj & -> & Hwr & Hcr & Ho' & Hcopy).
           { by rewrite lookup_insert_ne. }
           exists (j :: r), (name :: rs), o', t.
           split; [done|]. split.
           { apply walk_cons with (o := HArray elems) (e := e1); [done| |done].
             by apply lookup_indexed. }
           split; [|done]. simpl.
           rewrite list_lookup_fmap, Hcj. simpl.
           unfold indexed in Hj. rewrite list_lookup_imap in Hj.
           destruct (elems !! j); [|done]. injection Hj as <- _.
           by rewrite Hcr.
      * intros Ffin Hfin.
        apply Cloned_array with (elems := elems);
          [done|exact (lookup_weaken _ _ _ _ Hl Hfin)|done|].
        intros i e1 c1 Hi Hci. rewrite list_lookup_fmap in Hci.
        destruct (nu !! i) as [[name' c1']|] eqn:Hn; [|done].
        injection Hci as ->.
        apply (Hcl Ffin Hfin i (pretty i) e1 name' c1); [|done].
        unfold indexed. by rewrite list_lookup_imap, Hi.
  - (* an object met for the first time *)
    intros F position names -> Hw -> HF.
    rewrite lookup_fmap in e0.
    destruct (F !! l) as [q0|] eqn:Fl; [done|]. clear e0.
    destruct (IHDecycled (<[l := position]> F) position names l (HObject props) 0%nat)
      as (F' & Hsub & -> & Hnew & Hcl).
    + rewrite fmap_insert. unfold path_at at 2. by rewrite Hw.
    + done.
    + done.
    + done.
    + by intros j m Hj.
    + intros l' q [[-> <-]|[Hne Hq]]%lookup_insert_Some.
      * split; [apply precedes_extend|eauto].
      * destruct (HF l' q Hq) as [Hp Hocc]. split; [by apply precedes_app|done].
    + assert (F' !! l = Some position) as Hl.
      { eapply lookup_weaken; [|done]. apply lookup_insert_eq. }
      pose proof (DecycledMembers_keys h _ _ _ _ _ d) as Hkeys.
      exists F'. split; [etrans; [|done]; by apply insert_subseteq|].
      split; [done|]. split.
      * intros l' q Hq Hno. destruct (decide (l' = l)) as [->|Hne].
        -- rewrite Hl in Hq. injection Hq as <-.
           exists [], [], (HObject props), (CObject nu).
           rewrite app_nil_r. done.
        -- destruct (Hnew l' q Hq) as (j & name & e1 & c1 & r & rs & o' & t
                                       & Hj & Hcj & -> & Hwr & Hcr & Ho' & Hcopy).
           { by rewrite lookup_insert_ne. }
           exists (j :: r), (name :: rs), o', t.
           split; [done|]. split.
           { by apply walk_cons with (o := HObject props) (e := e1). }
           split; [|done]. simpl. rewrite Hcj. simpl. by rewrite Hcr.
      * intros Ffin Hfin.
        apply Cloned_object with (props := props);
          [done|exact (lookup_weaken _ _ _ _ Hl Hfin)|done|].
        intros i name e1 name' c1 Hi Hci.
        by apply (Hcl Ffin Hfin i name e1 name' c1).
  - (* no member left *)
    intros F position names l o k -> Hw Ho -> Hms HF. exists F.
    split; [done|]. split; [done|]. split; [intros; congruence|].
    intros Ffin _ j name e name' c1 Hj. done.
  - (* a member, then the others *)
    intros F position names l o k -> Hw Ho -> Hms HF.
    assert (nth_member o k = Some (name, element)) as Hk.
    { rewrite <- (Nat.add_0_r k). by apply Hms. }
    assert (walk h root (position ++ [k]) = Some ((names ++ [name])%list, element))
      as Hwk.
    { eapply walk_app; [done|]. by eapply walk_member. }
    destruct (IHDecycled F (position ++ [k])%list (names ++ [name])%list)
      as (F1 & Hsub1 & -> & Hnew1 & Hcl1); [done|done| |done|].
    { by rewrite pointer_snoc. }
    assert (forall l' q, F1 !! l' = Some q ->
              precedes q (position ++ [S k]) = true
              /\ exists ns, walk h root q = Some (ns, HRef l')) as HF1.
    { intros l' q Hq. destruct (F !! l') as [q0|] eqn:Fl.
      - assert (q = q0) as ->.
        { pose proof (lookup_weaken _ _ _ _ Fl Hsub1). congruence. }
        destruct (HF l' q0 Fl) as [Hp Hocc]. split; [by apply precedes_next|done].
      - destruct (Hnew1 l' q Hq Fl) as (r & rs & o' & t & -> & Hwr & _).
        split.
        + rewrite <- app_assoc. apply precedes_sibling.
        + eexists. by eapply walk_app. }
    destruct (IHDecycled0 F1 position names l o (S k))
      as (F2 & Hsub2 & -> & Hnew2 & Hcl2); [done|done|done|done| |done|].
    { intros j m Hj. rewrite Nat.add_succ_l, <- Nat.add_succ_r. by apply Hms. }
    exists F2. split; [by etrans|]. split; [done|]. split.
    + intros l' q Hq Hno. destruct (F1 !! l') as [q1|] eqn:F1l.
      * assert (q = q1) as ->.
        { pose proof (lookup_weaken _ _ _ _ F1l Hsub2). congruence. }
        destruct (Hnew1 l' q1 F1l Hno) as (r & rs & o' & t & -> & Hwr & Hcr
                                           & Ho' & Hcopy).
        exists 0%nat, name, element, c, r, rs, o', t.
        rewrite Nat.add_0_r, <- app_assoc. done.
      * destruct (Hnew2 l' q Hq F1l) as (j & name1 & e1 & c1 & r & rs & o' & t
                                         & Hj & Hcj & -> & Hwr & Hcr & Ho' & Hcopy).
        exists (S j), name1, e1, c1, r, rs, o', t.
        rewrite Nat.add_succ_r. done.
    + intros Ffin Hfin [|j] name1 e1 name1' c1 Hj Hcj; simpl in Hj, Hcj.
      * injection Hj as <- <-. injection Hcj as <- <-.
        rewrite Nat.add_0_r. apply Hcl1. by etrans.
      * rewrite Nat.add_succ_r. by apply (Hcl2 Ffin Hfin j name1 e1 name1' c1).
Qed.

End cloned.

(** ** Pointers *)

Lemma plain_name_char_cases (c : ascii) :
  plain_name_char c = true ->
  Ascii.eqb c "~" = false /\ Ascii.eqb c "/" = false.
Proof.
  destruct c as [[] [] [] [] [] [] [] []]; vm_compute; intuition congruence.
Qed.

Lemma escape_plain (name : string) : plain_name name = true -> escape name = name.
Proof.
  induction name as [|c r IH]; [done|]. cbn [plain_name escape].
  intros [Hc Hr]%andb_prop.
  destruct (plain_name_char_cases c Hc) as [-> ->]. by rewrite (IH Hr).
Qed.

(** The path written for names that need no escaping is their pointer. *)
Lemma pointer_plain (names : list string) :
  Forall (fun name => plain_name name = true) names ->
  pointer names = json_pointer names.
Proof.
  unfold pointer, json_pointer. generalize "#".
  induction names as [|name names IH]; intros acc Hnames; [done|].
  apply Forall_cons in Hnames as [Hname Hnames]. cbn [fold_left].
  by rewrite (escape_plain name Hname), IH.
Qed.

(** ** The clone *)

(** What [decycle] returns, with the positions of the copies. *)
Lemma decycle_cloned (h : gmap positive hobject) (object : hvalue) :
  exists c seen first,
    derez (S (size h)) h ∅ object "#" = Some (c, seen)
    /\ Decycled h ∅ object "#" c seen
    /\ seen = path_at h object <$> first
    /\ Cloned h object first [] object c
    /\ forall l position, first !! l = Some position ->
         exists names o t,
           walk h object position = Some (names, HRef l)
           /\ clone_walk c position = Some (names, t)
           /\ h !! l = Some o /\ copy_of o t.
Proof.
  destruct (derez_total h (S (size h)) ∅ object "#") as (c & seen & E & _).
  { unfold unseen. rewrite dom_empty_L, difference_empty_L, size_dom. lia. }
  pose proof (derez_sound h _ _ _ _ _ _ E) as Hc.
  destruct (Decycled_positions h object _ _ _ _ _ Hc ∅ [] [])
    as (first & _ & Hseen & Hnew & Hcl).
  - by rewrite fmap_empty.
  - done.
  - done.
  - intros l q Hq. by rewrite lookup_empty in Hq.
  - exists c, seen, first. split; [done|]. split; [done|]. split; [done|].
    split; [by apply Hcl|].
    intros l position Hl.
    destruct (Hnew l position Hl (lookup_empty _))
      as (r & rs & o & t & -> & Hw & Hcw & Ho & Hcopy).
    by exists rs, o, t.
Qed.



(** A self-reference, a shared object, and a recursive schema. *)
Example decycle_samples :
  let ref path := CObject [("$ref", CValue (HPrim (PStr path)))] in
  decycle self_loop (HRef 1) = Some (CObject [("self", ref "#")])
  /\ decycle shared_pair (HRef 1)
     = Some (CArray [CObject [("n", CValue (HPrim (PNum 1)))]; ref "#/0"])
  /\ decycle node_schema (HRef 1)
     = Some (CObject
               [("type", CValue (HPrim (PStr "object")));
                ("properties",
                  CObject
                    [("children",
                       CObject [("type", CValue (HPrim (PStr "array")));
                                ("items", ref "#")])]);
                ("examples", CArray [CValue (HRef 5); ref "#"])]).
Proof. repeat split; vm_compute; reflexivity. Qed.

(** * Further properties of the router *)

(** ** String lemmas *)

Lemma strip_leading_app (p : ascii -> bool) (s : string) (c : ascii) (t : string) :
  p c = false ->
  strip_leading p (s ++ String c t) = strip_leading p s ++ String c t.
Proof.
  intros Hc. induction s as [|d s IH]; simpl; [by rewrite Hc|].
  by destruct (p d).
Qed.

Lemma strip_trailing_app (p : ascii -> bool) (x y : string) (d : ascii) (y' : string) :
  strip_trailing p y = String d y' ->
  strip_trailing p (x ++ y) = x ++ String d y'.
Proof.
  intros Hy. induction x as [|c x IH]; simpl; [done|].
  rewrite IH. by destruct x.
Qed.

Lemma strip_trailing_snoc (p : ascii -> bool) (x : string) (c : ascii) :
  p c = true -> strip_trailing p (x ++ String c "") = strip_trailing p x.
Proof.
  intros Hc. induction x as [|d x IH]; simpl; [by rewrite Hc|].
  by rewrite IH.
Qed.

Lemma before_app (c : ascii) (x t : string) :
  contains c x = false -> before c (x ++ String c t) = x.
Proof.
  induction x as [|d x IH]; simpl; [by rewrite Ascii.eqb_refl|].
  intros [H1 H2]%orb_false_elim. rewrite H1. by rewrite IH.
Qed.

Lemma contains_app (c : ascii) (x y : string) :
  contains c (x ++ y) = contains c x || contains c y.
Proof.
  induction x as [|d x IH]; simpl; [done|]. by rewrite IH, orb_assoc.
Qed.

(** A path without trailing white space is trimmed by its leading part
    only. *)
Lemma trim_no_trailing (p : string) :
  ends_with is_ws p = false -> trim p = strip_leading is_ws p.
Proof.
  intros H. unfold trim. apply strip_trailing_fixed.
  destruct (ends_with_strip_leading is_ws is_ws p) as [-> | ->]; done.
Qed.

(** The query string takes no part in the normalized path. *)
Lemma normalize_path_query (p q : string) :
  contains "?" p = false -> ends_with is_ws p = false ->
  normalize_path_string (p ++ String "?" q) = normalize_path_string p.
Proof.
  intros Hq Hws. unfold normalize_path_string. do 3 f_equal.
  rewrite (trim_no_trailing p Hws).
  rewrite (before_fixed "?" (strip_leading is_ws p))
    by by apply contains_strip_leading.
  unfold trim. rewrite strip_leading_app by done.
  destruct (strip_trailing_head is_ws "?" q eq_refl) as [q' Hq'].
  rewrite (strip_trailing_app _ _ _ _ _ Hq').
  apply before_app. by apply contains_strip_leading.
Qed.

(** A trailing slash takes no part in the normalized path. *)
Lemma normalize_path_slash (p : string) :
  contains "?" p = false -> ends_with is_ws p = false ->
  normalize_path_string (p ++ "/") = normalize_path_string p.
Proof.
  intros Hq Hws. unfold normalize_path_string. do 2 f_equal.
  rewrite (trim_no_trailing p Hws).
  rewrite (before_fixed "?" (strip_leading is_ws p))
    by by apply contains_strip_leading.
  unfold trim. rewrite strip_leading_app by done.
  destruct (strip_trailing_head is_ws "/" "" eq_refl) as [q' Hq'].
  simpl in Hq'. injection Hq' as <-.
  rewrite (strip_trailing_app is_ws _ "/" "/" "") by done.
  rewrite before_fixed.
  - by apply strip_trailing_snoc.
  - rewrite contains_app. simpl. rewrite orb_false_r.
    by apply contains_strip_leading.
Qed.

(** ** What [matchOperation] does not look at *)

(** X1.  [matchOperation] reads the method up to letter case and
    surrounding white space, and the path up to a trailing slash and a query
    string: for a path [p] without ["?"] that does not end in white space,
    the requests for [p], for [p/] and for [p?q] are matched alike, under
    the method as given or in lower case. *)
Theorem matchOperation_insensitive (r : OpenAPIRouter) (m p q : string)
  (h : list (string * jsval)) (qy : Query) (b : jsval) (strict : bool) :
  contains "?" p = false -> ends_with is_ws p = false ->
  let res := matchOperation r (mkRequest m p h qy b) strict in
  matchOperation r (mkRequest (toLowerCase (trim m)) p h qy b) strict = res
  /\ matchOperation r (mkRequest m (p ++ "/") h qy b) strict = res
  /\ matchOperation r (mkRequest m (p ++ String "?" q) h qy b) strict = res.
Proof.
  intros Hq Hws. unfold matchOperation, normalizeRequest.
  cbn [req_path req_method].
  rewrite normalize_method_idem, normalize_path_slash, normalize_path_query
    by done.
  done.
Qed.

Lemma matchOperation_insensitive_witness :
  let r := newRouter petstore None in
  matchOperation r (request "get" "/pets") true
  = matchOperation r (request " GET " "/pets") true
  /\ matchOperation r (request " GET " "/pets/") true
     = matchOperation r (request " GET " "/pets") true
  /\ matchOperation r (request " GET " "/pets?limit=10") true
     = matchOperation r (request " GET " "/pets") true.
Proof.
  exact (matchOperation_insensitive (newRouter petstore None) " GET " "/pets"
           "limit=10" [] QUndefined VUndefined true eq_refl eq_refl).
Defined.

(** ** Strict and lenient matching *)

(** With plain [apiRoot] and templates, [matchOperation] returns or
    throws one of the two routing errors. *)
Lemma matchOperation_plain_outcomes (r : OpenAPIRouter) (req : Request)
  (strict : bool) :
  plain_router r ->
  (exists op, matchOperation r req strict = Some (Normal (Some op)))
  \/ (matchOperation r req strict
      = Some (if strict then Throw err404 else Normal None))
  \/ (matchOperation r req strict
      = Some (if strict then Throw err405 else Normal None)).
Proof.
  intros [Hroot Hplain]. unfold matchOperation.
  destruct (negb (startsWith _ _)); [by auto|].
  destruct (normalizePath_plain r (req_path (normalizeRequest req)) Hroot)
    as [p ->]. simpl.
  destruct (find_method _ (filter _ _)) as [op|]; [by eauto|].
  rewrite matchTemplates_plain by done.
  destruct (List.filter _ _); [by auto|].
  destruct (find_method _ _); [by eauto|by auto].
Qed.

(** X2.  For a router with plain [apiRoot] and templates, the [strict] flag
    only decides how a failure is reported: either both calls return the
    same operation, or the strict call throws one of the two routing errors
    and the lenient call returns [undefined]. *)
Theorem matchOperation_strict_lenient (r : OpenAPIRouter) (req : Request) :
  plain_router r ->
  (exists op,
     matchOperation r req true = Some (Normal (Some op))
     /\ matchOperation r req false = Some (Normal (Some op)))
  \/ (exists e,
        matchOperation r req true = Some (Throw e)
        /\ (e = err404 \/ e = err405)
        /\ matchOperation r req false = Some (Normal None)).
Proof.
  intros [Hroot Hplain]. unfold matchOperation.
  destruct (negb (startsWith _ _)); [right; exists err404; by auto|].
  destruct (normalizePath_plain r (req_path (normalizeRequest req)) Hroot)
    as [p ->]. simpl.
  destruct (find_method _ (filter _ _)) as [op|]; [by eauto|].
  rewrite !matchTemplates_plain by done.
  destruct (List.filter _ _); [right; exists err404; by auto|].
  destruct (find_method _ _); [by eauto|right; exists err405; by auto].
Qed.

Lemma matchOperation_strict_lenient_witness :
  let r := newRouter petstore None in
  plain_router r
  /\ matchOperation r (request "PATCH" "/pets") true = Some (Throw err405)
  /\ matchOperation r (request "PATCH" "/pets") false = Some (Normal None).
Proof.
  cbv zeta.
  assert (plain_router (newRouter petstore None)) as Hplain.
  { apply plain_router_check. vm_compute. reflexivity. }
  split; [exact Hplain|]. split; [reflexivity|].
  destruct (matchOperation_strict_lenient (newRouter petstore None)
              (request "PATCH" "/pets") Hplain)
    as [(op & H1 & _)|(e & _ & _ & H2)].
  - vm_compute in H1. discriminate.
  - exact H2.
Defined.

(** ** The operation returned *)

Lemma getOperations_method (r : OpenAPIRouter) (op : Operation) :
  In op (getOperations r) -> In (op_method op) http_methods.
Proof.
  unfold getOperations. intros ([path item] & _ & Hop)%in_flat_map.
  apply in_map_iff in Hop as ([method oo] & <- & Hm). simpl.
  apply list_elem_of_In in Hm. unfold picked_methods in Hm.
  apply list_elem_of_omap in Hm as ([m o] & Hin & Ho).
  destruct o as [o|]; [|done]. simpl in Ho. injection Ho as -> ->.
  apply list_elem_of_In in Hin. simpl in Hin. unfold http_methods. simpl.
  repeat (destruct Hin as [[= <- _]|Hin]; [tauto|]). done.
Qed.

Lemma matchOperation_found (r : OpenAPIRouter) (req : Request) (strict : bool)
  (op : Operation) :
  matchOperation r req strict = Some (Normal (Some op)) ->
  In op (getOperations r)
  /\ op_method op = toLowerCase (trim (req_method req))
  /\ startsWith (normalize_path_string (req_path req)) (apiRoot r) = true.
Proof.
  unfold matchOperation. cbn [normalizeRequest req_path req_method].
  destruct (startsWith _ _); cbn [negb]; [|destruct strict; intros [=]].
  destruct (normalizePath r _) as [p|]; [|done]. cbn [mbind option_bind].
  destruct (find_method _ (filter _ _)) as [o|] eqn:E.
  - intros [= ->]. apply find_first_In in E as [Hin Hm].
    apply list_elem_of_In, list_elem_of_filter in Hin as [_ Hin].
    by apply list_elem_of_In in Hin.
  - intros H. apply matchTemplates_passes in H. simpl in H. revert H.
    destruct (List.filter _ _) eqn:F; [destruct strict; intros [=]|].
    destruct (find_method _ (orderBy_desc _ _)) as [o'|] eqn:E';
      [|destruct strict; intros [=]].
    intros [= Heq]. rewrite Heq. apply find_first_In in E' as [Hin Hm].
    apply orderBy_desc_In in Hin. rewrite <- F in Hin.
    apply filter_In in Hin as [Hin _]. done.
Qed.

(** X3.  For a router with plain [apiRoot] and templates, [matchOperation]
    returns or throws, and it returns only operations of the document, and
    only under the method of the request in lower case, for a path inside
    [apiRoot]; a request whose method is not one of the eight methods of a
    path item is never given an operation. *)
Theorem matchOperation_returns_declared (r : OpenAPIRouter) (req : Request)
  (strict : bool) :
  plain_router r ->
  exists res,
    matchOperation r req strict = Some res
    /\ forall op, res = Normal (Some op) ->
         In op (getOperations r)
         /\ op_method op = toLowerCase (trim (req_method req))
         /\ In (toLowerCase (trim (req_method req))) http_methods
         /\ startsWith (normalize_path_string (req_path req)) (apiRoot r) = true.
Proof.
  intros Hplain.
  assert (exists res, matchOperation r req strict = Some res) as [res Hres].
  { destruct (matchOperation_plain_outcomes r req strict Hplain)
      as [[op ->]|[->| ->]]; eauto. }
  exists res. split; [done|]. intros op ->.
  apply matchOperation_found in Hres as (Hin & Hm & Hroot).
  split; [done|]. split; [done|]. split; [|done].
  rewrite <- Hm. by eapply getOperations_method.
Qed.

Lemma matchOperation_returns_declared_witness :
  let r := newRouter petstore None in
  plain_router r
  /\ exists op,
       matchOperation r (request "DELETE" "/pets/7") true = Some (Normal (Some op))
       /\ In op (getOperations r) /\ op_method op = "delete".
Proof.
  cbv zeta.
  assert (plain_router (newRouter petstore None)) as Hplain.
  { apply plain_router_check. vm_compute. reflexivity. }
  split; [exact Hplain|].
  destruct (matchOperation_returns_declared (newRouter petstore None)
              (request "DELETE" "/pets/7") true Hplain) as (res & Hres & H).
  vm_compute in Hres. injection Hres as <-.
  eexists. split; [reflexivity|].
  destruct (H _ eq_refl) as (H1 & H2 & _).
  split; [exact H1|exact H2].
Defined.

Lemma startsWith_slash (x : string) :
  startsWith x "/" = false
  <-> match x with "" => True | String c _ => is_slash c = false end.
Proof.
  destruct x as [|c x]; [done|]. unfold startsWith, is_slash.
  destruct c as [[] [] [] [] [] [] [] []], x; vm_compute; intuition congruence.
Qed.

(** ** Requests already in normal form *)

(** X4.  The requests [normalizeRequest] leaves alone are those whose
    method is trimmed and in lower case and whose path is a ["/"] followed
    by a text that does not begin or end with a slash, holds no ["?"] and
    does not end in white space. *)
Theorem normalizeRequest_fixed_points (req : Request) :
  normalizeRequest req = req <->
  toLowerCase (trim (req_method req)) = req_method req
  /\ exists x, req_path req = String "/" x
       /\ startsWith x "/" = false
       /\ contains "?" x = false
       /\ ends_with is_slash x = false
       /\ ends_with is_ws x = false.
Proof.
  destruct req as [m p h qy b]. unfold normalizeRequest. simpl. split.
  - intros [= Hm Hp]. split; [done|].
    pose proof (normalize_path_no_query p) as Hq.
    pose proof (normalize_path_shape p) as Hs.
    assert (ends_with is_ws (normalize_path_string p) = false) as Hw.
    { destruct (ends_with is_ws (normalize_path_string p)) eqn:W; [|done].
      pose proof (normalize_path_shrinks p W) as L. rewrite !Hp in L. lia. }
    assert (exists x, normalize_path_string p = String "/" x
                      /\ startsWith x "/" = false) as (x & Hx & Hx1).
    { unfold normalize_path_string. eexists. split; [done|].
      apply startsWith_slash, strip_leading_head. }
    rewrite Hx in Hq, Hs, Hw. rewrite Hp in Hx. exists x.
    split; [done|]. split; [done|]. simpl in Hq. split; [done|].
    destruct x as [|c x]; [done|]. split; [|done].
    destruct Hs as [Hs|Hs]; [done|]. done.
  - intros (Hm & x & -> & Hx1 & Hq & Hs & Hw). f_equal; [done|].
    unfold normalize_path_string.
    assert (trim (String "/" x) = String "/" x) as ->.
    { unfold trim. simpl strip_leading. apply strip_trailing_fixed.
      by destruct x. }
    rewrite before_fixed by done. f_equal.
    destruct x as [|c x]; [done|].
    rewrite (strip_trailing_fixed is_slash (String "/" (String c x))) by done.
    apply startsWith_slash in Hx1. simpl. by rewrite Hx1.
Qed.

(** ** Mounting a document under [apiRoot] *)

Lemma strip_atoms_prefix (root rest : string) :
  strip_atoms (map ALit (list_ascii_of_string root)) (root ++ rest)
  = Some (Some rest).
Proof. induction root as [|c root IH]; simpl; [done|]. by rewrite Ascii.eqb_refl. Qed.

Lemma startsWith_app (root rest : string) : startsWith (root ++ rest) root = true.
Proof.
  unfold startsWith. induction root as [|c root IH]; [by destruct rest|].
  change (String c root ++ rest) with (String c (root ++ rest)).
  cbn [String.prefix]. by destruct (ascii_dec c c).
Qed.

(** X5.  Matching under a root is matching without the root, and the
    root is cut off as a run of characters, not of path segments.  For a
    plain [apiRoot] and a normalized path [apiRoot ++ rest], the router
    mounted at [apiRoot] gives the request what the router of the same
    document mounted at ["/"] gives the request for ["/"] followed by
    [rest] without its leading slash, if it has one: under ["/api"], both
    ["/api/pets"] and ["/apipets"] are matched as ["/pets"]. *)
Theorem matchOperation_mounted (def : Document) (root rest m : string)
  (h : list (string * jsval)) (qy : Query) (b : jsval) (strict : bool) :
  let relative :=
    String "/" match rest with String "/" t => t | _ => rest end in
  plain_string root = true ->
  normalize_path_string (root ++ rest) = root ++ rest ->
  normalize_path_string relative = relative ->
  matchOperation (mkRouter def root) (mkRequest m (root ++ rest) h qy b) strict
  = matchOperation (mkRouter def "/") (mkRequest m relative h qy b) strict.
Proof.
  intros relative Hplain Hfull Hrest.
  assert (exists t, relative = String "/" t /\ startsWith t "/" = false)
    as (t & Et & Ht).
  { exists (strip_leading is_slash
              (strip_trailing is_slash (before "?" (trim relative)))).
    split; [by rewrite <- Hrest at 1|].
    apply startsWith_slash, strip_leading_head. }
  unfold matchOperation, normalizeRequest. cbn [req_path req_method apiRoot].
  rewrite Hfull, Hrest, startsWith_app. cbn [negb].
  assert (normalizePath (mkRouter def root) (root ++ rest) = Some relative)
    as ->.
  { unfold normalizePath. cbn [apiRoot].
    rewrite (RegExp_atoms_plain_string _ Hplain). simpl.
    by rewrite strip_atoms_prefix. }
  rewrite Et.
  assert (normalizePath (mkRouter def "/") (String "/" t)
          = Some (String "/" t)) as ->.
  { unfold normalizePath. simpl. destruct t as [|c t]; [done|].
    apply startsWith_slash in Ht. unfold is_slash in Ht.
    apply Ascii.eqb_neq in Ht. destruct (ascii_dec c "/"); [done|].
    destruct c as [[] [] [] [] [] [] [] []]; done. }
  assert (startsWith (String "/" t) "/" = true) as ->.
  { unfold startsWith. by destruct t. }
  reflexivity.
Qed.

Lemma matchOperation_mounted_witness :
  matchOperation (mkRouter petstore "/api") (request "GET" "/api/pets/7") true
  = matchOperation (mkRouter petstore "/") (request "GET" "/pets/7") true
  /\ matchOperation (mkRouter petstore "/api") (request "GET" "/apipets") true
     = matchOperation (mkRouter petstore "/") (request "GET" "/pets") true.
Proof.
  split.
  - exact (matchOperation_mounted petstore "/api" "/pets/7" "GET" [] QUndefined
             VUndefined true eq_refl eq_refl eq_refl).
  - exact (matchOperation_mounted petstore "/api" "pets" "GET" [] QUndefined
             VUndefined true eq_refl eq_refl eq_refl).
Defined.

(** ** Templates and slashes *)

Lemma count_char_app (c : ascii) (x y : string) :
  count_char c (x ++ y) = (count_char c x + count_char c y)%nat.
Proof. induction x as [|d x IH]; simpl; [done|]. rewrite IH. lia. Qed.

Lemma count_char_absent (c : ascii) (x : string) :
  contains c x = false -> count_char c x = 0%nat.
Proof.
  induction x as [|d x IH]; simpl; [done|].
  intros [-> H]%orb_false_elim. by rewrite IH.
Qed.

Lemma string_length_app (x y : string) :
  String.length (x ++ y) = (String.length x + String.length y)%nat.
Proof. induction x as [|c x IH]; simpl; [done|]. by rewrite IH. Qed.

Lemma template_match_counts (ts : list token) (s : string) :
  template_match ts s ->
  let literal :=
    fold_right
      (fun t acc =>
         match t with TChar c => String c acc | TPlaceholder => "" ++ acc end)
      "" ts in
  count_char "/" s = count_char "/" literal
  /\ (String.length literal <= String.length s)%nat.
Proof.
  induction 1 as [|c ts s H [IH1 IH2]|seg ts s Hne Hc H [IH1 IH2]]; simpl.
  - done.
  - rewrite IH1. split; [done|]. simpl in IH2. lia.
  - change ("" ++ ?x) with x. simpl in IH2.
    rewrite count_char_app, (count_char_absent _ _ Hc), IH1.
    split; [done|]. rewrite string_length_app. lia.
Qed.

(** X6.  A placeholder never spans a slash: when the test built from a
    plain template accepts a path, the path has as many slashes as the
    template has outside its placeholders, and is at least as long as the
    template without its placeholders. *)
Theorem template_test_slashes (p : string) (op : Operation) :
  plain_template (op_path op) = true ->
  template_test p op = Some true ->
  count_char "/" p = count_char "/" (replace_placeholders "" (op_path op))
  /\ (specificity op <= String.length p)%nat.
Proof.
  intros Hplain Ht. rewrite template_test_plain in Ht by done.
  injection Ht as Ht. apply template_matchb_spec in Ht.
  apply template_match_counts in Ht. done.
Qed.

Lemma template_test_slashes_witness :
  let op := flatten_operation petstore "/pets/{id}/owner" 
              {| pi_get := None; pi_put := None; pi_post := None;
                 pi_delete := None; pi_options := None; pi_head := None;
                 pi_patch := None; pi_trace := None; pi_parameters := None |}
              "get" (operation "getOwnerByPetId") in
  count_char "/" "/pets/7/owner" = 3%nat /\ (specificity op <= 13)%nat.
Proof.
  exact (template_test_slashes "/pets/7/owner"
           (flatten_operation petstore "/pets/{id}/owner"
              {| pi_get := None; pi_put := None; pi_post := None;
                 pi_delete := None; pi_options := None; pi_head := None;
                 pi_patch := None; pi_trace := None; pi_parameters := None |}
              "get" (operation "getOwnerByPetId")) eq_refl eq_refl).
Defined.

(** ** Looking an operation up by its id *)

(** [getOperation] returns the first operation of the document, in the
    order of [getOperations], that bears the id, and [undefined] exactly
    when no operation bears it. *)
Lemma getOperation_cases (r : OpenAPIRouter) (operationId : string) :
  match getOperation r operationId with
  | Some op =>
      exists i,
        first_at (fun o => op_operationId o = Some operationId)
          (getOperations r) i op
  | None =>
      forall op, In op (getOperations r) -> op_operationId op <> Some operationId
  end.
Proof.
  unfold getOperation.
  destruct (find_first _ _) as [op|] eqn:E.
  - by apply find_first_Some in E.
  - exact (proj1 (find_first_None _ _) E).
Qed.

(** ** One operation for each path and method *)

Lemma NoDup_fst_functional {A B : Type} (l : list (A * B)) (x : A) (y1 y2 : B) :
  NoDup (fst <$> l) -> (x, y1) ∈ l -> (x, y2) ∈ l -> y1 = y2.
Proof.
  intros Hnd [i Hi]%list_elem_of_lookup [j Hj]%list_elem_of_lookup.
  assert (i = j) as ->; [|congruence].
  eapply NoDup_lookup; [exact Hnd| |].
  - by rewrite list_lookup_fmap, Hi.
  - by rewrite list_lookup_fmap, Hj.
Qed.

Lemma picked_methods_distinct (item : PathItemObject) :
  NoDup (fst <$> picked_methods item).
Proof.
  unfold picked_methods.
  assert (forall l : list (string * option OperationObject),
            NoDup (fst <$> l) ->
            NoDup (fst <$> omap (fun '(m, o) => pair m <$> o) l)) as Hsub.
  { induction l as [|[m [o|]] l IH]; [done| |].
    - rewrite fmap_cons. cbn [fst]. intros [Hm Hl]%NoDup_cons.
      change (NoDup (m :: (fst <$> omap (fun '(m, o) => pair m <$> o) l))).
      apply NoDup_cons. split; [|by apply IH].
      intros ([m' o'] & -> & Hin)%list_elem_of_fmap.
      apply list_elem_of_omap in Hin as ([m'' o''] & Hin & Ho).
      destruct o'' as [o''|]; [|done]. simpl in Ho. injection Ho as -> ->.
      apply Hm. apply list_elem_of_fmap. by exists (m', Some o').
    - rewrite fmap_cons. intros [_ Hl]%NoDup_cons. by apply IH. }
  apply Hsub. simpl. apply (bool_decide_unpack _). by vm_compute.
Qed.



(** * Further properties of the request parser *)

(** ** Objects as lists of entries *)

Lemma assoc_assign {A : Type} (k k' : string) (v : A) (l : list (string * A)) :
  assoc k' (assign k v l) = if String.eqb k' k then Some v else assoc k' l.
Proof.
  induction l as [|[k0 v0] l IH]; simpl.
  - by destruct (String.eqb k' k).
  - destruct (String.eqb k k0) eqn:E; simpl.
    + apply String.eqb_eq in E as <-. by destruct (String.eqb k' k).
    + rewrite IH. destruct (String.eqb k' k0) eqn:E'; [|done].
      apply String.eqb_eq in E' as ->. rewrite String.eqb_sym in E.
      by rewrite E.
Qed.

Lemma assign_keys {A : Type} (k : string) (v : A) (l : list (string * A)) :
  fst <$> assign k v l
  = if bool_decide (k ∈ fst <$> l) then fst <$> l else ((fst <$> l) ++ [k])%list.
Proof.
  induction l as [|[k0 v0] l IH]; [done|]. cbn [assign].
  destruct (String.eqb k k0) eqn:E; rewrite !fmap_cons; cbn [fst].
  - apply String.eqb_eq in E as <-.
    rewrite bool_decide_eq_true_2 by set_solver. done.
  - apply String.eqb_neq in E. rewrite IH.
    destruct (bool_decide (k ∈ fst <$> l)) eqn:B.
    + apply bool_decide_eq_true in B.
      rewrite bool_decide_eq_true_2 by set_solver. done.
    + apply bool_decide_eq_false in B.
      rewrite bool_decide_eq_false_2 by set_solver. done.
Qed.

Lemma assoc_app {A : Type} (k : string) (l1 l2 : list (string * A)) :
  assoc k (l1 ++ l2)%list
  = match assoc k l1 with Some v => Some v | None => assoc k l2 end.
Proof.
  induction l1 as [|[k0 v0] l1 IH]; simpl; [done|].
  by destruct (String.eqb k k0).
Qed.

Section mapKeys.
Context {A : Type} (f : string -> string).

Lemma mapKeys_from_assoc (o acc : list (string * A)) (k : string) :
  assoc k (fold_left (fun acc '(k, v) => assign (f k) v acc) o acc)
  = match assoc k (rev (renamed f o)) with
    | Some v => Some v
    | None => assoc k acc
    end.
Proof.
  revert acc. induction o as [|[k0 v0] o IH]; intros acc; simpl; [done|].
  rewrite IH, assoc_app, assoc_assign. simpl.
  destruct (assoc k (rev (renamed f o))); [done|].
  by destruct (String.eqb k (f k0)).
Qed.

Lemma mapKeys_from_keys (o acc : list (string * A)) :
  NoDup (fst <$> acc) ->
  let res := fold_left (fun acc '(k, v) => assign (f k) v acc) o acc in
  NoDup (fst <$> res)
  /\ forall k, k ∈ fst <$> res -> k ∈ fst <$> acc \/ exists k0, k0 ∈ fst <$> o /\ k = f k0.
Proof.
  revert acc. induction o as [|[k0 v0] o IH]; intros acc Hacc; simpl.
  - split; [done|]. auto.
  - destruct (IH (assign (f k0) v0 acc)) as [H1 H2].
    + rewrite assign_keys. case_bool_decide; [done|].
      apply NoDup_app. split; [done|]. split; [|apply NoDup_singleton].
      intros x Hx ->%list_elem_of_singleton. done.
    + split; [done|]. intros k Hk. destruct (H2 k Hk) as [Hin|(k1 & Hk1 & ->)].
      * rewrite assign_keys in Hin. case_bool_decide; [by left|].
        apply elem_of_app in Hin as [Hin| ->%list_elem_of_singleton]; [by left|].
        right. exists k0. split; [set_solver|done].
      * right. exists k1. split; [set_solver|done].
Qed.

End mapKeys.

Lemma mapM_completion_keys (f : string * jsval -> completion (string * jsval))
  (l l' : list (string * jsval)) :
  (forall k v e, f (k, v) = Normal e -> fst e = k) ->
  mapM_completion f l = Normal l' -> fst <$> l' = fst <$> l.
Proof.
  intros Hkey. revert l'.
  induction l as [|[k v] l IH]; intros l'; cbn [mapM_completion].
  - by intros [= <-].
  - destruct (f (k, v)) as [e|] eqn:E; [|done].
    destruct (mapM_completion f l) as [r'|]; [|done]. intros [= <-].
    rewrite !fmap_cons. by rewrite (Hkey _ _ _ E), (IH r' eq_refl).
Qed.

Lemma mapM_completion_throw {A B : Type} (f : A -> completion B) (l : list A)
  (e : string) :
  mapM_completion f l = Throw e -> exists x, In x l /\ f x = Throw e.
Proof.
  induction l as [|x l IH]; simpl; [done|].
  destruct (f x) as [y|e'] eqn:E.
  - destruct (mapM_completion f l) as [r'|e']; [done|]. intros [= <-].
    destruct (IH eq_refl) as (x' & Hin & Hx). eauto.
  - intros [= <-]. eauto.
Qed.

Section parse_more.
Variable JSON_parse : string -> jsval + string.
Variable qs_parse : bool -> option string -> list (string * jsval).
Variable cookie_parse : string -> list (string * jsval).
Variable bath_params : string -> string -> option (list (string * jsval)).

(** X8.  Header names are read without regard to letter case: in the parsed
    request the header names are in lower case and pairwise distinct, and
    the value under a name is the value of the last header of the request
    that has this name in lower case. *)
Theorem parseRequest_headers (r : OpenAPIRouter) (req : Request)
  (operation : option Operation) (parsed : ParsedRequest) :
  parseRequest JSON_parse qs_parse cookie_parse bath_params r req operation
  = Some (Normal parsed) ->
  NoDup (fst <$> pr_headers parsed)
  /\ (forall name, name ∈ fst <$> pr_headers parsed -> toLowerCase name = name)
  /\ (forall name,
        assoc name (pr_headers parsed)
        = assoc name (rev (renamed toLowerCase (req_headers req)))).
Proof.
  intros H.
  assert (pr_headers parsed = mapKeys toLowerCase (req_headers req)) as ->.
  { unfold parseRequest in H. destruct operation as [op|].
    - destruct (normalizePath r _); [|done]. simpl in H.
      destruct (mapM_completion _ _); [|done]. by injection H as <-.
    - by injection H as <-. }
  unfold mapKeys.
  destruct (mapKeys_from_keys toLowerCase (req_headers req) [] (NoDup_nil_2))
    as [H1 H2].
  split; [done|]. split.
  - intros name Hname. destruct (H2 name Hname) as [Hin|(k0 & _ & ->)].
    + by apply elem_of_nil in Hin.
    + apply toLowerCase_idem.
  - intros name. rewrite mapKeys_from_assoc. simpl.
    by destruct (assoc name _).
Qed.

(** X9.  The style loop of [parseRequest] rewrites values only: the parsed
    query has the keys of the query before the loop, in the same order; an
    entry that names no query parameter of the operation, and an entry with
    a falsy value, are returned as they were. *)
Theorem parseRequest_query_entries (r : OpenAPIRouter) (req : Request)
  (op : Operation) (parsed : ParsedRequest) :
  parseRequest JSON_parse qs_parse cookie_parse bath_params r req (Some op)
  = Some (Normal parsed) ->
  fst <$> pr_query parsed = fst <$> initial_query qs_parse req
  /\ forall name value,
       assoc name (initial_query qs_parse req) = Some value ->
       find_parameter name "query" (op_parameters op) = None
       \/ truthy value = false ->
       assoc name (pr_query parsed) = Some value.
Proof.
  unfold parseRequest. destruct (normalizePath r _); [|done]. simpl.
  destruct (mapM_completion _ _) as [q'|] eqn:E; [|done]. intros [= <-]. simpl.
  split.
  - eapply mapM_completion_keys; [|exact E].
    intros k v e. apply style_query_entry_key.
  - intros name value Hv Hcase.
    refine (mapM_completion_assoc _ _ _ _ value _
              (style_query_entry_key JSON_parse qs_parse op _) _ E Hv).
    unfold style_query_entry. destruct (truthy value); [|done].
    destruct Hcase as [-> | ?]; done.
Qed.

(** X10.  With a plain [apiRoot], [parseRequest] returns or throws, and it
    throws for one reason only: the query holds a truthy entry for a query
    parameter of the operation declared with [application/json] content, and
    its text is not JSON; the error is the one of [JSON.parse].  Without an
    operation it does not throw. *)
Theorem parseRequest_throws (r : OpenAPIRouter) (req : Request)
  (operation : option Operation) :
  plain_string (apiRoot r) = true ->
  exists res,
    parseRequest JSON_parse qs_parse cookie_parse bath_params r req operation
    = Some res
    /\ forall e, res = Throw e ->
         exists op name value parameter,
           operation = Some op
           /\ In (name, value) (initial_query qs_parse req)
           /\ truthy value = true
           /\ find_parameter name "query" (op_parameters op) = Some parameter
           /\ has_json_content parameter = true
           /\ JSON_parse (to_string value) = inr e.
Proof.
  intros Hroot. unfold parseRequest. destruct operation as [op|].
  2: { eexists. split; [done|]. by intros e [=]. }
  destruct (normalizePath_plain r (req_path (normalizeRequest req)) Hroot)
    as [p ->]. simpl.
  eexists. split; [done|]. intros e.
  destruct (mapM_completion _ _) as [q'|e'] eqn:E; [done|]. intros [= <-].
  apply mapM_completion_throw in E as ([name value] & Hin & Hthrow).
  exists op, name, value. unfold style_query_entry in Hthrow.
  destruct (truthy value) eqn:Tv; [|done].
  destruct (find_parameter name "query" _) as [parameter|] eqn:Ep; [|done].
  exists parameter.
  destruct (has_json_content parameter) eqn:Ec.
  - destruct (JSON_parse (to_string value)) as [j|msg] eqn:Ej; [done|].
    injection Hthrow as ->. done.
  - destruct (split_second _ _); [|done]. by destruct (_ && _).
Qed.

End parse_more.

Lemma parseRequest_headers_witness :
  exists parsed,
    parseRequest json_literals qs_flat no_cookies no_path_params
      (newRouter petstore None)
      {| req_method := "GET"; req_path := "/pets";
         req_headers := [("Accept", VStr "text/html"); ("X-Id", VStr "1");
                         ("ACCEPT", VStr "application/json")];
         req_query := QUndefined; req_body := VUndefined |} None
    = Some (Normal parsed)
    /\ (fst <$> pr_headers parsed) = ["accept"; "x-id"]
    /\ assoc "accept" (pr_headers parsed) = Some (VStr "application/json").
Proof.
  eexists. split; [reflexivity|]. split; [reflexivity|].
  exact (proj2 (proj2 (parseRequest_headers json_literals qs_flat no_cookies
                         no_path_params (newRouter petstore None) _ None _
                         eq_refl)) "accept").
Defined.

Lemma parseRequest_query_entries_witness :
  exists parsed,
    parseRequest json_literals qs_flat no_cookies no_path_params
      (newRouter petstore None) (request "GET" "/pets?b=1,2&a=1,2")
      (Some (listing (array_parameter None)))
    = Some (Normal parsed)
    /\ (fst <$> pr_query parsed) = ["b"; "a"]
    /\ assoc "b" (pr_query parsed) = Some (VStr "1,2").
Proof.
  eexists. split; [reflexivity|]. split; [reflexivity|].
  exact (proj2 (parseRequest_query_entries json_literals qs_flat no_cookies
                  no_path_params (newRouter petstore None)
                  (request "GET" "/pets?b=1,2&a=1,2")
                  (listing (array_parameter None)) _ eq_refl)
           "b" (VStr "1,2") eq_refl (or_introl eq_refl)).
Defined.

Lemma parseRequest_throws_witness :
  plain_string (apiRoot (newRouter petstore None)) = true
  /\ parseRequest json_literals qs_flat no_cookies no_path_params
       (newRouter petstore None) (request "GET" "/pets?a=yes")
       (Some (listing json_parameter))
     = Some (Throw "Unexpected token in JSON")
  /\ exists value,
       In ("a", value) (initial_query qs_flat (request "GET" "/pets?a=yes"))
       /\ json_literals (to_string value) = inr "Unexpected token in JSON".
Proof.
  split; [reflexivity|]. split; [reflexivity|].
  destruct (parseRequest_throws json_literals qs_flat no_cookies no_path_params
              (newRouter petstore None) (request "GET" "/pets?a=yes")
              (Some (listing json_parameter)) eq_refl) as (res & Hres & H).
  vm_compute in Hres. injection Hres as <-.
  destruct (H _ eq_refl)
    as (op & name & value & parameter & Hop & Hin & _ & _ & _ & Hj).
  exists value. split; [|exact Hj].
  vm_compute in Hin. destruct Hin as [[= <- <-]|[]]. vm_compute. by left.
Defined.

(** ** The delimiters of a query string *)

Lemma replace_char_gone (c : ascii) (t s : string) :
  contains c t = false -> contains c (replace_char c t s) = false.
Proof.
  intros Ht. induction s as [|d s IH]; simpl; [done|].
  destruct (Ascii.eqb d c) eqn:E.
  - rewrite contains_app. by rewrite Ht, IH.
  - simpl. by rewrite E, IH.
Qed.

Section replace3.
Variables a b c : ascii.
Hypothesis Ha : Ascii.eqb "," a = false.
Hypothesis Hb : Ascii.eqb "," b = false.
Hypothesis Hc : Ascii.eqb "," c = false.

(** The cases of [replace3]. *)
Lemma replace3_cons (x : ascii) (s : string) :
  replace3 a b c "," (String x s)
  = if starts3 a b c (String x s)
    then match s with
         | String _ (String _ r) => String "," (replace3 a b c "," r)
         | _ => ""
         end
    else String x (replace3 a b c "," s).
Proof.
  destruct s as [|y [|z r]]; simpl.
  - done.
  - by rewrite andb_false_r.
  - by destruct (_ && _ && _).
Qed.

(** The replacement writes a comma or keeps the first character. *)
Lemma replace3_head (d : ascii) (s : string) :
  Ascii.eqb "," d = false ->
  starts1 d (replace3 a b c "," s) = true -> starts1 d s = true.
Proof.
  intros Hd. destruct s as [|x s]; [done|]. rewrite replace3_cons.
  destruct (starts3 a b c (String x s)); [|done].
  destruct s as [|y [|z r]]; [done..|]. cbn [starts1]. by rewrite Hd.
Qed.

Lemma replace3_gone (s : string) :
  occurs3 a b c (replace3 a b c "," s) = false.
Proof.
  remember (String.length s) as n eqn:En. revert s En.
  induction n as [n IH] using lt_wf_ind. intros s ->.
  destruct s as [|x s]; [done|].
  assert (forall t, (String.length t <= String.length s)%nat ->
                    occurs3 a b c (replace3 a b c "," t) = false) as IH'.
  { intros t Ht. eapply IH; [|done]. simpl. lia. }
  rewrite replace3_cons. destruct (starts3 a b c (String x s)) eqn:E.
  - destruct s as [|y [|z r]]; [done..|]. cbn [occurs3].
    rewrite IH' by (simpl; lia). rewrite orb_false_r.
    destruct (replace3 a b c "," r) as [|u v]; [done|].
    cbn [starts3]. by rewrite Ha.
  - cbn [occurs3]. rewrite IH' by done. rewrite orb_false_r.
    destruct (starts3 a b c (String x (replace3 a b c "," s))) eqn:E'; [|done].
    exfalso. cbn [starts3] in E'.
    destruct (replace3 a b c "," s) as [|y r] eqn:Er; [done|].
    apply andb_prop in E' as [[Hx Hy]%andb_prop Hr].
    assert (starts1 b s = true) as Hs.
    { apply replace3_head; [done|]. by rewrite Er. }
    destruct s as [|y' s]; [done|]. cbn [starts1] in Hs.
    rewrite replace3_cons in Er.
    destruct (starts3 a b c (String y' s)) eqn:E2.
    + destruct s as [|? [|? ?]]; try done. injection Er as <- _.
      by rewrite Hb in Hy.
    + injection Er as <- <-. apply replace3_head in Hr; [|done].
      cbn [starts3] in E. by rewrite Hx, Hs, Hr in E.
Qed.

Lemma replace3_contains (d : ascii) (s : string) :
  Ascii.eqb "," d = false -> contains d s = false ->
  contains d (replace3 a b c "," s) = false.
Proof.
  intros Hd. remember (String.length s) as n eqn:En. revert s En.
  induction n as [n IH] using lt_wf_ind. intros s -> Hs.
  destruct s as [|x s]; [done|]. rewrite replace3_cons.
  cbn [contains] in Hs. apply orb_false_elim in Hs as [Hx Hs].
  destruct (starts3 a b c (String x s)).
  - destruct s as [|y [|z r]]; [done..|]. cbn [contains]. rewrite Hd.
    cbn [orb]. eapply IH; [|done|]; [simpl; lia|].
    cbn [contains] in Hs. apply orb_false_elim in Hs as [_ Hs].
    by apply orb_false_elim in Hs as [_ Hs].
  - cbn [contains]. rewrite Hx. cbn [orb]. eapply IH; [|done|done]. simpl. lia.
Qed.

End replace3.

(** X27.  The rewriting of the query string for comma parsing leaves no
    delimiter of the style behind: for [spaceDelimited] neither a blank nor
    [%20] is left, for [pipeDelimited] neither a [|] nor [%7C]; for any
    other style the query string is taken as it is. *)
Theorem comma_query_string_delimiters (style : option string)
  (queryString : string) :
  let rewritten := comma_query_string style queryString in
  (style = Some "spaceDelimited" ->
   contains " " rewritten = false /\ occurs3 "%" "2" "0" rewritten = false)
  /\ (style = Some "pipeDelimited" ->
      contains "|" rewritten = false /\ occurs3 "%" "7" "C" rewritten = false)
  /\ (style <> Some "spaceDelimited" -> style <> Some "pipeDelimited" ->
      rewritten = queryString).
Proof.
  unfold comma_query_string. cbv zeta. split; [|split].
  - intros ->. repeat case_decide; try done. split.
    + apply replace3_contains; [done|]. by apply replace_char_gone.
    + by apply replace3_gone.
  - intros ->. repeat case_decide; try done. split.
    + apply replace3_contains; [done|]. by apply replace_char_gone.
    + by apply replace3_gone.
  - intros H1 H2. by repeat case_decide.
Qed.

Example comma_query_string_samples :
  comma_query_string (Some "spaceDelimited") "a=1 2%203" = "a=1,2,3"
  /\ comma_query_string (Some "pipeDelimited") "a=1|2%7C3%7c4" = "a=1,2,3%7c4"
  /\ comma_query_string (Some "form") "a=1 2|3" = "a=1 2|3".
Proof. repeat split; reflexivity. Qed.

(** * Further properties of the request validator *)

Section validate_more.
Variable JSON_parse : string -> jsval + string.
Variable qs_parse : bool -> option string -> list (string * jsval).
Variable cookie_parse : string -> list (string * jsval).
Variable bath_params : string -> string -> option (list (string * jsval)).
Variable router : OpenAPIRouter.
Variable requestValidators : string -> option (list (jsval -> list ValidationError)).

Lemma resolve_operation_throws (req : Request) (ref : OperationRef) (e : string) :
  resolve_operation router req ref = Some (Throw e) -> e = "Unknown operation".
Proof.
  unfold resolve_operation.
  destruct (match ref with ByMatching => _ | _ => _ end) as [[op|]|];
    cbn [mbind option_bind]; [| |done].
  - destruct (op_operationId op) as [id|]; [destruct (String.eqb id "")|];
      by intros [= <-].
  - by intros [= <-].
Qed.

(** The three ways in which [validateRequest] throws. *)
Lemma validateRequest_throw_cases (req : Request) (ref : OperationRef) (e : string) :
  validateRequest JSON_parse qs_parse cookie_parse bath_params router
    requestValidators req ref = Some (Throw e) ->
  (e = "Unknown operation"
   /\ resolve_operation router req ref = Some (Throw "Unknown operation"))
  \/ exists op,
       resolve_operation router req ref = Some (Normal op)
       /\ (parseRequest JSON_parse qs_parse cookie_parse bath_params router
             req (Some op) = Some (Throw e)
           \/ (e = "TypeError: validators is not iterable"
               /\ requestValidators (default "" (op_operationId op)) = None)).
Proof.
  unfold validateRequest.
  destruct (resolve_operation router req ref) as [[op|e']|] eqn:R;
    cbn [mbind option_bind]; [| |done].
  - destruct (parseRequest _ _ _ _ _ _ _) as [[parsed|e']|] eqn:P;
      cbn [mbind option_bind]; [| |done].
    + destruct (requestValidators _) eqn:V; [done|]. intros [= <-].
      right. exists op. split; [done|]. right. split; [done|]. exact V.
    + intros [= <-]. right. exists op. split; [done|]. left. exact P.
  - intros [= <-]. left. apply resolve_operation_throws in R as E. by subst e'.
Qed.

(** With plain [apiRoot] and templates, [validateRequest] returns or
    throws. *)
Lemma validateRequest_plain_returns (req : Request) (ref : OperationRef) :
  plain_router router ->
  is_Some (validateRequest JSON_parse qs_parse cookie_parse bath_params router
             requestValidators req ref).
Proof.
  intros Hplain. pose proof Hplain as [Hroot _].
  assert (is_Some (resolve_operation router req ref)) as [resolved Hr].
  { unfold resolve_operation.
    destruct (matchOperation_nonstrict_returns router req Hplain) as [o ->].
    cbn [mbind option_bind].
    destruct ref as [|id|op]; [done| |done].
    by destruct (String.eqb id ""). }
  unfold validateRequest. rewrite Hr. cbn [mbind option_bind].
  destruct resolved as [op|e]; [|done].
  unfold parseRequest.
  destruct (normalizePath_plain router (req_path (normalizeRequest req)) Hroot)
    as [p ->]. done.
Qed.

(** X11.  For a router with plain [apiRoot] and templates, [validateRequest]
    returns or throws, and it throws in three cases only: the operation is
    not found or has no [operationId], and the error is [Unknown operation],
    also for a request no route matches; or [parseRequest] throws; or no
    validators are registered under the [operationId] of the operation. *)
Theorem validateRequest_throws (req : Request) (ref : OperationRef) :
  plain_router router ->
  exists res,
    validateRequest JSON_parse qs_parse cookie_parse bath_params router
      requestValidators req ref = Some res
    /\ forall e, res = Throw e ->
         (e = "Unknown operation"
          /\ resolve_operation router req ref = Some (Throw "Unknown operation"))
         \/ exists op,
              resolve_operation router req ref = Some (Normal op)
              /\ (parseRequest JSON_parse qs_parse cookie_parse bath_params
                    router req (Some op) = Some (Throw e)
                  \/ (e = "TypeError: validators is not iterable"
                      /\ requestValidators (default "" (op_operationId op))
                         = None)).
Proof.
  intros Hplain.
  destruct (validateRequest_plain_returns req ref Hplain) as [res Hres].
  exists res. split; [done|]. intros e ->.
  by apply validateRequest_throw_cases.
Qed.


End validate_more.

Lemma validateRequest_throws_witness :
  plain_router (newRouter petstore None)
  /\ validateRequest json_literals qs_flat no_cookies no_path_params
       (newRouter petstore None) (fun _ => Some [accept_all])
       (request "GET" "/owners") ByMatching
     = Some (Throw "Unknown operation")
  /\ resolve_operation (newRouter petstore None) (request "GET" "/owners")
       ByMatching
     = Some (Throw "Unknown operation").
Proof.
  assert (plain_router (newRouter petstore None)) as Hplain.
  { apply plain_router_check. vm_compute. reflexivity. }
  split; [exact Hplain|]. split; [reflexivity|].
  destruct (validateRequest_throws json_literals qs_flat no_cookies
              no_path_params (newRouter petstore None)
              (fun _ => Some [accept_all]) (request "GET" "/owners")
              ByMatching Hplain) as (res & Hres & H).
  vm_compute in Hres. injection Hres as <-.
  destruct (H _ eq_refl) as [[_ Hr]|(op & Hop & _)]; [exact Hr|].
  vm_compute in Hop. discriminate Hop.
Defined.


(** * Properties of the response validators *)

Lemma validation_result_shape (errs : list ValidationError) :
  let res := validation_result errs in
  (valid res = true <-> errs = [])
  /\ (valid res = true <-> errors res = None)
  /\ errors res <> Some [].
Proof. destruct errs; simpl; split; try split; done. Qed.

Lemma assign_fresh {A : Type} (k : string) (v : A) (l : list (string * A)) :
  k ∉ fst <$> l -> assign k v l = (l ++ [(k, v)])%list.
Proof.
  induction l as [|[k0 v0] l IH]; [done|]. rewrite fmap_cons. cbn [fst assign].
  intros [Hne Hk]%not_elem_of_cons.
  apply String.eqb_neq in Hne. rewrite Hne. by rewrite IH.
Qed.

Lemma mapKeys_fixed {A : Type} (f : string -> string) (l acc : list (string * A)) :
  NoDup ((fst <$> acc) ++ (fst <$> l)) ->
  (forall k, k ∈ fst <$> l -> f k = k) ->
  fold_left (fun acc '(k, v) => assign (f k) v acc) l acc = (acc ++ l)%list.
Proof.
  revert acc. induction l as [|[k v] l IH]; intros acc Hnd Hf.
  - by rewrite app_nil_r.
  - cbn [fold_left]. rewrite fmap_cons in Hnd, Hf. cbn [fst] in Hnd, Hf.
    rewrite (Hf k) by set_solver.
    apply NoDup_app in Hnd as (Hacc & Hdisj & Hl).
    apply NoDup_cons in Hl as [Hk Hl].
    rewrite assign_fresh by (intros Hin; by apply (Hdisj k Hin); left).
    rewrite IH.
    + by rewrite <- app_assoc.
    + rewrite fmap_app. simpl. rewrite <- app_assoc. simpl.
      apply NoDup_app. split; [done|]. split; [|by apply NoDup_cons].
      done.
    + intros k' Hk'. apply Hf. by right.
Qed.

(** Renaming the keys of an object twice by an idempotent function is
    renaming them once. *)
Lemma mapKeys_idem {A : Type} (f : string -> string) (o : list (string * A)) :
  (forall k, f (f k) = f k) -> mapKeys f (mapKeys f o) = mapKeys f o.
Proof.
  intros Hf. unfold mapKeys at 1.
  destruct (mapKeys_from_keys f o [] (NoDup_nil_2)) as [H1 H2].
  rewrite mapKeys_fixed; [done|done|].
  intros k Hk. destruct (H2 k Hk) as [Hin|(k0 & _ & ->)]; [|done].
  by apply elem_of_nil in Hin.
Qed.

Section response_validator.
Variable router : OpenAPIRouter.
Variable responseValidators : string -> option (jsval -> list ValidationError).
Variable statusBasedResponseValidators :
  string -> option (gmap string (jsval -> list ValidationError)).
Variable responseHeadersValidators :
  string -> option (gmap string (gmap string (jsval -> list ValidationError))).
Variable utils_findStatusCodeMatch : forall X : Type, Z -> gmap string X -> option X.
Variable utils_findDefaultStatusCodeMatch : forall X : Type, gmap string X -> option X.

(** X13.  [validateResponse] throws [Unknown operation], and nothing else,
    exactly when the operation is absent, is not found under the id given,
    or has no [operationId].  Otherwise it returns a result in which
    [errors] is [null] exactly when [valid] holds and is never an empty
    array; a response for which no validator is found is valid; and the
    status code [0] is read as no status code. *)
Theorem validateResponse_outcomes (res : jsval) (operation : OperationRef)
  (statusCode : option Z) :
  let call := validateResponse router responseValidators
                statusBasedResponseValidators utils_findStatusCodeMatch res
                operation in
  match response_operation router operation with
  | Throw e => e = "Unknown operation" /\ call statusCode = Throw e
  | Normal op =>
      let operationId := default "" (op_operationId op) in
      operationId <> ""
      /\ (exists result,
            call statusCode = Normal result
            /\ (valid result = true <-> errors result = None)
            /\ errors result <> Some [])
      /\ (responseValidators operationId = None ->
          call None = Normal {| valid := true; errors := None |})
      /\ (statusBasedResponseValidators operationId = None ->
          forall code, code <> 0%Z ->
            call (Some code) = Normal {| valid := true; errors := None |})
      /\ call (Some 0%Z) = call None
  end.
Proof.
  intros call. unfold call, validateResponse.
  destruct (response_operation router operation) as [op|e] eqn:R.
  - assert (default "" (op_operationId op) <> "") as Hid.
    { unfold response_operation in R.
      destruct (match operation with ByMatching => _ | _ => _ end) as [o|];
        [|done].
      destruct (op_operationId o) as [id|] eqn:Eid; [|done].
      destruct (String.eqb id "") eqn:E; [done|]. injection R as <-.
      rewrite Eid. simpl. by apply String.eqb_neq. }
    split; [done|]. split; [|split; [|split]].
    + eexists. split; [done|].
      apply validation_result_shape.
    + intros ->. done.
    + intros -> code Hcode. unfold given_status.
      apply Z.eqb_neq in Hcode. by rewrite Hcode.
    + done.
  - split; [|done]. unfold response_operation in R.
    destruct (match operation with ByMatching => _ | _ => _ end) as [o|];
      [|by injection R].
    destruct (op_operationId o) as [id|]; [|by injection R].
    destruct (String.eqb id ""); [by injection R|done].
Qed.

(** X14.  [validateResponseHeaders] reads header names without regard to
    letter case: lower-casing the names beforehand changes nothing.  A
    set-match type that is absent or empty stands for [any]; one that is
    not a value of the enumeration makes the call throw, once the
    operation is known. *)
Theorem validateResponseHeaders_names (headers : list (string * jsval))
  (operation : OperationRef) (setMatchType : option string)
  (statusCode : option Z) :
  let call := validateResponseHeaders router responseHeadersValidators
                utils_findStatusCodeMatch utils_findDefaultStatusCodeMatch in
  call (mapKeys toLowerCase headers) operation setMatchType statusCode
  = call headers operation setMatchType statusCode
  /\ call headers operation None statusCode
     = call headers operation (Some "any") statusCode
  /\ call headers operation (Some "") statusCode
     = call headers operation (Some "any") statusCode
  /\ forall op s,
       response_operation router operation = Normal op ->
       s <> "" -> s ∉ SetMatchType_values ->
       call headers operation (Some s) statusCode
       = Throw ("Unknown setMatchType " ++ s).
Proof.
  intros call. unfold call, validateResponseHeaders.
  split; [|split; [|split]].
  - by rewrite (mapKeys_idem toLowerCase headers toLowerCase_idem).
  - done.
  - done.
  - intros op s -> Hs Hn. unfold chosen_setMatchType.
    apply String.eqb_neq in Hs. rewrite Hs.
    by rewrite bool_decide_eq_false_2.
Qed.

End response_validator.

Example validateResponse_scenario :
  let call :=
    validateResponse (newRouter petstore None)
      (fun _ => Some reject_all)
      (fun _ => Some {[ "200" := accept_all; "404" := reject_all ]})
      exact_status (VObj []) in
  valid <$> (match call (ById "getPets") (Some 200%Z) with
             | Normal r => Some r | Throw _ => None end) = Some true
  /\ valid <$> (match call (ById "getPets") (Some 404%Z) with
                | Normal r => Some r | Throw _ => None end) = Some false
  /\ valid <$> (match call (ById "getPets") (Some 500%Z) with
                | Normal r => Some r | Throw _ => None end) = Some true
  /\ valid <$> (match call (ById "getPets") (Some 0%Z) with
                | Normal r => Some r | Throw _ => None end) = Some false
  /\ call (ById "getOwners") None = Throw "Unknown operation"
  /\ call ByMatching None = Throw "Unknown operation".
Proof. repeat split; reflexivity. Qed.

(** ** The object handed to the validators *)

Lemma assoc_fmap_entry (f : string * jsval -> string * jsval)
  (l : list (string * jsval)) (k : string) :
  (forall e, fst (f e) = fst e) ->
  assoc k (f <$> l) = (fun v => snd (f (k, v))) <$> assoc k l.
Proof.
  intros Hf. induction l as [|[k0 v0] l IH]; [done|].
  rewrite fmap_cons. pose proof (Hf (k0, v0)) as Hk.
  destruct (f (k0, v0)) as [k1 v1] eqn:E. simpl in Hk. subst k1. simpl.
  destruct (String.eqb_spec k k0) as [->|Hne]; [|done].
  simpl. by rewrite E.
Qed.

Lemma wrap_array_entry_key (operation : Operation) (e : string * jsval) :
  fst (wrap_array_entry operation e) = fst e.
Proof.
  destruct e as [k v]. unfold wrap_array_entry.
  destruct v; try done.
  destruct (find_parameter _ _ _) as [p|]; [|done]. by destruct (is_array_schema p).
Qed.

(** The object handed to the validators. *)
Lemma validated_parameters_members (parsed : ParsedRequest) (operation : Operation) :
  exists query,
    member "path" (validated_parameters parsed operation) = VObj (pr_params parsed)
    /\ member "query" (validated_parameters parsed operation) = VObj query
    /\ member "header" (validated_parameters parsed operation)
       = VObj (pr_headers parsed)
    /\ member "cookie" (validated_parameters parsed operation)
       = VObj (pr_cookies parsed)
    /\ member "requestBody" (validated_parameters parsed operation)
       = (if typeof_object (pr_requestBody parsed)
             || strict_eq_string (get "content-type" (pr_headers parsed))
                  "application/json"
          then pr_requestBody parsed else VUndefined)
    /\ fst <$> query = fst <$> pr_query parsed
    /\ forall name value,
         assoc name (pr_query parsed) = Some value ->
         assoc name query
         = Some match value, find_parameter name "query" (op_parameters operation) with
                | VStr _, Some p => if is_array_schema p then VArr [value] else value
                | _, _ => value
                end.
Proof.
  unfold validated_parameters. eexists.
  split; [reflexivity|]. split; [reflexivity|]. split; [reflexivity|].
  split; [reflexivity|]. split; [by destruct (_ || _)|]. split.
  - rewrite <- list_fmap_compose. apply list_fmap_ext.
    intros i e _. apply wrap_array_entry_key.
  - intros name value Hv.
    rewrite (assoc_fmap_entry _ _ _ (wrap_array_entry_key operation)), Hv.
    simpl. f_equal. destruct value; try done.
    destruct (find_parameter _ _ _) as [p|]; [|done]. by destruct (is_array_schema p).
Qed.

(** X28.  When [validateRequest] returns, every validator registered for
    the operation has been run on one and the same object, and the errors
    of the result are the parse error of the body, if any, followed by the
    errors of the validators in the order of their registration.  That
    object has the members [path], [query], [header] and [cookie] of the
    parsed request, and [requestBody] when the parsed body is an object or
    the [content-type] header is exactly [application/json]; its query has
    the keys of the parsed query in their order, a value that is a string,
    for a query parameter declared with an array schema, being given as the
    array of that one string, and every other value as it is. *)
Theorem validated_parameters_query
  (JSON_parse : string -> jsval + string)
  (qs_parse : bool -> option string -> list (string * jsval))
  (cookie_parse : string -> list (string * jsval))
  (bath_params : string -> string -> option (list (string * jsval)))
  (router : OpenAPIRouter)
  (requestValidators : string -> option (list (jsval -> list ValidationError)))
  (req : Request) (ref : OperationRef) (res : ValidationResult) :
  validateRequest JSON_parse qs_parse cookie_parse bath_params router
    requestValidators req ref = Some (Normal res) ->
  exists op parsed validators parameters query,
    resolve_operation router req ref = Some (Normal op)
    /\ parseRequest JSON_parse qs_parse cookie_parse bath_params router req
         (Some op) = Some (Normal parsed)
    /\ requestValidators (default "" (op_operationId op)) = Some validators
    /\ default [] (errors res)
       = (body_errors JSON_parse req op
          ++ concat ((fun validate => validate parameters) <$> validators))%list
    /\ member "path" parameters = VObj (pr_params parsed)
    /\ member "query" parameters = VObj query
    /\ member "header" parameters = VObj (pr_headers parsed)
    /\ member "cookie" parameters = VObj (pr_cookies parsed)
    /\ member "requestBody" parameters
       = (if typeof_object (pr_requestBody parsed)
             || strict_eq_string (get "content-type" (pr_headers parsed))
                  "application/json"
          then pr_requestBody parsed else VUndefined)
    /\ fst <$> query = fst <$> pr_query parsed
    /\ forall name value,
         assoc name (pr_query parsed) = Some value ->
         assoc name query
         = Some match value, find_parameter name "query" (op_parameters op) with
                | VStr _, Some p => if is_array_schema p then VArr [value] else value
                | _, _ => value
                end.
Proof.
  unfold validateRequest.
  destruct (resolve_operation router req ref) as [[op|e']|] eqn:R;
    cbn [mbind option_bind]; [|done..].
  destruct (parseRequest _ _ _ _ _ _ _) as [[parsed|e']|] eqn:P;
    cbn [mbind option_bind]; [|done..].
  destruct (requestValidators _) as [validators|] eqn:V; [|done].
  intros [= <-].
  destruct (validated_parameters_members parsed op)
    as (query & H1 & H2 & H3 & H4 & H5 & H6 & H7).
  exists op, parsed, validators, (validated_parameters parsed op), query.
  split; [done|]. split; [exact P|]. split; [exact V|].
  split; [by destruct (body_errors JSON_parse req op ++ _)%list|].
  done.
Qed.

Lemma validated_parameters_query_witness :
  let req := request "GET" "/pets?a=1" in
  let op := listing (array_parameter None) in
  let validate (parameters : jsval) :=
    [parse_error (to_string (member "a" (member "query" parameters)))] in
  exists res,
    validateRequest json_literals qs_flat no_cookies no_path_params
      (newRouter petstore None) (fun _ => Some [validate]) req (Given op)
    = Some (Normal res)
    /\ errors res = Some [parse_error "1"]
    /\ exists parameters query,
         default [] (errors res)
         = (body_errors json_literals req op
            ++ concat ((fun validate => validate parameters) <$> [validate]))%list
         /\ member "query" parameters = VObj query
         /\ assoc "a" query = Some (VArr [VStr "1"]).
Proof.
  cbv zeta. eexists. split; [reflexivity|]. split; [reflexivity|].
  destruct (validated_parameters_query json_literals qs_flat no_cookies
              no_path_params (newRouter petstore None)
              (fun _ => Some [fun parameters =>
                 [parse_error (to_string (member "a" (member "query" parameters)))]])
              (request "GET" "/pets?a=1")
              (Given (listing (array_parameter None))) _ eq_refl)
    as (op & parsed & validators & parameters & query & Hop & Hp & Hv & He
        & _ & Hq & _ & _ & _ & _ & Hw).
  vm_compute in Hop. injection Hop as <-.
  vm_compute in Hp. injection Hp as <-.
  injection Hv as <-.
  exists parameters, query. split; [exact He|]. split; [exact Hq|].
  exact (Hw "a" (VStr "1") eq_refl).
Defined.

(** * Properties of the validators built for an operation *)

(** ** [_.uniq] *)

Lemma uniq_from (l seen : list string) :
  NoDup seen ->
  let res :=
    fold_left
      (fun seen x => if bool_decide (x ∈ seen) then seen else seen ++ [x])%list
      l seen in
  NoDup res /\ forall x, x ∈ res <-> x ∈ seen \/ x ∈ l.
Proof.
  revert seen. induction l as [|y l IH]; intros seen Hseen; simpl.
  - split; [done|]. set_solver.
  - case_bool_decide as Hy.
    + destruct (IH seen Hseen) as [H1 H2]. split; [done|].
      intros x. rewrite H2. set_solver.
    + destruct (IH (seen ++ [y])%list) as [H1 H2].
      { apply NoDup_app. split; [done|]. split; [|apply NoDup_singleton].
        intros x Hx ->%list_elem_of_singleton. done. }
      split; [done|]. intros x. rewrite H2. set_solver.
Qed.

Lemma uniq_NoDup (l : list string) : NoDup (uniq l).
Proof. apply (uniq_from l [] (NoDup_nil_2)). Qed.

Lemma elem_of_uniq (l : list string) (x : string) : x ∈ uniq l <-> x ∈ l.
Proof.
  destruct (uniq_from l [] (NoDup_nil_2)) as [_ H]. unfold uniq.
  rewrite H. set_solver.
Qed.

(** ** The loop over the parameters *)

Lemma target_locations (s : ParamsSchema) (location : string) :
  is_Some (target s location)
  <-> location ∈ ["path"; "query"; "header"; "cookie"].
Proof.
  unfold target.
  destruct (String.eqb_spec location "path") as [->|?]; [set_solver|].
  destruct (String.eqb_spec location "query") as [->|?]; [set_solver|].
  destruct (String.eqb_spec location "header") as [->|?]; [set_solver|].
  destruct (String.eqb_spec location "cookie") as [->|?]; [set_solver|].
  split; [by intros [? ?]|]. set_solver.
Qed.

Lemma target_set (s : ParamsSchema) (location location' : string)
  (t : ParamsTarget) :
  is_Some (target s location) ->
  target (set_target s location t) location'
  = if String.eqb location' location then Some t else target s location'.
Proof.
  intros H%target_locations. unfold target, set_target. simpl.
  assert (location = "path" \/ location = "query" \/ location = "header"
          \/ location = "cookie") as Hloc by set_solver.
  destruct Hloc as [-> | [-> | [-> | ->]]];
    destruct (String.eqb_spec location' "path") as [->|?]; try done;
    destruct (String.eqb_spec location' "query") as [->|?]; try done;
    destruct (String.eqb_spec location' "header") as [->|?]; try done;
    destruct (String.eqb_spec location' "cookie") as [->|?]; try done.
Qed.

Lemma add_parameters_app (s : ParamsSchema) (l1 l2 : list ParameterObject) :
  add_parameters s (l1 ++ l2)
  = add_parameters s l1 ≫= fun s' => add_parameters s' l2.
Proof.
  revert s. induction l1 as [|p l1 IH]; intros s; simpl; [done|].
  destruct (add_parameter s p); simpl; [apply IH|done].
Qed.

Lemma add_parameters_snoc (s s' : ParamsSchema) (l : list ParameterObject)
  (p : ParameterObject) :
  add_parameters s (l ++ [p]) = Some s' <->
  exists s1, add_parameters s l = Some s1 /\ add_parameter s1 p = Some s'.
Proof.
  rewrite add_parameters_app. destruct (add_parameters s l) as [s1|]; simpl.
  - destruct (add_parameter s1 p) as [s2|] eqn:E; simpl.
    + split; [intros [= <-]; by exists s1|].
      intros (s1' & [= <-] & H). congruence.
    + split; [done|]. intros (s1' & [= <-] & H). congruence.
  - split; [done|]. by intros (s1' & [=] & _).
Qed.

(** What one round of the loop does to the object of a location. *)
Lemma add_parameter_target (s s' : ParamsSchema) (p : ParameterObject)
  (location : string) :
  add_parameter s p = Some s' ->
  exists t,
    target s (param_in p) = Some t
    /\ ps_required s'
       = (if param_required p then uniq (ps_required s ++ [param_in p])
          else ps_required s)
    /\ target s' location
       = if String.eqb location (param_in p) then
           Some {| pt_properties :=
                     assign (normalizedParamName p) (parameter_schema p)
                       (pt_properties t);
                   pt_required :=
                     if param_required p
                     then uniq (pt_required t ++ [normalizedParamName p])
                     else pt_required t |}
         else target s location.
Proof.
  unfold add_parameter. destruct (target s (param_in p)) as [t|] eqn:Et; [|done].
  simpl. intros [= <-]. exists t. split; [done|]. split; [done|].
  rewrite target_set; [done|].
  apply target_locations. apply (proj1 (target_locations s (param_in p))).
  by rewrite Et.
Qed.

(** The state of the loop after the parameters [l]. *)
Lemma add_parameters_invariant (l : list ParameterObject) (s : ParamsSchema) :
  paramsSchema l = Some s ->
  (forall p, In p l -> is_Some (target s (param_in p)))
  /\ NoDup (ps_required s)
  /\ (forall location,
        location ∈ ps_required s
        <-> exists p, In p l /\ param_required p = true /\ param_in p = location)
  /\ forall location t,
       target s location = Some t ->
       NoDup (pt_required t)
       /\ (forall name,
             name ∈ pt_required t
             <-> exists p, In p l /\ param_required p = true
                           /\ feeds location name p)
       /\ (forall name,
             is_Some (assoc name (pt_properties t))
             <-> exists p, In p l /\ feeds location name p).
Proof.
  unfold paramsSchema. revert s. induction l as [|p l IH] using rev_ind; intros s.
  - intros [= <-]. split; [done|]. split; [constructor|]. split.
    + intros location. simpl. split; [by intros ?%elem_of_nil|by intros (? & [] & _)].
    + intros location t Ht.
      assert (t = empty_target) as ->.
      { unfold target in Ht. simpl in Ht.
        repeat (destruct (String.eqb _ _); [by injection Ht|]). done. }
      simpl. split; [constructor|]. split.
      * intros name. split; [by intros ?%elem_of_nil|by intros (? & [] & _)].
      * intros name. split; [by intros [? ?]|by intros (? & [] & _)].
  - intros (s1 & Hs1 & Hadd)%add_parameters_snoc.
    destruct (IH s1 Hs1) as (I1 & I2 & I3 & I4).
    destruct (add_parameter_target s1 s p "" Hadd) as (t0 & Ht0 & Htop & _).
    assert (forall location, is_Some (target s1 location)
                             -> is_Some (target s location)) as Hkeep.
    { intros location Hl.
      destruct (add_parameter_target s1 s p location Hadd) as (? & _ & _ & ->).
      by destruct (String.eqb location (param_in p)). }
    split; [|split; [|split]].
    + intros q [Hq| [<- |[]]]%in_app_or; [by apply Hkeep, I1|].
      apply Hkeep. by rewrite Ht0.
    + rewrite Htop. destruct (param_required p); [apply uniq_NoDup|done].
    + intros location. rewrite Htop. destruct (param_required p) eqn:Er.
      * rewrite elem_of_uniq, elem_of_app, list_elem_of_singleton, I3. split.
        -- intros [(q & Hq & ?)| ->].
           ++ exists q. split; [apply in_or_app; by left|done].
           ++ exists p. split; [apply in_or_app; right; by left|done].
        -- intros (q & [Hq| [<- |[]]]%in_app_or & Hr & Hl); [left; eauto|by right].
      * rewrite I3. split.
        -- intros (q & Hq & ?). exists q. split; [apply in_or_app; by left|done].
        -- intros (q & [Hq| [<- |[]]]%in_app_or & Hr & Hl); [eauto|congruence].
    + intros location t Ht.
      destruct (add_parameter_target s1 s p location Hadd) as (t1 & Ht1 & _ & Hloc).
      rewrite Ht in Hloc. unfold feeds.
      destruct (String.eqb_spec location (param_in p)) as [->|Hne].
      * injection Hloc as ->. simpl.
        destruct (I4 _ _ Ht1) as (J1 & J2 & J3). split; [|split].
        -- destruct (param_required p); [apply uniq_NoDup|done].
        -- intros name. destruct (param_required p) eqn:Er.
           ++ rewrite elem_of_uniq, elem_of_app, list_elem_of_singleton, J2.
              unfold feeds. split.
              ** intros [(q & Hq & ?)| ->].
                 --- exists q. split; [apply in_or_app; by left|done].
                 --- exists p. split; [apply in_or_app; right; by left|done].
              ** intros (q & [Hq| [<- |[]]]%in_app_or & Hr & Hl & Hn);
                   [left; eauto|by right].
           ++ rewrite J2. unfold feeds. split.
              ** intros (q & Hq & ?). exists q.
                 split; [apply in_or_app; by left|done].
              ** intros (q & [Hq| [<- |[]]]%in_app_or & Hr & Hl); [eauto|congruence].
        -- intros name. rewrite assoc_assign.
           destruct (String.eqb_spec name (normalizedParamName p)) as [->|Hn].
           ++ split; [|by eauto]. intros _. exists p.
              split; [apply in_or_app; right; by left|done].
           ++ rewrite J3. unfold feeds. split.
              ** intros (q & Hq & ?). exists q.
                 split; [apply in_or_app; by left|done].
              ** intros (q & [Hq| [<- |[]]]%in_app_or & Hl & Hn'); [eauto|congruence].
      * destruct (I4 _ _ (eq_sym Hloc)) as (J1 & J2 & J3). split; [done|]. split.
        -- intros name. rewrite J2. unfold feeds. split.
           ++ intros (q & Hq & ?). exists q. split; [apply in_or_app; by left|done].
           ++ intros (q & [Hq| [<- |[]]]%in_app_or & Hr & Hl & Hn); [eauto|congruence].
        -- intros name. rewrite J3. unfold feeds. split.
           ++ intros (q & Hq & ?). exists q. split; [apply in_or_app; by left|done].
           ++ intros (q & [Hq| [<- |[]]]%in_app_or & Hl & Hn); [eauto|congruence].
Qed.

Lemma add_parameters_defined (l : list ParameterObject) (s : ParamsSchema) :
  (forall p, In p l -> param_in p ∈ ["path"; "query"; "header"; "cookie"]) ->
  is_Some (add_parameters s l).
Proof.
  revert s. induction l as [|p l IH]; intros s H; simpl; [done|].
  destruct (proj2 (target_locations s (param_in p)) (H p (or_introl eq_refl)))
    as [t Ht].
  unfold add_parameter. rewrite Ht. simpl. apply IH.
  intros q Hq. apply H. by right.
Qed.




(** ** Header parameters *)

Lemma assoc_In_is_Some {A : Type} (k : string) (v : A) (l : list (string * A)) :
  In (k, v) l -> is_Some (assoc k l).
Proof.
  induction l as [|[k0 v0] l IH]; simpl; [done|].
  destruct (String.eqb_spec k k0) as [->|Hne]; [by eauto|].
  intros [[= ? ?]|H]; [congruence|by apply IH].
Qed.

Section header_names.
Variable JSON_parse : string -> jsval + string.
Variable qs_parse : bool -> option string -> list (string * jsval).
Variable cookie_parse : string -> list (string * jsval).
Variable bath_params : string -> string -> option (list (string * jsval)).

(** X17.  A header parameter and a header of the request meet whatever the
    letter case of either: the schema of the parameters lists a header
    parameter under its name in lower case, as it does every header name,
    and the parsed request lists under that name a header whose name is the
    same up to letter case. *)
Theorem header_parameter_found (r : OpenAPIRouter) (req : Request)
  (op : Operation) (parsed : ParsedRequest) (s : ParamsSchema)
  (p : ParameterObject) (h : string) (v : jsval) :
  paramsSchema (op_parameters op) = Some s ->
  In p (op_parameters op) -> param_in p = "header" ->
  parseRequest JSON_parse qs_parse cookie_parse bath_params r req (Some op)
  = Some (Normal parsed) ->
  In (h, v) (req_headers req) ->
  toLowerCase h = toLowerCase (param_name p) ->
  let name := toLowerCase (param_name p) in
  is_Some (assoc name (pt_properties (ps_header s)))
  /\ is_Some (assoc name (pr_headers parsed))
  /\ forall k, is_Some (assoc k (pt_properties (ps_header s))) ->
               toLowerCase k = k.
Proof.
  intros Hs Hp Hin Hparsed Hh Hname name.
  destruct (add_parameters_invariant _ _ Hs) as (_ & _ & _ & I4).
  destruct (I4 "header" (ps_header s) eq_refl) as (_ & _ & J3).
  split; [|split].
  - apply J3. exists p. split; [done|]. split; [done|].
    unfold normalizedParamName. by rewrite Hin.
  - assert (pr_headers parsed = mapKeys toLowerCase (req_headers req)) as ->.
    { unfold parseRequest in Hparsed.
      destruct (normalizePath r _); [|done]. simpl in Hparsed.
      destruct (mapM_completion _ _); [|done]. by injection Hparsed as <-. }
    unfold mapKeys. rewrite mapKeys_from_assoc.
    destruct (assoc_In_is_Some name v (rev (renamed toLowerCase (req_headers req))))
      as [w ->]; [|done].
    apply in_rev. rewrite rev_involutive. unfold renamed, name.
    rewrite <- Hname. apply in_map_iff. exists (h, v). done.
  - intros k (q & _ & Hq & <-)%J3. unfold normalizedParamName.
    rewrite Hq. simpl. apply toLowerCase_idem.
Qed.

End header_names.

Lemma header_parameter_found_witness :
  let op :=
    {| op_operationId := Some "getPets"; op_requestBody := None;
       op_path := "/pets"; op_method := "get"; op_parameters := [apiKey];
       op_security := [] |} in
  let req :=
    {| req_method := "GET"; req_path := "/pets";
       req_headers := [("x-API-key", VStr "secret")];
       req_query := QUndefined; req_body := VUndefined |} in
  exists s parsed,
    paramsSchema (op_parameters op) = Some s
    /\ parseRequest json_literals qs_flat no_cookies no_path_params
         (newRouter petstore None) req (Some op) = Some (Normal parsed)
    /\ is_Some (assoc "x-api-key" (pt_properties (ps_header s)))
    /\ is_Some (assoc "x-api-key" (pr_headers parsed)).
Proof.
  cbv zeta. do 2 eexists. split; [reflexivity|]. split; [reflexivity|].
  destruct (header_parameter_found json_literals qs_flat no_cookies
              no_path_params (newRouter petstore None)
              {| req_method := "GET"; req_path := "/pets";
                 req_headers := [("x-API-key", VStr "secret")];
                 req_query := QUndefined; req_body := VUndefined |}
              {| op_operationId := Some "getPets"; op_requestBody := None;
                 op_path := "/pets"; op_method := "get";
                 op_parameters := [apiKey]; op_security := [] |}
              _ _ apiKey "x-API-key" (VStr "secret")
              eq_refl (or_introl eq_refl) eq_refl eq_refl (or_introl eq_refl)
              eq_refl) as (H1 & H2 & _).
  split; [exact H1|exact H2].
Defined.

(** ** The registry of request validators *)

Section registry.
Variable compileSchema :
  ValidationContext.t -> bool -> jsval -> jsval -> list ValidationError.

Lemma buildRequestValidators_snoc (l : list Operation) (op : Operation)
  (registry m : gmap string (list (jsval -> list ValidationError))) :
  buildRequestValidators compileSchema (l ++ [op]) registry = Some m <->
  exists m1,
    buildRequestValidators compileSchema l registry = Some m1
    /\ buildRequestValidatorsForOperation compileSchema op m1 = Some m.
Proof.
  revert registry. induction l as [|o l IH]; intros registry; simpl.
  - destruct (buildRequestValidatorsForOperation _ op registry) as [m1|] eqn:E;
      simpl.
    + split; [intros [= <-]; by exists registry|].
      intros (m1' & [= <-] & H). congruence.
    + split; [done|]. intros (m1' & [= <-] & H). congruence.
  - destruct (buildRequestValidatorsForOperation _ o registry) as [m0|]; simpl.
    + apply IH.
    + split; [done|]. by intros (m1 & [=] & _).
Qed.

(** The entry of an id in the registry comes from the last operation that
    bears the id. *)
Lemma buildRequestValidators_last (operations : list Operation)
  (m : gmap string (list (jsval -> list ValidationError))) (id : string) :
  buildRequestValidators compileSchema operations ∅ = Some m ->
  id <> "" ->
  match m !! id with
  | Some validators =>
      exists before op after,
        operations = (before ++ op :: after)%list
        /\ op_operationId op = Some id
        /\ (forall o, In o after -> op_operationId o <> Some id)
        /\ requestValidatorsFor compileSchema op = Some validators
  | None => forall op, In op operations -> op_operationId op <> Some id
  end.
Proof.
  intros H Hid. revert m H.
  induction operations as [|op l IH] using rev_ind; intros m.
  - intros [= <-]. rewrite lookup_empty. by intros ? [].
  - intros (m1 & Hm1 & Hop)%buildRequestValidators_snoc.
    specialize (IH m1 Hm1).
    assert (op_operationId op <> Some id ->
            m !! id = m1 !! id ->
            match m !! id with
            | Some validators =>
                exists before op0 after,
                  (l ++ [op])%list = (before ++ op0 :: after)%list
                  /\ op_operationId op0 = Some id
                  /\ (forall o, In o after -> op_operationId o <> Some id)
                  /\ requestValidatorsFor compileSchema op0 = Some validators
            | None =>
                forall op0, In op0 (l ++ [op]) -> op_operationId op0 <> Some id
            end) as Hsame.
    { intros Hne ->. destruct (m1 !! id) as [vs|].
      - destruct IH as (before & o & after & -> & Ho & Hafter & Hvs).
        exists before, o, (after ++ [op])%list.
        split; [by rewrite <- app_assoc|]. split; [done|]. split; [|done].
        intros o' [Ho'| [<- |[]]]%in_app_or; [by apply Hafter|done].
      - intros o' [Ho'| [<- |[]]]%in_app_or; [by apply IH|done]. }
    unfold buildRequestValidatorsForOperation in Hop.
    destruct (op_operationId op) as [oid|] eqn:Eid.
    + destruct (String.eqb_spec oid "") as [->|Hoid].
      * injection Hop as <-. apply Hsame; [congruence|done].
      * destruct (requestValidatorsFor compileSchema op) as [vs|] eqn:Evs;
          [|done].
        simpl in Hop. injection Hop as <-.
        destruct (decide (oid = id)) as [->|Hne].
        -- rewrite lookup_insert_eq. exists l, op, [].
           split; [done|]. split; [done|]. split; [by intros ? []|done].
        -- apply Hsame; [congruence|]. by rewrite lookup_insert_ne.
    + injection Hop as <-. apply Hsame; [congruence|done].
Qed.

(** X18.  After the constructor has gone through the operations, the
    registry holds validators under an id exactly when an operation bears
    the id, and they are those of the last operation that bears it: those
    of its JSON body, if it declares one with a schema, followed by the one
    of its parameters. *)
Theorem newRequestValidators_registry (router : OpenAPIRouter)
  (m : gmap string (list (jsval -> list ValidationError))) (id : string) :
  newRequestValidators compileSchema router = Some m ->
  id <> "" ->
  match m !! id with
  | Some validators =>
      exists before op after s,
        getOperations router = (before ++ op :: after)%list
        /\ op_operationId op = Some id
        /\ (forall o, In o after -> op_operationId o <> Some id)
        /\ paramsSchema (op_parameters op) = Some s
        /\ validators
           = (requestBodyValidators compileSchema op
              ++ [compileSchema ValidationContext.Params true
                    (paramsSchema_json s)])%list
  | None =>
      forall op, In op (getOperations router) -> op_operationId op <> Some id
  end.
Proof.
  intros H Hid. pose proof (buildRequestValidators_last _ _ _ H Hid) as L.
  destruct (m !! id) as [validators|]; [|done].
  destruct L as (before & op & after & E & Ho & Hafter & Hvs).
  unfold requestValidatorsFor in Hvs.
  destruct (paramsSchema (op_parameters op)) as [s|] eqn:Es; [|done].
  injection Hvs as <-. exists before, op, after, s. done.
Qed.

(** X7.  Looking an operation up by its id and the registry of
    validators go by different operations when several bear one id:
    [getOperation] returns the first operation that bears the id, and the
    registry holds under the id the validators of the last.  The two are one
    operation when no operation before the last bears the id; and the
    lookup finds nothing exactly when the registry has nothing. *)
Theorem getOperation_registry (router : OpenAPIRouter)
  (m : gmap string (list (jsval -> list ValidationError))) (id : string) :
  newRequestValidators compileSchema router = Some m ->
  id <> "" ->
  match getOperation router id with
  | Some first =>
      exists before last after validators i,
        getOperations router = (before ++ last :: after)%list
        /\ op_operationId last = Some id
        /\ (forall o, In o after -> op_operationId o <> Some id)
        /\ first_at (fun o => op_operationId o = Some id)
             (getOperations router) i first
        /\ m !! id = Some validators
        /\ requestValidatorsFor compileSchema last = Some validators
        /\ (i <= length before)%nat
        /\ ((forall o, In o before -> op_operationId o <> Some id) ->
            first = last)
  | None => m !! id = None
  end.
Proof.
  intros H Hid. pose proof (buildRequestValidators_last _ _ _ H Hid) as L.
  pose proof (getOperation_cases router id) as G.
  destruct (getOperation router id) as [first|].
  - destruct G as (i & Hi & Hfirst & Hmin).
    destruct (m !! id) as [validators|].
    + destruct L as (before & last & after & E & Ho & Hafter & Hvs).
      exists before, last, after, validators, i.
      split; [done|]. split; [done|]. split; [done|]. split; [done|].
      split; [done|]. split; [done|].
      assert (getOperations router !! length before = Some last) as Hlast.
      { rewrite E. by rewrite list_lookup_middle. }
      split; [by apply (Hmin _ last)|].
      intros Hbefore.
      assert (length before <= i)%nat as Hge.
      { destruct (decide (length before <= i)%nat) as [|Hlt]; [done|].
        rewrite E, lookup_app_l in Hi by lia.
        apply lookup_In in Hi. by destruct (Hbefore first Hi). }
      pose proof (Hmin _ last Hlast Ho) as Hle.
      assert (i = length before) as -> by lia. congruence.
    + apply lookup_In in Hi. by destruct (L first Hi).
  - destruct (m !! id) as [validators|]; [|done].
    destruct L as (before & last & after & E & Ho & Hafter & Hvs).
    destruct (G last); [|done]. rewrite E. apply in_elt.
Qed.

Variable JSON_parse : string -> jsval + string.
Variable qs_parse : bool -> option string -> list (string * jsval).
Variable cookie_parse : string -> list (string * jsval).
Variable bath_params : string -> string -> option (list (string * jsval)).

Lemma resolve_operation_declared (router : OpenAPIRouter) (req : Request)
  (ref : OperationRef) (op : Operation) :
  (forall o, ref <> Given o) ->
  resolve_operation router req ref = Some (Normal op) ->
  In op (getOperations router)
  /\ exists id, op_operationId op = Some id /\ id <> "".
Proof.
  intros Href. unfold resolve_operation.
  assert (forall found : option Operation,
            (forall o, found = Some o -> In o (getOperations router)) ->
            Some match found with
                 | Some op =>
                     match op_operationId op with
                     | Some id => if String.eqb id ""
                                  then Throw "Unknown operation" else Normal op
                     | None => Throw "Unknown operation"
                     end
                 | None => Throw "Unknown operation"
                 end = Some (Normal op) ->
            In op (getOperations router)
            /\ exists id, op_operationId op = Some id /\ id <> "") as Hfound.
  { intros [o|] Hin; [|done].
    destruct (op_operationId o) as [id|] eqn:Eid; [|done].
    destruct (String.eqb_spec id "") as [->|Hne]; [done|].
    intros [= <-]. split; [by apply Hin|]. eauto. }
  assert (forall o,
            (matchOperation router req false
             ≫= fun res => Some match res with Normal o => o | Throw _ => None end)
            = Some (Some o) -> In o (getOperations router)) as Hmatch.
  { intros o. destruct (matchOperation router req false) as [[[o'|]|]|] eqn:M;
      simpl; try done.
    intros [= <-]. by apply matchOperation_found in M as [? _]. }
  destruct ref as [|id|o]; [| |by destruct (Href o)].
  - destruct (matchOperation router req false ≫= _) as [found|] eqn:M;
      cbn [mbind option_bind]; [|done].
    apply Hfound. intros o ->. by apply Hmatch.
  - destruct (String.eqb id "").
    + destruct (matchOperation router req false ≫= _) as [found|] eqn:M;
        cbn [mbind option_bind]; [|done].
      apply Hfound. intros o ->. by apply Hmatch.
    + cbn [mbind option_bind]. apply Hfound. intros o Ho.
      by apply find_first_In in Ho as [? _].
Qed.

(** X19.  For a router with plain [apiRoot] and templates, a validator set
    up by the constructor has validators for every operation it finds by
    itself: when the operation is matched from the request or looked up by
    its id, [validateRequest] returns or throws, and it throws only
    [Unknown operation] or the error of [parseRequest]. *)
Theorem validateRequest_registered (router : OpenAPIRouter)
  (m : gmap string (list (jsval -> list ValidationError)))
  (req : Request) (ref : OperationRef) :
  plain_router router ->
  newRequestValidators compileSchema router = Some m ->
  (forall o, ref <> Given o) ->
  exists res,
    validateRequest JSON_parse qs_parse cookie_parse bath_params router
      (fun id => m !! id) req ref = Some res
    /\ forall e, res = Throw e ->
         e = "Unknown operation"
         \/ exists op,
              resolve_operation router req ref = Some (Normal op)
              /\ parseRequest JSON_parse qs_parse cookie_parse bath_params
                   router req (Some op) = Some (Throw e).
Proof.
  intros Hplain Hm Href.
  destruct (validateRequest_plain_returns JSON_parse qs_parse cookie_parse
              bath_params router (fun id => m !! id) req ref Hplain)
    as [res Hres].
  exists res. split; [done|]. intros e ->.
  apply validateRequest_throw_cases in Hres
    as [[-> _]|(op & Hop & [Hp|[_ Hnone]])].
  - by left.
  - right. eauto.
  - destruct (resolve_operation_declared _ _ _ _ Href Hop) as (Hin & id & Hid & Hne).
    rewrite Hid in Hnone. simpl in Hnone.
    pose proof (buildRequestValidators_last _ _ _ Hm Hne) as L.
    rewrite Hnone in L. by destruct (L op Hin).
Qed.

End registry.

Lemma newRequestValidators_registry_witness :
  exists m,
    newRequestValidators compile_accepting (newRouter petstore None) = Some m
    /\ is_Some (m !! "getPets").
Proof.
  eexists. split; [reflexivity|].
  pose proof (newRequestValidators_registry compile_accepting
                (newRouter petstore None) _ "getPets" eq_refl
                ltac:(discriminate)) as H.
  destruct (_ !! "getPets") as [validators|]; [by eexists|].
  exfalso. eapply H; [left; reflexivity|reflexivity].
Defined.

Lemma validateRequest_registered_witness :
  plain_router (newRouter petstore None)
  /\ exists m,
       newRequestValidators compile_accepting (newRouter petstore None) = Some m
       /\ validateRequest json_literals qs_flat no_cookies no_path_params
            (newRouter petstore None) (fun id => m !! id)
            (request "GET" "/owners") ByMatching
          = Some (Throw "Unknown operation").
Proof.
  assert (plain_router (newRouter petstore None)) as Hplain.
  { apply plain_router_check. vm_compute. reflexivity. }
  split; [exact Hplain|].
  eexists. split; [reflexivity|].
  destruct (validateRequest_registered compile_accepting json_literals qs_flat
              no_cookies no_path_params (newRouter petstore None) _
              (request "GET" "/owners") ByMatching Hplain
              eq_refl ltac:(discriminate)) as (res & Hres & H).
  vm_compute in Hres. injection Hres as <-. reflexivity.
Defined.

Lemma getOperation_registry_witness :
  exists m first,
    newRequestValidators compile_accepting (newRouter petstore None) = Some m
    /\ getOperation (newRouter petstore None) "getPets" = Some first
    /\ exists before last after validators i,
         getOperations (newRouter petstore None) = (before ++ last :: after)%list
         /\ op_operationId last = Some "getPets"
         /\ (forall o, In o after -> op_operationId o <> Some "getPets")
         /\ first_at (fun o => op_operationId o = Some "getPets")
              (getOperations (newRouter petstore None)) i first
         /\ m !! "getPets" = Some validators
         /\ requestValidatorsFor compile_accepting last = Some validators
         /\ (i <= length before)%nat
         /\ ((forall o, In o before -> op_operationId o <> Some "getPets") ->
             first = last).
Proof.
  do 2 eexists. split; [reflexivity|]. split; [reflexivity|].
  exact (getOperation_registry compile_accepting (newRouter petstore None) _
           "getPets" eq_refl ltac:(discriminate)).
Defined.

(** Two operations under one id: the lookup by id finds the first, the
    registry keeps the validators of the last. *)
Example duplicate_operationId :
  let item id param :=
    {| pi_get := Some {| oo_operationId := Some id;
                         oo_parameters := Some [param];
                         oo_security := None; oo_requestBody := None |};
       pi_put := None; pi_post := None; pi_delete := None; pi_options := None;
       pi_head := None; pi_patch := None; pi_trace := None;
       pi_parameters := None |} in
  let r :=
    newRouter
      {| doc_paths := Some [("/a", item "same" pathId); ("/b", item "same" apiKey)];
         doc_security := None |} None in
  (op_path <$> getOperation r "same") = Some "/a"
  /\ match
       newRequestValidators
         (fun _ _ schema _ => [parse_error (to_string (member "required" schema))])
         r
     with
     | Some m =>
         match m !! "same" with
         | Some validators => (fun validate => validate VNull) <$> validators
         | None => []
         end
     | None => []
     end = [[parse_error "header"]].
Proof. split; reflexivity. Qed.
(** * Further properties of the cycle breaker *)

Lemma nth_member_container (h : gmap positive hobject) (l : positive)
  (o : hobject) (i : nat) (m : string * hvalue) :
  h !! l = Some o -> nth_member o i = Some m -> container h l.
Proof. intros Hl Hm. unfold container. rewrite Hl. by destruct o. Qed.

Section decycle_more.
Variable h : gmap positive hobject.

(** The traversal records every container it meets, and every container
    under one it has recorded. *)
Lemma Decycled_closed (seen : gmap positive string) (v : hvalue)
  (path : string) (c : clone) (seen' : gmap positive string) :
  Decycled h seen v path c seen' ->
  seen ⊆ seen'
  /\ (forall l, v = HRef l -> container h l -> is_Some (seen' !! l))
  /\ forall l o i name l',
       seen' !! l <> None -> seen !! l = None ->
       h !! l = Some o -> nth_member o i = Some (name, HRef l') ->
       container h l' -> is_Some (seen' !! l').
Proof.
  intros H.
  induction H using Decycled_mutual with
    (P0 := fun seen path ms cs seen' _ =>
             seen ⊆ seen'
             /\ (forall j name l', ms !! j = Some (name, HRef l') ->
                   container h l' -> is_Some (seen' !! l'))
             /\ forall l o i name l',
                  seen' !! l <> None -> seen !! l = None ->
                  h !! l = Some o -> nth_member o i = Some (name, HRef l') ->
                  container h l' -> is_Some (seen' !! l')).
  - split; [done|]. split; [|done]. by intros l [=].
  - split; [done|]. split; [|done]. intros l0 [= <-]. unfold container.
    by rewrite e.
  - split; [done|]. split; [|done]. intros l0 [= <-]. unfold container.
    by rewrite e.
  - split; [done|]. split; [|done]. intros l0 [= <-] _. by rewrite e.
  - destruct IHDecycled as (I1 & I2 & I3).
    assert (seen' !! l = Some path) as Hl.
    { eapply lookup_weaken; [|done]. by rewrite lookup_insert_eq. }
    split; [etrans; [|done]; by apply insert_subseteq|].
    split; [intros l0 [= <-] _; by rewrite Hl|].
    intros l0 o i name l' Hin Hnew Ho Hm Hc.
    destruct (decide (l0 = l)) as [->|Hne].
    + rewrite e in Ho. injection Ho as <-.
      apply lookup_indexed in Hm. by eapply I2.
    + eapply I3; [done| |done..]. by rewrite lookup_insert_ne.
  - destruct IHDecycled as (I1 & I2 & I3).
    assert (seen' !! l = Some path) as Hl.
    { eapply lookup_weaken; [|done]. by rewrite lookup_insert_eq. }
    split; [etrans; [|done]; by apply insert_subseteq|].
    split; [intros l0 [= <-] _; by rewrite Hl|].
    intros l0 o i name l' Hin Hnew Ho Hm Hc.
    destruct (decide (l0 = l)) as [->|Hne].
    + rewrite e in Ho. injection Ho as <-. by eapply I2.
    + eapply I3; [done| |done..]. by rewrite lookup_insert_ne.
  - split; [done|]. split; [by intros [|?] ? ? [=]|done].
  - destruct IHDecycled as (I1 & I2 & I3).
    destruct IHDecycled0 as (J1 & J2 & J3).
    split; [by etrans|]. split.
    + intros [|j] n l' Hj Hc; simpl in Hj; [|by eapply J2].
      injection Hj as -> ->.
      destruct (I2 l' eq_refl Hc) as [p Hp].
      exists p. by eapply lookup_weaken.
    + intros l0 o i n l' Hin Hnew Ho Hm Hc.
      destruct (seen1 !! l0) as [p|] eqn:E1.
      * destruct (I3 l0 o i n l') as [p' Hp']; try done; [by rewrite E1|].
        exists p'. by eapply lookup_weaken.
      * by eapply J3.
Qed.

(** Only arrays and plain objects are recorded. *)
Lemma Decycled_containers (seen : gmap positive string) (v : hvalue)
  (path : string) (c : clone) (seen' : gmap positive string) :
  Decycled h seen v path c seen' ->
  (forall l, is_Some (seen !! l) -> container h l) ->
  forall l, is_Some (seen' !! l) -> container h l.
Proof.
  intros H.
  induction H using Decycled_mutual with
    (P0 := fun seen path ms cs seen' _ =>
             (forall l, is_Some (seen !! l) -> container h l) ->
             forall l, is_Some (seen' !! l) -> container h l);
    try done.
  - intros H0. apply IHDecycled. intros l0.
    destruct (decide (l0 = l)) as [->|Hne].
    + intros _. unfold container. by rewrite e.
    + rewrite lookup_insert_ne by done. apply H0.
  - intros H0. apply IHDecycled. intros l0.
    destruct (decide (l0 = l)) as [->|Hne].
    + intros _. unfold container. by rewrite e.
    + rewrite lookup_insert_ne by done. apply H0.
  - intros H0. by apply IHDecycled0, IHDecycled.
Qed.


End decycle_more.


(** ** Reading the paths as pointers *)

Lemma string_app_assoc (a b c : string) : (a ++ b) ++ c = a ++ b ++ c.
Proof.
  induction a as [|d a IH]; [done|].
  change (String d ((a ++ b) ++ c) = String d (a ++ b ++ c)). by rewrite IH.
Qed.

Lemma string_app_empty_r (a : string) : a ++ "" = a.
Proof.
  induction a as [|d a IH]; [done|].
  change (String d (a ++ "") = String d a). by rewrite IH.
Qed.

Lemma pointer_fold (names : list string) (acc : string) :
  fold_left (fun path name => path ++ "/" ++ name) names acc
  = acc ++ fold_right (fun name rest => "/" ++ name ++ rest) "" names.
Proof.
  revert acc. induction names as [|name names IH]; intros acc;
    cbn [fold_left fold_right].
  - by rewrite string_app_empty_r.
  - by rewrite IH, !string_app_assoc.
Qed.

Lemma split_on_segment (name rest : string) :
  contains "/" name = false ->
  split_on "/" (name ++ "/" ++ rest) = name :: split_on "/" rest.
Proof.
  induction name as [|d name IH]; [done|].
  change (String d name ++ "/" ++ rest) with (String d (name ++ "/" ++ rest)).
  cbn [contains split_on]. intros [Hd Hname]%orb_false_elim.
  by rewrite Hd, (IH Hname).
Qed.

Lemma split_on_last (name : string) :
  contains "/" name = false -> split_on "/" name = [name].
Proof.
  induction name as [|d name IH]; [done|].
  cbn [contains split_on]. intros [Hd Hname]%orb_false_elim.
  by rewrite Hd, (IH Hname).
Qed.

Lemma split_on_names (name : string) (names : list string) :
  Forall (fun name => contains "/" name = false) (name :: names) ->
  split_on "/"
    (name ++ fold_right (fun name rest => "/" ++ name ++ rest) "" names)
  = name :: names.
Proof.
  revert name. induction names as [|next names IH]; intros name;
    cbn [fold_right].
  - intros [H _]%Forall_cons. rewrite string_app_empty_r. by apply split_on_last.
  - intros [H Hrest]%Forall_cons. rewrite split_on_segment by done.
    by rewrite (IH next Hrest).
Qed.

Lemma unescape_cons (c : ascii) (r : string) :
  Ascii.eqb c "~" = false -> unescape (String c r) = String c (unescape r).
Proof.
  intros H. destruct r as [|d r']; [done|]. cbn [unescape]. rewrite H.
  reflexivity.
Qed.

Lemma unescape_plain (name : string) :
  contains "~" name = false -> unescape name = name.
Proof.
  induction name as [|c r IH]; [done|].
  cbn [contains]. intros [Hc Hr]%orb_false_elim.
  by rewrite unescape_cons, (IH Hr).
Qed.

Lemma plain_name_contains (name : string) :
  plain_name name = true ->
  contains "/" name = false /\ contains "~" name = false.
Proof.
  induction name as [|c r IH]; [done|]. cbn [plain_name contains].
  intros [Hc Hr]%andb_prop. destruct (IH Hr) as [-> ->].
  destruct (plain_name_char_cases c Hc) as [-> ->]. done.
Qed.

(** A path of plain names reads back as these names. *)
Lemma reference_tokens_pointer (names : list string) :
  Forall (fun name => plain_name name = true) names ->
  reference_tokens (pointer names) = Some names.
Proof.
  intros Hnames. unfold pointer. rewrite pointer_fold.
  destruct names as [|name names]; [done|]. cbn [fold_right].
  change ("#" ++ "/" ++ ?x) with (String "#" (String "/" x)).
  cbn [reference_tokens]. f_equal.
  rewrite split_on_names.
  - clear -Hnames. induction Hnames as [|n ns Hn _ IH]; [done|].
    rewrite fmap_cons, IH. f_equal. apply unescape_plain.
    by apply plain_name_contains.
  - eapply Forall_impl; [done|]. intros n Hn. by apply plain_name_contains.
Qed.

Lemma pretty_N_go_plain (x : N) (s : string) :
  plain_name s = true -> plain_name (pretty_N_go x s) = true.
Proof.
  revert s. induction (N.lt_wf_0 x) as [x _ IH]; intros s Hs.
  destruct (decide (x = 0)%N) as [->|Hx]; [by rewrite pretty_N_go_0|].
  rewrite pretty_N_go_step by lia. apply IH.
  - apply N.div_lt; lia.
  - cbn [plain_name]. rewrite Hs, andb_true_r.
    unfold pretty_N_char. by repeat case_match.
Qed.

(** The decimal numeral of an index is a plain name. *)
Lemma pretty_nat_plain (i : nat) : plain_name (pretty i) = true.
Proof.
  unfold pretty, pretty_nat, pretty, pretty_N.
  case_decide; [done|]. by apply pretty_N_go_plain.
Qed.

Lemma assoc_lookup_NoDup {A : Type} (l : list (string * A)) (i : nat)
  (k : string) (v : A) :
  NoDup (fst <$> l) -> l !! i = Some (k, v) -> assoc k l = Some v.
Proof.
  revert i. induction l as [|[k' v'] l IH]; intros i; [done|].
  rewrite fmap_cons. intros [Hk Hl]%NoDup_cons. cbn [assoc].
  destruct i as [|i]; simpl.
  - intros [= -> ->]. by rewrite String.eqb_refl.
  - intros Hi. destruct (String.eqb k k') eqn:E; [|by eapply IH].
    apply String.eqb_eq in E as ->. destruct Hk.
    apply list_elem_of_fmap. exists (k', v). split; [done|].
    by eapply list_elem_of_lookup_2.
Qed.

Lemma assoc_imap_pretty {A : Type} (l : list A) (i : nat) (x : A) :
  l !! i = Some x ->
  assoc (pretty i) (imap (fun j e => (pretty j, e)) l) = Some x.
Proof.
  intros Hi. apply assoc_lookup_NoDup with (i := i).
  - apply NoDup_alt. intros a b k.
    rewrite !list_lookup_fmap, !list_lookup_imap.
    destruct (l !! a); [|done]. destruct (l !! b); [|done]. simpl.
    intros [= <-] [= E]. by apply (inj pretty) in E.
  - by rewrite list_lookup_imap, Hi.
Qed.

Section decycle_refs.
Variable h : gmap positive hobject.
Variable root : hvalue.

Hypothesis Hplain : plain_names h.
Hypothesis Hdistinct : distinct_names h.

(** The names on the way to a position are plain. *)
Lemma walk_plain (position : list nat) (v : hvalue) (names : list string)
  (t : hvalue) :
  walk h v position = Some (names, t) ->
  Forall (fun name => plain_name name = true) names.
Proof.
  revert v names. induction position as [|i position IH]; intros v names;
    cbn [walk].
  - by intros [= <- _].
  - destruct v as [|l]; [done|].
    destruct (h !! l) as [o|] eqn:Ho; [cbn [mbind option_bind]|done].
    destruct (nth_member o i) as [[name w]|] eqn:Hm;
      [cbn [mbind option_bind]|done].
    destruct (walk h w position) as [[ns t0]|] eqn:Hw;
      [cbn [mbind option_bind]|done].
    intros [= <- <-]. constructor; [|by eapply IH].
    destruct o as [elems|props|kind]; simpl in Hm; [| |done].
    + destruct (elems !! i); [|done]. injection Hm as <- _.
      apply pretty_nat_plain.
    + eapply Hplain; [done|].
      apply list_elem_of_In. by eapply list_elem_of_lookup_2.
Qed.

(** The objects of the clone have distinct property names. *)
Lemma Cloned_distinct (first : gmap positive (list nat)) (position : list nat)
  (v : hvalue) (c : clone) :
  Cloned h root first position v c ->
  forall r rs props,
    clone_walk c r = Some (rs, CObject props) -> NoDup (fst <$> props).
Proof.
  induction 1 as [position v Hv
                 |position l elems cs Hl Hf Hlen Hmem IH
                 |position l props nu Hl Hf Hkeys Hmem IH
                 |position l earlier names Hc Hf Hp Hw];
    intros r rs props'.
  - destruct r; [done|]. done.
  - destruct r as [|i r]; [done|]. cbn [clone_walk clone_nth].
    destruct (cs !! i) as [ci|] eqn:Hci; [cbn [fmap option_fmap option_map mbind option_bind]|done].
    destruct (clone_walk ci r) as [[ns t]|] eqn:Hr;
      [cbn [mbind option_bind]|done].
    intros [= _ ->].
    destruct (lookup_lt_is_Some_2 elems i) as [e He].
    { rewrite <- Hlen. by eapply lookup_lt_Some. }
    by eapply (IH i e ci He Hci).
  - destruct r as [|i r].
    + intros [= _ <-]. rewrite Hkeys. by eapply Hdistinct.
    + cbn [clone_walk clone_nth].
      destruct (nu !! i) as [[name' ci]|] eqn:Hci;
        [cbn [mbind option_bind]|done].
      destruct (clone_walk ci r) as [[ns t]|] eqn:Hr;
        [cbn [mbind option_bind]|done].
      intros [= _ ->].
      destruct (lookup_lt_is_Some_2 props i) as [[name e] He].
      { apply (f_equal length) in Hkeys. rewrite !length_fmap in Hkeys.
        rewrite <- Hkeys. by eapply lookup_lt_Some. }
      by eapply (IH i name e name' ci He Hci).
  - destruct r as [|i r].
    + intros [= _ <-]. simpl. apply NoDup_singleton.
    + destruct i as [|i]; [|done]. by destruct r.
Qed.

(** Taking members by name follows the positions. *)
Lemma follow_walk (position : list nat) (c : clone) (names : list string)
  (t : clone) :
  (forall r rs props,
     clone_walk c r = Some (rs, CObject props) -> NoDup (fst <$> props)) ->
  clone_walk c position = Some (names, t) -> follow c names = Some t.
Proof.
  revert c names. induction position as [|i position IH]; intros c names Hc;
    cbn [clone_walk].
  - by intros [= <- <-].
  - destruct (clone_nth c i) as [[name c1]|] eqn:Hi;
      [cbn [mbind option_bind]|done].
    destruct (clone_walk c1 position) as [[ns t0]|] eqn:Hw;
      [cbn [mbind option_bind]|done].
    intros [= <- <-]. cbn [follow].
    assert (clone_member c name = Some c1) as ->.
    { destruct c as [v|cs|props]; simpl in Hi; [done| |].
      - destruct (cs !! i) as [ci|] eqn:Hci; [|done]. injection Hi as <- <-.
        by apply assoc_imap_pretty.
      - simpl. eapply assoc_lookup_NoDup; [|done]. by apply (Hc [] []). }
    cbn [mbind option_bind]. apply (IH c1 ns); [|done].
    intros r rs props Hr. apply (Hc (i :: r) (name :: rs)).
    cbn [clone_walk]. rewrite Hi. cbn [mbind option_bind]. by rewrite Hr.
Qed.

End decycle_refs.



(** * Properties of the formats *)

Lemma number_le_finite (m1 e1 m2 e2 k : Z) :
  (0 <= e1 + k)%Z -> (0 <= e2 + k)%Z ->
  number_le (Finite m1 e1) (Finite m2 e2) = true
  <-> (m1 * 2 ^ (e1 + k) <= m2 * 2 ^ (e2 + k))%Z.
Proof.
  intros H1 H2. cbn [number_le]. cbv zeta. rewrite Z.leb_le.
  set (e := Z.min e1 e2).
  assert (0 <= e1 - e)%Z by lia. assert (0 <= e2 - e)%Z by lia.
  assert (0 <= e + k)%Z by lia.
  replace (e1 + k)%Z with ((e1 - e) + (e + k))%Z by lia.
  replace (e2 + k)%Z with ((e2 - e) + (e + k))%Z by lia.
  rewrite (Z.pow_add_r 2 (e1 - e) (e + k)), (Z.pow_add_r 2 (e2 - e) (e + k))
    by lia.
  rewrite !Z.mul_assoc.
  assert (0 < 2 ^ (e + k))%Z by (apply Z.pow_pos_nonneg; lia).
  by rewrite <- Z.mul_le_mono_pos_r.
Qed.

Lemma number_lt_finite (m1 e1 m2 e2 k : Z) :
  (0 <= e1 + k)%Z -> (0 <= e2 + k)%Z ->
  number_lt (Finite m1 e1) (Finite m2 e2) = true
  <-> (m1 * 2 ^ (e1 + k) < m2 * 2 ^ (e2 + k))%Z.
Proof.
  intros H1 H2. cbn [number_lt]. cbv zeta. rewrite Z.ltb_lt.
  set (e := Z.min e1 e2).
  assert (0 <= e1 - e)%Z by lia. assert (0 <= e2 - e)%Z by lia.
  assert (0 <= e + k)%Z by lia.
  replace (e1 + k)%Z with ((e1 - e) + (e + k))%Z by lia.
  replace (e2 + k)%Z with ((e2 - e) + (e + k))%Z by lia.
  rewrite (Z.pow_add_r 2 (e1 - e) (e + k)), (Z.pow_add_r 2 (e2 - e) (e + k))
    by lia.
  rewrite !Z.mul_assoc.
  assert (0 < 2 ^ (e + k))%Z by (apply Z.pow_pos_nonneg; lia).
  by rewrite <- Z.mul_lt_mono_pos_r.
Qed.

Lemma pow2_double (e : Z) : (0 <= e <= 1023)%Z -> pow2 e = Finite 1 e.
Proof.
  intros He. unfold pow2.
  destruct (1023 <? e)%Z eqn:E1; [apply Z.ltb_lt in E1; lia|].
  destruct (e <? -1074)%Z eqn:E2; [apply Z.ltb_lt in E2; lia|]. done.
Qed.

(** The range of [bits] bits among the finite numbers, with the two sides
    brought to a whole number by the factor [2^k]. *)
Lemma getBitRangeValidator_finite (bits m e k : Z) :
  (1 <= bits <= 1024)%Z -> (0 <= k)%Z -> (0 <= e + k)%Z ->
  getBitRangeValidator bits (Finite m e) = true
  <-> (- 2 ^ (bits - 1 + k) <= m * 2 ^ (e + k) < 2 ^ (bits - 1 + k))%Z.
Proof.
  intros Hbits Hk Hek. unfold getBitRangeValidator. cbv zeta.
  rewrite pow2_double by lia. cbn [negate].
  rewrite andb_true_iff.
  rewrite (number_le_finite (-1) (bits - 1) m e k) by lia.
  rewrite (number_lt_finite m e 1 (bits - 1) k) by lia.
  lia.
Qed.

(** X22.  The formats [int32] and [int64] test a range of doubles, not
    integrality: a finite number [m * 2^e] is in the range of [bits] bits,
    for [bits] from [1] to [1024], exactly when it lies from [-2^(bits-1)]
    inclusive to [2^(bits-1)] exclusive.  So [int32] accepts the integers
    from [-2^31] to [2^31 - 1]; [int64] accepts an integer that is a double
    exactly from [-2^63] to [2^63 - 1024], the greatest double under [2^63];
    [NaN] and the infinities are in no such range; and a number in the
    range of [bits] is in the range of any larger number of bits. *)
Theorem getBitRangeValidator_ranges :
  (forall bits m e k,
     (1 <= bits <= 1024)%Z -> (0 <= k)%Z -> (0 <= e + k)%Z ->
     getBitRangeValidator bits (Finite m e) = true
     <-> (- 2 ^ (bits - 1 + k) <= m * 2 ^ (e + k) < 2 ^ (bits - 1 + k))%Z)
  /\ (forall n,
        getBitRangeValidator 32 (Finite n 0) = true
        <-> (-2147483648 <= n <= 2147483647)%Z)
  /\ (forall m e,
        double m e = true -> (0 <= e)%Z ->
        getBitRangeValidator 64 (Finite m e) = true
        <-> (-9223372036854775808 <= m * 2 ^ e <= 9223372036854774784)%Z)
  /\ (forall bits,
        (bits <= 1024)%Z ->
        getBitRangeValidator bits NaN = false
        /\ forall negative, getBitRangeValidator bits (Infinity negative) = false)
  /\ (forall bits bits' m e,
        (1 <= bits <= bits')%Z -> (bits' <= 1024)%Z ->
        getBitRangeValidator bits (Finite m e) = true ->
        getBitRangeValidator bits' (Finite m e) = true).
Proof.
  split; [exact getBitRangeValidator_finite|]. split; [|split; [|split]].
  - intros n. rewrite (getBitRangeValidator_finite 32 n 0 0) by lia.
    change (2 ^ (32 - 1 + 0))%Z with 2147483648%Z.
    change (2 ^ (0 + 0))%Z with 1%Z. lia.
  - intros m e Hd He. rewrite (getBitRangeValidator_finite 64 m e 0) by lia.
    change (2 ^ (64 - 1 + 0))%Z with 9223372036854775808%Z.
    rewrite Z.add_0_r.
    unfold double in Hd.
    apply andb_prop in Hd as [[Hm%Z.ltb_lt _]%andb_prop _].
    change (2 ^ 53)%Z with 9007199254740992%Z in Hm.
    split; [|lia]. intros [Hlo Hhi]. split; [done|].
    destruct (Z_le_gt_dec e 10) as [Hsmall|Hlarge].
    + assert (1 <= 2 ^ e <= 2 ^ 10)%Z as Hp.
      { split; [|apply Z.pow_le_mono_r; lia].
        pose proof (Z.pow_pos_nonneg 2 e). lia. }
      change (2 ^ 10)%Z with 1024%Z in Hp. nia.
    + replace e with (11 + (e - 11))%Z in * by lia.
      rewrite Z.pow_add_r in * by lia.
      change (2 ^ 11)%Z with 2048%Z in *.
      assert (0 < 2 ^ (e - 11))%Z by (apply Z.pow_pos_nonneg; lia).
      set (x := (m * 2 ^ (e - 11))%Z).
      replace (m * (2048 * 2 ^ (e - 11)))%Z with (2048 * x)%Z in * by (unfold x; lia).
      lia.
  - intros bits Hbits. unfold getBitRangeValidator. cbv zeta.
    split; [by destruct (pow2 (bits - 1)) as [|[]|]|].
    intros negative. unfold pow2.
    destruct (1023 <? bits - 1)%Z eqn:E1; [apply Z.ltb_lt in E1; lia|].
    destruct (bits - 1 <? -1074)%Z; by destruct negative.
  - intros bits bits' m e Hbits Hbits'.
    set (k := Z.max 0 (- e)).
    rewrite (getBitRangeValidator_finite bits m e k) by lia.
    rewrite (getBitRangeValidator_finite bits' m e k) by lia.
    assert (2 ^ (bits - 1 + k) <= 2 ^ (bits' - 1 + k))%Z
      by (apply Z.pow_le_mono_r; lia).
    lia.
Qed.

(** The numbers nearest to [2^63 - 1] and to [-2^63 - 1], which no double
    is, are [2^63], rejected, and [-2^63], accepted; [1/2] is in every range
    of one bit or more. *)
Example getBitRangeValidator_samples :
  double 1 63 = true
  /\ getBitRangeValidator 64 (Finite 1 63) = false
  /\ getBitRangeValidator 64 (Finite (-1) 63) = true
  /\ double 9007199254740991 10 = true
  /\ getBitRangeValidator 64 (Finite 9007199254740991 10) = true
  /\ getBitRangeValidator 32 (Finite 1 (-1)) = true
  /\ getBitRangeValidator 1025 (Infinity true) = true
  /\ getBitRangeValidator (-1074) (Finite 0 0) = false.
Proof. repeat split; vm_compute; reflexivity. Qed.

(** ** Patterns *)

Lemma nullable_Matches (r : pattern) : nullable r = true <-> Matches r [].
Proof.
  split.
  - induction r; simpl; try done.
    + intros _. constructor.
    + intros [H1 H2]%andb_prop. apply (MSeq _ _ [] []); auto.
    + intros [H|H]%orb_prop; [apply MAltL|apply MAltR]; auto.
    + intros _. constructor.
  - intros H. remember [] as s eqn:Es.
    induction H; simpl; try done.
    + apply app_eq_nil in Es as [-> ->]. by rewrite IHMatches1, IHMatches2.
    + by rewrite IHMatches.
    + rewrite IHMatches by done. apply orb_true_r.
Qed.

Lemma Matches_star_cons (r : pattern) (c : ascii) (s : list ascii) :
  Matches (PStar r) (c :: s) ->
  exists s1 s2, s = (s1 ++ s2)%list /\ Matches r (c :: s1) /\ Matches (PStar r) s2.
Proof.
  intros H. remember (PStar r) as q eqn:Eq. remember (c :: s) as t eqn:Et.
  revert s Et. induction H; intros u Et; try done.
  injection Eq as ->. destruct s1 as [|d s1].
  - simpl in Et. by apply IHMatches2.
  - injection Et as -> <-. eauto.
Qed.

Lemma Matches_class (p : ascii -> bool) (s : list ascii) :
  Matches (PClass p) s <-> exists c, s = [c] /\ p c = true.
Proof.
  split.
  - inversion 1; subst. eauto.
  - intros (c & -> & H). by constructor.
Qed.

Lemma Matches_seq (r1 r2 : pattern) (s : list ascii) :
  Matches (PSeq r1 r2) s
  <-> exists s1 s2, s = (s1 ++ s2)%list /\ Matches r1 s1 /\ Matches r2 s2.
Proof.
  split.
  - inversion 1; subst. eauto.
  - intros (s1 & s2 & -> & H1 & H2). by constructor.
Qed.

Lemma Matches_alt (r1 r2 : pattern) (s : list ascii) :
  Matches (PAlt r1 r2) s <-> Matches r1 s \/ Matches r2 s.
Proof.
  split.
  - inversion 1; subst; auto.
  - intros [H|H]; [by apply MAltL|by apply MAltR].
Qed.

Lemma Matches_empty (s : list ascii) : Matches PEmpty s <-> s = [].
Proof. split; [by inversion 1|intros ->; constructor]. Qed.

Lemma Matches_none (s : list ascii) : Matches PNone s <-> False.
Proof. split; [inversion 1|done]. Qed.

Lemma derivative_Matches (c : ascii) (r : pattern) (s : list ascii) :
  Matches (derivative c r) s <-> Matches r (c :: s).
Proof.
  revert s. induction r as [| |p|r1 IH1 r2 IH2|r1 IH1 r2 IH2|r IH]; intros s;
    simpl.
  - by rewrite !Matches_none.
  - rewrite Matches_none, Matches_empty. done.
  - rewrite Matches_class. destruct (p c) eqn:E.
    + rewrite Matches_empty. split.
      * intros ->. eauto.
      * by intros (d & [= -> ->] & _).
    + rewrite Matches_none. split; [done|]. intros (d & [= -> ->] & H).
      congruence.
  - assert (Matches (PSeq (derivative c r1) r2) s
            <-> exists s1 s2, s = (s1 ++ s2)%list /\ Matches r1 (c :: s1)
                              /\ Matches r2 s2) as Hseq.
    { rewrite Matches_seq. by setoid_rewrite IH1. }
    rewrite (Matches_seq r1 r2).
    destruct (nullable r1) eqn:N.
    + rewrite Matches_alt, Hseq, IH2. split.
      * intros [(s1 & s2 & -> & H1 & H2)|H].
        -- exists (c :: s1), s2. done.
        -- exists [], (c :: s). split; [done|]. split; [|done].
           by apply nullable_Matches.
      * intros (s1 & s2 & E & H1 & H2). destruct s1 as [|d s1].
        -- simpl in E. subst. by right.
        -- injection E as <- ->. left. eauto.
    + rewrite Hseq. split.
      * intros (s1 & s2 & -> & H1 & H2). exists (c :: s1), s2. done.
      * intros (s1 & s2 & E & H1 & H2). destruct s1 as [|d s1].
        -- apply nullable_Matches in H1. congruence.
        -- injection E as <- ->. eauto.
  - by rewrite !Matches_alt, IH1, IH2.
  - rewrite Matches_seq. split.
    + intros (s1 & s2 & -> & H1%IH & H2).
      change (Matches (PStar r) ((c :: s1) ++ s2)). by constructor.
    + intros (s1 & s2 & -> & H1 & H2)%Matches_star_cons.
      exists s1, s2. split; [done|]. split; [by apply IH|done].
Qed.

(** The test by derivatives decides the language of the pattern. *)
Lemma accepts_Matches (r : pattern) (s : list ascii) :
  accepts r s = true <-> Matches r s.
Proof.
  revert r. induction s as [|c s IH]; intros r; simpl.
  - apply nullable_Matches.
  - by rewrite IH, derivative_Matches.
Qed.

Lemma Matches_rep_class (n : nat) (p : ascii -> bool) (s : list ascii) :
  Matches (PRep n (PClass p)) s <-> length s = n /\ forallb p s = true.
Proof.
  revert s. induction n as [|n IH]; intros s; simpl.
  - split.
    + by inversion 1.
    + intros [->%length_zero_iff_nil _]. constructor.
  - rewrite Matches_seq. split.
    + intros (s1 & s2 & -> & (c & -> & Hc)%Matches_class & [H1 H2]%IH).
      simpl. rewrite H1, Hc, H2. done.
    + intros [Hlen Hall]. destruct s as [|c s]; [done|].
      simpl in Hlen, Hall. apply andb_prop in Hall as [Hc Hall].
      exists [c], s. split; [done|]. split; [by constructor|].
      apply IH. split; [lia|done].
Qed.

Lemma Matches_star_rep (n : nat) (p : ascii -> bool) (s : list ascii) :
  Matches (PStar (PRep (S n) (PClass p))) s
  <-> (exists k, length s = (k * S n)%nat) /\ forallb p s = true.
Proof.
  split.
  - intros H. remember (PStar (PRep (S n) (PClass p))) as r eqn:Er.
    induction H; try done.
    + split; [by exists 0%nat|done].
    + injection Er as ->. destruct (IHMatches2 eq_refl) as [[k Hk] Hall].
      apply (Matches_rep_class (S n)) in H as [Hlen Hall1].
      split.
      * exists (S k). rewrite length_app. lia.
      * by rewrite forallb_app, Hall1, Hall.
  - intros [[k Hk] Hall]. revert s Hk Hall.
    induction k as [|k IH]; intros s Hk Hall.
    + simpl in Hk. apply length_zero_iff_nil in Hk as ->. constructor.
    + rewrite <- (take_drop (S n) s).
      rewrite <- (take_drop (S n) s), forallb_app in Hall.
      apply andb_prop in Hall as [Hall1 Hall2].
      constructor.
      * apply (Matches_rep_class (S n)). split; [|done].
        rewrite length_take. lia.
      * apply IH; [|done]. rewrite length_drop. lia.
Qed.

(** X23.  The format [byte] accepts base64 text and nothing else: a text
    passes exactly when it is a run of characters of the base64 alphabet
    followed by padding, either none after a multiple of four characters,
    or [==] after two more, or [=] after three more.  A text that passes
    has a length that is a multiple of four. *)
Theorem byte_format (s : string) :
  (pattern_test byte_pattern s = true
   <-> exists (body pad : list ascii) (k : nat),
         list_ascii_of_string s = (body ++ pad)%list
         /\ forallb base64_char body = true
         /\ ((pad = [] /\ length body = 4 * k)
             \/ (pad = ["="; "="]%char /\ length body = 4 * k + 2)
             \/ (pad = ["="]%char /\ length body = 4 * k + 3))%nat)
  /\ (pattern_test byte_pattern s = true ->
      exists k, String.length s = (4 * k)%nat).
Proof.
  assert (forall t : list ascii,
            Matches (PSeq (PChar "=") (PChar "=")) t <-> t = ["="; "="]%char)
    as Heq2.
  { intros t. rewrite Matches_seq. unfold PChar. split.
    - intros (s1 & s2 & -> & (c1 & -> & ->%Ascii.eqb_eq)%Matches_class
              & (c2 & -> & ->%Ascii.eqb_eq)%Matches_class). done.
    - intros ->. exists ["="%char], ["="%char].
      split; [done|]. split; by constructor. }
  assert (forall t : list ascii, Matches (PChar "=") t <-> t = ["="]%char)
    as Heq1.
  { intros t. unfold PChar. rewrite Matches_class. split.
    - by intros (c & -> & ->%Ascii.eqb_eq).
    - intros ->. eauto. }
  assert (pattern_test byte_pattern s = true
          <-> exists (body pad : list ascii) (k : nat),
                list_ascii_of_string s = (body ++ pad)%list
                /\ forallb base64_char body = true
                /\ ((pad = [] /\ length body = 4 * k)
                    \/ (pad = ["="; "="]%char /\ length body = 4 * k + 2)
                    \/ (pad = ["="]%char /\ length body = 4 * k + 3))%nat)
    as Hchar.
  { unfold pattern_test. rewrite accepts_Matches. unfold byte_pattern, POpt.
    set (t := list_ascii_of_string s). clearbody t. rewrite Matches_seq. split.
    - intros (s1 & s2 & -> & [[k Hk] Hall]%Matches_star_rep & Hpad).
      apply Matches_alt in Hpad as [Halt|Hempty].
      + apply Matches_alt in Halt as [Htwo|Hthree].
        * apply Matches_seq in Htwo
            as (x & y & -> & [Hlen Hx]%Matches_rep_class & ->%Heq2).
          exists (s1 ++ x)%list, ["="; "="]%char, k.
          split; [by rewrite app_assoc|].
          split; [by rewrite forallb_app, Hall, Hx|].
          right. left. split; [done|]. rewrite length_app. lia.
        * apply Matches_seq in Hthree
            as (x & y & -> & [Hlen Hx]%Matches_rep_class & ->%Heq1).
          exists (s1 ++ x)%list, ["="]%char, k.
          split; [by rewrite app_assoc|].
          split; [by rewrite forallb_app, Hall, Hx|].
          right. right. split; [done|]. rewrite length_app. lia.
      + apply Matches_empty in Hempty as ->. exists s1, [], k.
        split; [done|]. split; [done|]. left. split; [done|]. lia.
    - intros (body & pad & k & -> & Hall & Hcases).
      destruct Hcases as [[-> Hlen]|[[-> Hlen]|[-> Hlen]]].
      + exists body, []. split; [done|]. split.
        * apply Matches_star_rep. split; [exists k; lia|done].
        * apply MAltR. constructor.
      + exists (take (4 * k) body), (drop (4 * k) body ++ ["="; "="]%char)%list.
        rewrite <- (take_drop (4 * k) body), forallb_app in Hall.
        apply andb_prop in Hall as [Hall1 Hall2].
        split; [by rewrite app_assoc, take_drop|]. split.
        * apply Matches_star_rep. split; [|done].
          exists k. rewrite length_take. lia.
        * apply MAltL, MAltL. constructor; [|by apply Heq2].
          apply Matches_rep_class. split; [|done]. rewrite length_drop. lia.
      + exists (take (4 * k) body), (drop (4 * k) body ++ ["="]%char)%list.
        rewrite <- (take_drop (4 * k) body), forallb_app in Hall.
        apply andb_prop in Hall as [Hall1 Hall2].
        split; [by rewrite app_assoc, take_drop|]. split.
        * apply Matches_star_rep. split; [|done].
          exists k. rewrite length_take. lia.
        * apply MAltL, MAltR. constructor; [|by apply Heq1].
          apply Matches_rep_class. split; [|done]. rewrite length_drop. lia. }
  split; [exact Hchar|].
  intros (body & pad & k & E & _ & Hcases)%Hchar.
  assert (String.length s = length (list_ascii_of_string s)) as ->.
  { clear. induction s as [|c s IH]; simpl; [done|]. by rewrite IH. }
  rewrite E, length_app.
  destruct Hcases as [[-> ->]|[[-> ->]|[-> ->]]]; simpl.
  - exists k. lia.
  - exists (S k). lia.
  - exists (S k). lia.
Qed.

Example byte_format_samples :
  pattern_test byte_pattern "" = true
  /\ pattern_test byte_pattern "TWFu" = true
  /\ pattern_test byte_pattern "TWE=" = true
  /\ pattern_test byte_pattern "TQ==" = true
  /\ pattern_test byte_pattern "TWE" = false
  /\ pattern_test byte_pattern "TQ=" = false
  /\ pattern_test byte_pattern "T===" = false
  /\ pattern_test byte_pattern "TW=u" = false
  /\ pattern_test byte_pattern "TW-u" = false.
Proof. repeat split; reflexivity. Qed.

(** The table of the formats: the two ranges, the pattern, and four
    formats that accept every value. *)
Example defaultFormats_table :
  (fst <$> defaultFormats)
  = ["int32"; "int64"; "float"; "double"; "byte"; "binary"; "password"]
  /\ match assoc "int32" defaultFormats, assoc "byte" defaultFormats with
     | Some (NumberFormat int32), Some (StringFormat byte) =>
         int32 (Finite 2147483647 0) = true
         /\ int32 (Finite 2147483648 0) = false
         /\ byte "aGk=" = true /\ byte "aGk" = false
     | _, _ => False
     end.
Proof. repeat split; reflexivity. Qed.

(** * Properties of the response validators built for an operation *)

Section response_builder.
Variable compileSchema :
  ValidationContext.t -> bool -> jsval -> jsval -> list ValidationError.

Lemma status_validators_lookup (responses : Responses)
  (acc : gmap string (jsval -> list ValidationError)) (status : string) :
  is_Some (statusValidators compileSchema responses acc !! status)
  <-> is_Some (acc !! status)
      \/ exists response, In (status, response) responses
                          /\ is_Some (response_schema response).
Proof.
  unfold statusValidators.
  revert acc. induction responses as [|[st res] responses IH]; intros acc; simpl.
  - split; [by left|]. by intros [?|(? & [] & _)].
  - rewrite IH. destruct (response_schema res) as [schema|] eqn:E.
    + split.
      * intros [H|(res' & Hin & Hs)]; [|right; eauto].
        destruct (decide (st = status)) as [->|Hne].
        -- right. exists res. split; [by left|]. by rewrite E.
        -- rewrite lookup_insert_ne in H by done. by left.
      * intros [H|(res' & [[= -> ->]|Hin] & Hs)].
        -- left. destruct (decide (st = status)) as [->|Hne].
           ++ by rewrite lookup_insert_eq.
           ++ by rewrite lookup_insert_ne.
        -- left. by rewrite lookup_insert_eq.
        -- right. eauto.
    + split.
      * intros [H|(res' & Hin & Hs)]; [by left|right; eauto].
      * intros [H|(res' & [[= -> ->]|Hin] & Hs)]; [by left| |right; eauto].
        rewrite E in Hs. by destruct Hs.
Qed.

(** X24.  For an operation with an [operationId] and responses, the map
    of validators by status is always registered, with an entry for each
    status whose response has a JSON schema and for no other; the validator
    for all statuses is registered exactly when that map is not empty.  An
    operation without [operationId] or without responses registers
    nothing. *)
Theorem response_validators_agree (operation : Operation)
  (responses : option Responses) :
  let all := buildResponseValidatorForOperation compileSchema operation
               responses ∅ in
  let by_status := buildStatusBasedResponseValidatorForOperation compileSchema
                     operation responses ∅ in
  match truthy_operationId operation, responses with
  | Some id, Some rs =>
      exists validators,
        by_status !! id = Some validators
        /\ (forall status,
              is_Some (validators !! status)
              <-> exists response, In (status, response) rs
                                   /\ is_Some (response_schema response))
        /\ (is_Some (all !! id) <-> validators <> ∅)
  | _, _ => all = ∅ /\ by_status = ∅
  end.
Proof.
  intros all by_status. unfold all, by_status,
    buildResponseValidatorForOperation,
    buildStatusBasedResponseValidatorForOperation.
  destruct (truthy_operationId operation) as [id|]; [|done].
  destruct responses as [rs|]; [|done].
  eexists. split; [by rewrite lookup_insert_eq|].
  assert (forall status,
            is_Some (statusValidators compileSchema rs ∅ !! status)
            <-> exists response, In (status, response) rs
                                 /\ is_Some (response_schema response)) as Hdom.
  { intros status. rewrite status_validators_lookup, lookup_empty. split.
    - intros [[? [=]]|H]; done.
    - by right. }
  split; [exact Hdom|].
  destruct (omap _ rs) as [|schema schemas] eqn:E.
  - rewrite lookup_empty. split; [by intros [? [=]]|]. intros Hne.
    destruct Hne. apply map_eq. intros status. rewrite lookup_empty.
    apply eq_None_not_Some. intros (res & Hin & [s Hs])%Hdom.
    assert (s ∈ omap (fun '(_, response) => response_schema response) rs) as Hs'.
    { apply list_elem_of_omap. exists (status, res).
      split; [by apply list_elem_of_In|done]. }
    rewrite E in Hs'. by apply elem_of_nil in Hs'.
  - rewrite lookup_insert_eq. split; [|by eauto]. intros _ Hempty.
    assert (schema ∈ omap (fun '(_, response) => response_schema response) rs)
      as Hs by (rewrite E; by left).
    apply list_elem_of_omap in Hs as ([status res] & Hin & Hs).
    assert (is_Some ((∅ : gmap string (jsval -> list ValidationError)) !! status))
      as [? Hcontra].
    { rewrite <- Hempty. apply Hdom. exists res.
      split; [by apply list_elem_of_In|by rewrite Hs]. }
    by rewrite lookup_empty in Hcontra.
Qed.

End response_builder.

Lemma header_properties_from (headers : list (string * HeaderObject))
  (properties0 : list (string * jsval)) (required0 : list string) :
  let '(properties, required) :=
    fold_left
      (fun '(properties, required) '(headerName, header) =>
         match header_schema header with
         | Some schema =>
             if truthy schema then
               (assign (toLowerCase headerName) schema properties,
                required ++ [toLowerCase headerName])%list
             else (properties, required)
         | None => (properties, required)
         end)
      headers (properties0, required0) in
  (forall name,
     name ∈ required
     <-> name ∈ required0
         \/ exists headerName header schema,
              In (headerName, header) headers
              /\ header_schema header = Some schema /\ truthy schema = true
              /\ name = toLowerCase headerName)
  /\ ((forall name, is_Some (assoc name properties0) <-> name ∈ required0) ->
      forall name, is_Some (assoc name properties) <-> name ∈ required).
Proof.
  revert properties0 required0.
  induction headers as [|[n hd] headers IH]; intros properties0 required0.
  - simpl. split; [|done]. intros name. split; [by left|].
    by intros [?|(? & ? & ? & [] & _)].
  - cbn [fold_left].
    destruct (header_schema hd) as [schema|] eqn:Es;
      [destruct (truthy schema) eqn:Et|].
    + specialize (IH (assign (toLowerCase n) schema properties0)
                    (required0 ++ [toLowerCase n])%list).
      destruct (fold_left _ headers _) as [properties required].
      destruct IH as [I1 I2]. split.
      * intros name. rewrite I1, elem_of_app, list_elem_of_singleton. split.
        -- intros [[?| ->]|(n' & hd' & s' & Hin & ?)].
           ++ by left.
           ++ right. exists n, hd, schema. split; [by left|done].
           ++ right. exists n', hd', s'. split; [by right|done].
        -- intros [?|(n' & hd' & s' & [[= -> ->]|Hin] & Hs & Ht & ->)].
           ++ left. by left.
           ++ left. by right.
           ++ right. exists n', hd', s'. done.
      * intros H0. apply I2. intros name.
        rewrite assoc_assign, elem_of_app, list_elem_of_singleton.
        destruct (String.eqb_spec name (toLowerCase n)) as [->|Hne].
        -- split; [by right|by eauto].
        -- rewrite H0. split; [by left|]. by intros [?|?].
    + specialize (IH properties0 required0).
      destruct (fold_left _ headers _) as [properties required].
      destruct IH as [I1 I2]. split; [|done].
      intros name. rewrite I1. split.
      * intros [?|(n' & hd' & s' & Hin & ?)]; [by left|].
        right. exists n', hd', s'. split; [by right|done].
      * intros [?|(n' & hd' & s' & [[= -> ->]|Hin] & Hs & Ht & ->)];
          [by left|congruence|].
        right. exists n', hd', s'. done.
    + specialize (IH properties0 required0).
      destruct (fold_left _ headers _) as [properties required].
      destruct IH as [I1 I2]. split; [|done].
      intros name. rewrite I1. split.
      * intros [?|(n' & hd' & s' & Hin & ?)]; [by left|].
        right. exists n', hd', s'. split; [by right|done].
      * intros [?|(n' & hd' & s' & [[= -> ->]|Hin] & Hs & Ht & ->)];
          [by left|congruence|].
        right. exists n', hd', s'. done.
Qed.

(** The names required are those of the headers that have a schema, in
    lower case, in the order of the headers and as often as they occur. *)
Lemma header_properties_required (headers : list (string * HeaderObject)) :
  snd (header_properties headers)
  = toLowerCase <$> (fst <$> List.filter with_schema headers).
Proof.
  unfold header_properties.
  assert (forall properties0 required0,
            snd (fold_left
                   (fun '(properties, required) '(headerName, header) =>
                      match header_schema header with
                      | Some schema =>
                          if truthy schema then
                            (assign (toLowerCase headerName) schema properties,
                             required ++ [toLowerCase headerName])%list
                          else (properties, required)
                      | None => (properties, required)
                      end)
                   headers (properties0, required0))
            = (required0
               ++ (toLowerCase <$> (fst <$> List.filter with_schema headers)))%list)
    as H; [|by rewrite H].
  induction headers as [|[n hd] headers IH]; intros properties0 required0.
  - simpl. by rewrite app_nil_r.
  - cbn [fold_left List.filter]. unfold with_schema at 1. cbn [snd].
    destruct (header_schema hd) as [schema|];
      [destruct (truthy schema)|]; rewrite IH; [|done..].
    rewrite !fmap_cons. cbn [fst]. by rewrite <- app_assoc.
Qed.

Section response_headers_builder.
Variable compileSchema :
  ValidationContext.t -> bool -> jsval
  -> completion (jsval -> list ValidationError).

Lemma headerValidators_normal (responses : Responses)
  (acc : gmap string (gmap string (jsval -> list ValidationError))) :
  (exists validators, headerValidators compileSchema responses acc = Normal validators)
  <-> forall status response, In (status, response) responses ->
        exists validateFns,
          headerValidatorsFor compileSchema response = Normal validateFns.
Proof.
  revert acc. induction responses as [|[st res] responses IH]; intros acc;
    cbn [headerValidators].
  - split; [by intros _ ? ? []|by eauto].
  - destruct (headerValidatorsFor compileSchema res) as [fns|e] eqn:E.
    + rewrite IH. split.
      * intros H status response [[= <- <-]|Hin]; [by eauto|by eapply H].
      * intros H status response Hin. apply (H status). by right.
    + split; [by intros [? [=]]|]. intros H.
      destruct (H st res (or_introl eq_refl)) as [fns Hfns]. congruence.
Qed.


End response_headers_builder.

Example response_validators_scenario :
  let compile (context : ValidationContext.t) (coerce : bool) (schema : jsval)
        (value : jsval) :=
    [parse_error (to_string (member "type" schema))] in
  let rs := Some [("200", pet_response); ("204", empty_response)] in
  let op := creation in
  (dom <$> buildStatusBasedResponseValidatorForOperation compile op rs ∅
           !! "createPet") = Some {["200"]}
  /\ is_Some (buildResponseValidatorForOperation compile op rs ∅ !! "createPet")
  /\ buildResponseValidatorForOperation compile op
       (Some [("204", empty_response)]) ∅ = ∅
  /\ header_properties (or_empty (resp_headers pet_response))
     = ([("x-rate-limit", VObj [("type", VStr "integer")])], ["x-rate-limit"]).
Proof. repeat split; try reflexivity. by eexists. Qed.

(** The headers of a response checked by the validators built for it: a
    header is found whatever the case of its letters, and a missing one is
    reported only by the set-match types that require it.  A response that
    names a header twice has no validators: the builder throws. *)
Example response_headers_scenario :
  let build responses :=
    buildResponseHeadersValidatorForOperation compile_required creation
      (Some responses) ∅ in
  let call headers setMatchType statusCode :=
    match build [("200", pet_response)] with
    | Normal registry =>
        match
          validateResponseHeaders (newRouter petstore None)
            (fun operationId => registry !! operationId)
            exact_status ok_status headers (Given creation) setMatchType
            statusCode
        with
        | Normal r => Some (valid r)
        | Throw _ => None
        end
    | Throw _ => None
    end in
  call [("X-RATE-LIMIT", VNum 5)] (Some "exact") (Some 200%Z) = Some true
  /\ call [] (Some "exact") (Some 200%Z) = Some false
  /\ call [] (Some "superset") None = Some false
  /\ call [] (Some "subset") (Some 200%Z) = Some true
  /\ call [] None (Some 200%Z) = Some true
  /\ call [] (Some "exact") (Some 404%Z) = Some true
  /\ call [] (Some "all") (Some 200%Z) = None
  /\ snd (header_properties (or_empty (resp_headers twice_response)))
     = ["x-rate-limit"; "x-rate-limit"]
  /\ build [("200", pet_response); ("404", twice_response)]
     = Throw "schema is invalid: required should NOT have duplicate items".
Proof. repeat split; vm_compute; reflexivity. Qed.

(** * Properties of the keys given to references *)

Lemma substring_from_before (c : ascii) (s : string) :
  substring_from (String.length (before c s)) s
  = match after c s with
    | Some rest => String c rest
    | None => ""
    end.
Proof.
  induction s as [|d s IH]; simpl; [done|].
  destruct (Ascii.eqb_spec d c) as [->|Hne]; simpl; [done|]. exact IH.
Qed.

Lemma contains_after (c : ascii) (s : string) :
  contains c s = true <-> is_Some (after c s).
Proof.
  induction s as [|d s IH]; simpl; [split; [done|by intros [? ?]]|].
  destruct (Ascii.eqb d c); simpl; [|done]. split; [by eauto|done].
Qed.

Lemma string_before_after (c : ascii) (s rest : string) :
  after c s = Some rest -> s = before c s ++ String c rest.
Proof.
  revert rest. induction s as [|d s IH]; intros rest; simpl; [done|].
  destruct (Ascii.eqb_spec d c) as [->|Hne].
  - by intros [= ->].
  - intros H. change (String d s = String d (before c s ++ String c rest)).
    by rewrite <- IH.
Qed.

Section ref_schemas.
Variable refs_get : string -> completion positive.
Variable refs_keys : list string.

Lemma find_schema_key_found (schema : positive) (keys : list string)
  (key : string) :
  find_schema_key refs_get schema keys = Normal (Some key) ->
  In key keys /\ refs_get key = Normal schema.
Proof.
  induction keys as [|k keys IH]; simpl; [done|].
  destruct (refs_get k) as [found|] eqn:E; [|done].
  destruct (Pos.eqb_spec schema found) as [->|Hne].
  - intros [= <-]. split; [by left|done].
  - intros [H1 H2]%IH. split; [by right|done].
Qed.

Lemma rekey_ref_rekeyed (value value' : jsval) (parentUri : string) :
  rekey_ref refs_get refs_keys value parentUri = Normal value' ->
  rekeyed refs_get refs_keys parentUri value value'.
Proof.
  unfold rekey_ref. destruct value as [| | | |ref| |]; try done.
  destruct (getRefSchemaKey _ _ ref parentUri) as [key|] eqn:E; [|done].
  intros [= <-]. exists ref, key. split; [done|].
  unfold getRefSchemaKey in E.
  destruct (refs_get (if String.eqb (getRefUri ref) "" then parentUri
                      else getRefUri ref)) as [schema|] eqn:Eg; [|done].
  destruct (find_schema_key refs_get schema refs_keys) as [[k|]|] eqn:Ef;
    [|done..].
  injection E as ->. apply find_schema_key_found in Ef as [Hin Hk].
  unfold getRefUri in *. split; [|split; [done|]].
  - f_equal. f_equal. destruct (contains "#" ref) eqn:Ec.
    + rewrite substring_from_before.
      apply contains_after in Ec as [rest Hr]. by rewrite Hr.
    + simpl. destruct (after "#" ref) as [rest|] eqn:Ea; [|done].
      assert (contains "#" ref = true) as Hc by (apply contains_after; eauto).
      congruence.
  - rewrite Hk, <- Eg. destruct (contains "#" ref); simpl.
    + by destruct (String.eqb (before "#" ref) "").
    + done.
Qed.

(** Induction on a value and the values inside it. *)
Lemma jsval_nested_ind (P : jsval -> Prop) :
  P VUndefined -> P VNull -> (forall b, P (VBool b)) -> (forall n, P (VNum n)) ->
  (forall s, P (VStr s)) ->
  (forall elems, Forall P elems -> P (VArr elems)) ->
  (forall props, Forall (fun kv => P (snd kv)) props -> P (VObj props)) ->
  forall v, P v.
Proof.
  intros H1 H2 H3 H4 H5 H6 H7.
  fix IH 1. intros [| |b|n|s|elems|props];
    [exact H1|exact H2|apply H3|apply H4|apply H5| |].
  - apply H6. induction elems as [|v elems IHl]; constructor;
      [apply IH|exact IHl].
  - apply H7. induction props as [|[k v] props IHl]; constructor;
      [apply IH|exact IHl].
Qed.

(** X29.  [replaceUris] changes the values of the properties [$ref] and
    nothing else: when it returns, the schema is as before once those values
    are blanked, and each of them is a key of the store followed by the
    fragment of the old reference, the key naming the schema file the
    reference pointed into, or the file of the parent for a reference within
    the file.  A schema without [$ref] is returned as it is. *)
Theorem replaceUris_rekeys (node node' : jsval) (parentUri : string) :
  replaceUris refs_get refs_keys node parentUri = Normal node' ->
  skeleton node' = skeleton node
  /\ Forall2 (rekeyed refs_get refs_keys parentUri)
       (ref_values node) (ref_values node')
  /\ (ref_values node = [] -> node' = node).
Proof.
  revert node'. induction node as [| | | | |elems IH|props IH]
    using jsval_nested_ind; intros node'; simpl;
    try (intros [= <-]; split; [done|]; split; [constructor|done]).
  - destruct ((fix elements (elems : list jsval) := _) elems)
      as [elems'|] eqn:E; [|done].
    intros [= <-]. simpl. revert elems' E.
    induction IH as [|v elems Hv _ IHl]; intros elems'.
    + intros [= <-]. split; [done|]. split; [constructor|done].
    + destruct (replaceUris refs_get refs_keys v parentUri) as [v'|] eqn:Ev;
        [|done].
      destruct ((fix elements (elems : list jsval) := _) elems)
        as [rest'|] eqn:Er; [|done].
      intros [= <-]. destruct (Hv v' eq_refl) as (S1 & S2 & S3).
      destruct (IHl rest' eq_refl) as (R1 & R2 & R3).
      injection R1 as R1. split; [by rewrite S1, R1|]. split.
      * by apply Forall2_app.
      * intros [Hn1 Hn2]%app_eq_nil. rewrite (S3 Hn1).
        specialize (R3 Hn2). by injection R3 as ->.
  - destruct ((fix entries (props : list (string * jsval)) := _) props)
      as [props'|] eqn:E; [|done].
    intros [= <-]. simpl. revert props' E.
    induction IH as [|[k v] props Hv _ IHl]; intros props'.
    + intros [= <-]. split; [done|]. split; [constructor|done].
    + simpl in Hv.
      destruct (if String.eqb k "$ref" then _ else _) as [v'|] eqn:Ev; [|done].
      destruct ((fix entries (props : list (string * jsval)) := _) props)
        as [rest'|] eqn:Er; [|done].
      intros [= <-]. destruct (IHl rest' eq_refl) as (R1 & R2 & R3).
      injection R1 as R1. destruct (String.eqb k "$ref") eqn:Ek.
      * apply rekey_ref_rekeyed in Ev.
        split; [by rewrite R1|]. split; [by constructor|]. done.
      * destruct (Hv v' Ev) as (S1 & S2 & S3).
        split; [by rewrite S1, R1|]. split; [by apply Forall2_app|].
        intros [Hn1 Hn2]%app_eq_nil. rewrite (S3 Hn1).
        specialize (R3 Hn2). by injection R3 as ->.
Qed.

End ref_schemas.

Lemma replaceUris_rekeys_witness :
  let schema :=
    VObj [("type", VStr "array");
          ("items", VObj [("$ref", VStr "pet.yaml#/Pet")]);
          ("contains", VObj [("$ref", VStr "#/Any")])] in
  let keys := ["/spec/api.yaml"; "/spec/pet.yaml"] in
  replaceUris two_files keys schema "api.yaml"
  = Normal (VObj [("type", VStr "array");
                  ("items", VObj [("$ref", VStr "/spec/pet.yaml#/Pet")]);
                  ("contains", VObj [("$ref", VStr "/spec/api.yaml#/Any")])])
  /\ Forall2 (rekeyed two_files keys "api.yaml")
       [VStr "pet.yaml#/Pet"; VStr "#/Any"]
       [VStr "/spec/pet.yaml#/Pet"; VStr "/spec/api.yaml#/Any"].
Proof.
  cbv zeta. split; [reflexivity|].
  exact (proj1 (proj2 (replaceUris_rekeys two_files
                         ["/spec/api.yaml"; "/spec/pet.yaml"]
                         (VObj [("type", VStr "array");
                                ("items", VObj [("$ref", VStr "pet.yaml#/Pet")]);
                                ("contains", VObj [("$ref", VStr "#/Any")])])
                         _ "api.yaml" eq_refl))).
Defined.
